(** * Stockholm parking tool: data-freshness layer and ranking

    A shallow embedding of [src/data.ts] (retrying fetcher, response
    normalizers, facility cache, stale-while-revalidate availability cache)
    and of [sortRecommendations] from [src/tool.ts], followed by the
    properties of the specification that are stated about them.  The rest
    of the program - the tool method, the distance helper, the
    configuration and the HTTP server - is embedded after them, and
    further properties of the whole close the file.

    Conventions.
    - A JavaScript value that may be [undefined] is an [option json];
      [None] is [undefined].
    - Code that may throw returns a [result]; [Throw] carries the Error.
    - Timestamps ([Date.now()]) and durations are integers of milliseconds.
    - Requests, sleeps and calls of the logger are recorded as a list of
      [effect]s, in the order in which they happen.
    - Asynchronous code is cut at its [await]s: the part that runs before
      the suspension is one function, the continuation another.  A
      suspended computation waits in the state as a [task], together
      with the place its request sequence has reached, and goes on one
      turn of the event loop at a time: when the response to its request
      arrives, and when its back-off sleep is over. *)

From stdpp Require Import base strings list gmap pretty sorting.
From Stdlib Require Import ZArith QArith Qround Lqa Lia Ascii.

Open Scope Z_scope.

(** ** Exceptions *)

(** Every value the modelled code throws or rethrows on the paths below is
    an [Error] instance; only its [message] is ever read. *)
Inductive exn := Error (message : string).

Definition message (e : exn) : string := let 'Error m := e in m.

Inductive result (A : Type) :=
| Ok (a : A)
| Throw (e : exn).
Arguments Ok {A} a.
Arguments Throw {A} e.

Global Instance result_ret : MRet result := @Ok.
Global Instance result_bind : MBind result :=
  λ A B f m, match m with Ok a => f a | Throw e => Throw e end.
Global Instance result_fmap : FMap result :=
  λ A B f m, match m with Ok a => Ok (f a) | Throw e => Throw e end.

Definition is_Ok {A} (r : result A) : bool :=
  match r with Ok _ => true | Throw _ => false end.

(** [xs.map(f)] where [f] may throw: the first exception aborts the map. *)
Fixpoint mapM {A B} (f : A → result B) (l : list A) : result (list B) :=
  match l with
  | [] => Ok []
  | x :: l' => y ← f x; ys ← mapM f l'; Ok (y :: ys)
  end.

(** ** JavaScript numbers and JSON values *)

Module Js.

(** An IEEE double is NaN, an infinity or a finite rational.  Signed zero
    is not distinguished: no code below can observe it. *)
Inductive number :=
| NaN
| Infinity (negative : bool)
| Finite (x : Q).

(** Three functions of the language runtime are called by the program but
    are no part of it: the two decimal conversions ([StringToNumber] of the
    [Number(...)] coercion, [Number::toString]) and the URL parser.  The
    development is parametric in them.  [URL_href path base] is
    [new URL(path, base).toString()]; a parse failure [inl s] carries
    [String(error)] of the TypeError. *)
Class Runtime := {
  StringToNumber : string → number;
  NumberToString : number → string;
  URL_href : string → string → string + string
}.

Definition isFinite (n : number) : bool :=
  match n with Finite _ => true | _ => false end.

(** A parsed JSON value.  [JObj props] lists the own properties of the
    object, each key once. *)
#[local] Set Warnings "-register-all".
Inductive json :=
| JNull
| JBool (b : bool)
| JNum (n : number)
| JStr (s : string)
| JArr (items : list json)
| JObj (props : list (string * json)).

(** [typeof v === 'object' && v !== null] *)
Definition isObject (v : json) : bool :=
  match v with JArr _ | JObj _ => true | _ => false end.

Fixpoint lookup_prop (k : string) (props : list (string * json)) : option json :=
  match props with
  | [] => None
  | (k', v) :: rest => if String.eqb k k' then Some v else lookup_prop k rest
  end.

Definition has_own (k : string) (props : list (string * json)) : bool :=
  match lookup_prop k props with Some _ => true | None => false end.

(** [raw.k] for the property names the normalizers read.  None of them is
    an index, ["length"] or a member of [Object.prototype] or
    [Array.prototype], so only own properties of plain objects answer.
    [raw] is never [null]: the parameter type excludes it and both
    callers test [typeof item === 'object' && item !== null] first. *)
Definition get (raw : json) (k : string) : option json :=
  match raw with
  | JObj props => lookup_prop k props
  | _ => None
  end.

(** [a ?? b]: the operands below are property reads and string templates,
    so evaluating [b] eagerly is unobservable. *)
Definition nullish (v : option json) : bool :=
  match v with None | Some JNull => true | _ => false end.

Definition coalesce (a b : option json) : option json :=
  if nullish a then b else a.

Definition is_undefined (v : option json) : bool :=
  match v with None => true | Some _ => false end.

(** [ToBoolean] *)
Definition ToBoolean (v : option json) : bool :=
  match v with
  | None | Some JNull => false
  | Some (JBool b) => b
  | Some (JNum NaN) => false
  | Some (JNum (Infinity _)) => true
  | Some (JNum (Finite x)) => negb (Qeq_bool x 0)
  | Some (JStr s) => (0 <? String.length s)%nat
  | Some (JArr _) | Some (JObj _) => true
  end.

Definition cannot_convert : exn :=
  Error "Cannot convert object to primitive value".

Section Coercions.
Context `{Runtime}.

(** [ToString] on a JSON value.  A parsed object carries only data
    properties, so an own ["toString"] property is never callable and
    shadows [Object.prototype.toString]; [Object.prototype.valueOf]
    returns the object itself; [OrdinaryToPrimitive] then has no
    primitive to return and throws a TypeError.  An array is converted
    by [Array.prototype.join], which turns [null] elements into the
    empty string and converts the others recursively. *)
Fixpoint ToString (v : json) : result string :=
  match v with
  | JNull => Ok "null"
  | JBool true => Ok "true"
  | JBool false => Ok "false"
  | JNum n => Ok (NumberToString n)
  | JStr s => Ok s
  | JArr items =>
      let element (x : json) : result string :=
        match x with JNull => Ok "" | _ => ToString x end in
      (fix join (l : list json) : result string :=
         match l with
         | [] => Ok ""
         | [x] => element x
         | x :: rest =>
             s ← element x; t ← join rest; Ok (s +:+ "," +:+ t)
         end) items
  | JObj props =>
      if has_own "toString" props then Throw cannot_convert
      else Ok "[object Object]"
  end.

(** [String(value)] *)
Definition String_ (v : option json) : result string :=
  match v with
  | None => Ok "undefined"
  | Some j => ToString j
  end.

(** [Number(value)]: objects and arrays go through [ToPrimitive], which
    yields the same string as [ToString] or throws as it does. *)
Definition Number_ (v : option json) : result number :=
  match v with
  | None => Ok NaN
  | Some JNull => Ok (Finite 0)
  | Some (JBool true) => Ok (Finite 1)
  | Some (JBool false) => Ok (Finite 0)
  | Some (JNum n) => Ok n
  | Some (JStr s) => Ok (StringToNumber s)
  | Some (JArr _ as o) | Some (JObj _ as o) =>
      s ← ToString o; Ok (StringToNumber s)
  end.
End Coercions.

End Js.

(** ** Shared types ([src/types.ts]) *)

Module ServiceConfig.
Record t := mk {
  port : Z;
  baseUrl : string;
  facilitiesPath : string;
  availabilityPath : string;
  requestTimeoutMs : Z;
  availabilityTtlMs : Z;
  facilitiesTtlMs : Z;
  overallTimeoutMs : Z
}.
End ServiceConfig.

Module FacilityMetadata.
Record t := mk {
  id : string;
  name : string;
  lat : Js.number;
  lon : Js.number;
  capacity : option Js.number;
  tariffNote : option string;
  zoneCode : option string;
  sourceUrl : string
}.
End FacilityMetadata.

Module FacilityAvailability.
Record t := mk {
  id : string;
  freeSpaces : option Js.number;
  capacity : option Js.number;
  lastUpdated : option string
}.
End FacilityAvailability.

(** [Map<string, FacilityAvailability>] *)
Abbreviation AvailabilityMap := (gmap string FacilityAvailability.t).

Module AvailabilityResult.
Record t := mk {
  data : AvailabilityMap;
  stale : bool
}.
End AvailabilityResult.

(** ** Response normalizers ([src/data.ts]) *)

Module Normalizer.
Import Js.

#[local] Infix "??" := coalesce (at level 60, right associativity).

Section WithRuntime.
Context `{Runtime}.

Definition toNumberOrNull (value : option json) : result (option number) :=
  if nullish value then Ok None
  else
    num ← Number_ value;
    Ok (if isFinite num then Some num else None).

Definition toStringOrNull (value : option json) : result (option string) :=
  if nullish value then Ok None
  else
    str ← String_ value;
    Ok (if (0 <? String.length str)%nat then Some str else None).

Definition normalizeFacilityMetadata (raw : json) (config : ServiceConfig.t)
  : result (option FacilityMetadata.t) :=
  let idValue :=
    get raw "id" ?? get raw "Id" ?? get raw "facilityId" ?? get raw "FacilityId" in
  let nameValue :=
    get raw "name" ?? get raw "Name" ?? get raw "siteName" ?? get raw "SiteName" in
  let positionValue := get raw "position" ?? get raw "Position" in
  let positionRecord :=
    match positionValue with
    | Some p => if isObject p then Some p else None
    | None => None
    end in
  let latValue := get raw "lat" ?? get raw "latitude" ?? get raw "Latitude" in
  let latValue :=
    match latValue, positionRecord with
    | None, Some p =>
        get p "lat" ?? get p "Lat" ?? get p "latitude" ?? get p "Latitude"
    | _, _ => latValue
    end in
  let lonValue := get raw "lon" ?? get raw "longitude" ?? get raw "Longitude" in
  let lonValue :=
    match lonValue, positionRecord with
    | None, Some p =>
        get p "lon" ?? get p "Lon" ?? get p "longitude" ?? get p "Longitude"
    | _, _ => lonValue
    end in
  if negb (ToBoolean idValue) || negb (ToBoolean nameValue)
     || is_undefined latValue || is_undefined lonValue
  then Ok None
  else
    lat ← Number_ latValue;
    lon ← Number_ lonValue;
    if negb (isFinite lat) || negb (isFinite lon) then Ok None
    else
      let endpoint :=
        ServiceConfig.baseUrl config +:+ ServiceConfig.facilitiesPath config in
      capacity ← toNumberOrNull (get raw "capacity" ?? get raw "Capacity");
      tariffNote ← toStringOrNull (get raw "tariffNote" ?? get raw "TariffNote");
      zoneCode ← toStringOrNull (get raw "zoneCode" ?? get raw "ZoneCode");
      url ← toStringOrNull
               (get raw "sourceUrl" ?? get raw "SourceUrl" ?? get raw "url"
                  ?? get raw "Url" ?? Some (JStr endpoint));
      let sourceUrl := default endpoint url in
      id ← String_ idValue;
      name ← String_ nameValue;
      Ok (Some (FacilityMetadata.mk id name lat lon capacity tariffNote
                  zoneCode sourceUrl)).

Definition normalizeAvailability (raw : json)
  : result (option FacilityAvailability.t) :=
  let idValue :=
    get raw "id" ?? get raw "Id" ?? get raw "facilityId" ?? get raw "FacilityId" in
  if negb (ToBoolean idValue) then Ok None
  else
    freeSpaces ← toNumberOrNull
                    (get raw "freeSpaces" ?? get raw "FreeSpaces"
                       ?? get raw "vacant" ?? get raw "Vacant");
    capacity ← toNumberOrNull (get raw "capacity" ?? get raw "Capacity");
    lastUpdated ← toStringOrNull
                     (get raw "lastUpdated" ?? get raw "LastUpdated"
                        ?? get raw "updatedAt" ?? get raw "UpdatedAt"
                        ?? get raw "timestamp" ?? get raw "Timestamp");
    id ← String_ idValue;
    Ok (Some (FacilityAvailability.mk id freeSpaces capacity lastUpdated)).

(** The normalizing pipeline of [getFacilities]: keep the object items,
    normalize each, keep the records. *)
Definition normalizeFacilities (rawData : list json) (config : ServiceConfig.t)
  : result (list FacilityMetadata.t) :=
  let items := filter (λ item, isObject item = true) rawData in
  match mapM (λ item, normalizeFacilityMetadata item config) items with
  | Ok normalized => Ok (omap (λ r : option FacilityMetadata.t, r) normalized)
  | Throw e => Throw e
  end.

(** The loop of [refreshAvailability] that fills the new [Map]. *)
Fixpoint collectAvailability (rawData : list json) (availability : AvailabilityMap)
  : result AvailabilityMap :=
  match rawData with
  | [] => Ok availability
  | item :: rest =>
      if negb (isObject item) then collectAvailability rest availability
      else
        normalized ← normalizeAvailability item;
        match normalized with
        | Some a =>
            collectAvailability rest (<[FacilityAvailability.id a := a]> availability)
        | None => collectAvailability rest availability
        end
  end.
End WithRuntime.

End Normalizer.

(** ** Retrying fetcher ([src/data.ts]) *)

(** What the program does to the outside world, in order. *)
Inductive field := FNum (n : Z) | FStr (s : string).

Inductive effect :=
| FetchCall (url : string)
| Sleep (ms : Z)
| LogInfo (msg : string) (fields : list (string * field))
| LogError (msg : string) (fields : list (string * field)).

Module Fetcher.
Import Js.

Definition RETRY_STATUS_CODES : list Z := [429; 500; 502; 503; 504].
Definition MAX_ATTEMPTS : Z := 3.

(** A [Response]: its status and what reading its body yields, as text
    ([response.text()]) and as parsed JSON ([response.json()]). *)
Record Response := {
  status : Z;
  text : result string;
  json_body : result json
}.

(** [response.ok] *)
Definition ok (r : Response) : bool := (200 <=? status r) && (status r <=? 299).

Inductive fetched :=
| Responded (r : Response)
| Rejected (e : exn).

(** [signal.reason] of an aborted signal; [ReasonOther s] is a value that
    is neither an Error nor nullish, with [String(value) = s]. *)
Inductive reason :=
| ReasonError (e : exn)
| ReasonNullish
| ReasonOther (str : string).

(** The caller's [AbortSignal]: for each attempt, whether the signal is
    aborted (and with which reason) when that attempt's [catch] block
    examines it. *)
Definition AbortSignal := Z → option reason.

(** The upstream as one call of [fetchWithRetries] meets it: what the
    [attempt]-th request does, and whether the per-request timeout signal
    has fired when that attempt's [catch] block examines it. *)
Record attempt_env := {
  outcome : fetched;
  timeoutAborted : bool
}.
Definition upstream := Z → attempt_env.

Definition delay_after (attempt : Z) : Z := 200 * 2 ^ (attempt - 1).

Definition abortError (r : reason) : exn :=
  match r with
  | ReasonError e => e
  | ReasonNullish => Error "Aborted"
  | ReasonOther s => Error s
  end.

(** The statement after the loop. *)
Definition surface (url : string) (lastError : option exn) : result json :=
  match lastError with
  | Some e => Throw e
  | None => Throw (Error ("Failed to fetch URL " +:+ url +:+ ": undefined"))
  end.

Section Loop.
Variables (url : string) (externalSignal : option AbortSignal) (up : upstream).

(** The [catch] block of attempt [attempt]; [continue_] is the rest of
    the loop, entered after the back-off sleep. *)
Definition catch_block (attempt : Z) (error : exn)
    (continue_ : option exn → list effect * result json)
  : list effect * result json :=
  let timeoutSignal_aborted := timeoutAborted (up attempt) in
  let external_reason :=
    match externalSignal with
    | Some sig => sig attempt
    | None => None
    end in
  let external_aborted :=
    match external_reason with Some _ => true | None => false end in
  let signal_aborted :=
    match externalSignal with
    | Some _ => external_aborted || timeoutSignal_aborted
    | None => timeoutSignal_aborted
    end in
  match signal_aborted && external_aborted, external_reason with
  | true, Some r => ([], Throw (abortError r))
  | _, _ =>
      let lastError := Some error in
      if MAX_ATTEMPTS <=? attempt then ([], surface url lastError)
      else
        let delay := delay_after attempt in
        let '(effs, res) := continue_ lastError in
        (LogInfo "Retrying upstream request after error"
           [("attempt", FNum attempt); ("url", FStr url);
            ("delay", FNum delay); ("error", FStr (message error))]
           :: Sleep delay :: effs, res)
  end.

(** The [for] loop, from iteration [attempt] on, with [remaining]
    iterations left before the guard [attempt <= MAX_ATTEMPTS] fails. *)
Fixpoint attempts (remaining : nat) (attempt : Z) (lastError : option exn)
  : list effect * result json :=
  match remaining with
  | O => ([], surface url lastError)
  | S remaining' =>
      let next := attempts remaining' (attempt + 1) in
      let '(effs, res) :=
        match outcome (up attempt) with
        | Rejected error => catch_block attempt error next
        | Responded response =>
            if negb (ok response) then
              if bool_decide (status response ∈ RETRY_STATUS_CODES)
                 && (attempt <? MAX_ATTEMPTS)
              then
                let delay := delay_after attempt in
                let '(effs, res) := next lastError in
                (LogInfo "Retrying upstream request"
                   [("attempt", FNum attempt); ("status", FNum (status response));
                    ("url", FStr url); ("delay", FNum delay)]
                   :: Sleep delay :: effs, res)
              else
                match text response with
                | Ok body =>
                    catch_block attempt
                      (Error ("Request failed with status "
                                +:+ pretty (status response) +:+ ": " +:+ body))
                      next
                | Throw error => catch_block attempt error next
                end
            else
              match json_body response with
              | Ok v => ([], Ok v)
              | Throw error => catch_block attempt error next
              end
        end in
      (FetchCall url :: effs, res)
  end.

Definition fetchWithRetries : list effect * result json :=
  attempts (Z.to_nat MAX_ATTEMPTS) 1 None.
End Loop.

End Fetcher.

(** ** The two caches ([src/data.ts]) *)

Module CacheEntry.
Record t (T : Type) := mk {
  value : T;
  expiresAt : Z
}.
Arguments mk {T} value expiresAt.
Arguments value {T} _.
Arguments expiresAt {T} _.
End CacheEntry.

(** A promise is named by the number of the pending task that settles it. *)
Definition promise := nat.

Module AvailabilityCacheEntry.
Record t := mk {
  value : AvailabilityMap;
  expiresAt : Z;
  revalidatePromise : option promise
}.
End AvailabilityCacheEntry.

Module Cache.
Import Js Fetcher Normalizer.

(** Where a suspended call of [fetchWithRetries] stands. *)
Inductive progress :=
| NotStarted (e : exn)
    (** [buildUrl] threw: [refreshAvailability] was rejected before any
        request *)
| Requesting (url : string) (attempt : Z) (lastError : option exn)
    (** the request of iteration [attempt] is in flight *)
| Sleeping (url : string) (attempt : Z) (lastError : option exn).
    (** the back-off sleep of iteration [attempt] is running *)

(** A suspended computation: what it captured when it reached its [await]. *)
Inductive task :=
| Revalidation (cached : AvailabilityCacheEntry.t) (signal : option AbortSignal)
    (** the [.then(...).catch(...)] chain on a background refresh *)
| AvailabilityCall (now : Z) (cached : option AvailabilityCacheEntry.t)
    (signal : option AbortSignal)
    (** a caller of [getAvailability] inside the [try] block *)
| FacilitiesCall (now : Z) (url : string) (signal : option AbortSignal).
    (** a caller of [getFacilities] awaiting the fetcher *)

Definition signal_of (k : task) : option AbortSignal :=
  match k with
  | Revalidation _ signal | AvailabilityCall _ _ signal | FacilitiesCall _ _ signal =>
      signal
  end.

(** The module state: the two cache slots, the suspended computations,
    each with the place its request sequence has reached, and everything
    done to the outside world so far, in the order in which it was done. *)
Record state := mkState {
  facilityCache : option (CacheEntry.t (list FacilityMetadata.t));
  availabilityCache : option AvailabilityCacheEntry.t;
  pending : gmap promise (task * progress);
  next_promise : promise;
  effects : list effect
}.

Definition initial : state := mkState None None ∅ 0%nat [].

Definition suspend (k : task * progress) (st : state) : state * promise :=
  let p := next_promise st in
  (mkState (facilityCache st) (availabilityCache st) (<[p := k]> (pending st))
     (S p) (effects st), p).

Definition set_availability (e : option AvailabilityCacheEntry.t) (st : state) : state :=
  mkState (facilityCache st) e (pending st) (next_promise st) (effects st).

Definition set_facilities (e : option (CacheEntry.t (list FacilityMetadata.t)))
    (st : state) : state :=
  mkState e (availabilityCache st) (pending st) (next_promise st) (effects st).

Definition emit (effs : list effect) (st : state) : state :=
  mkState (facilityCache st) (availabilityCache st) (pending st) (next_promise st)
    (effects st ++ effs).

Definition forget (p : promise) (st : state) : state :=
  mkState (facilityCache st) (availabilityCache st) (delete p (pending st))
    (next_promise st) (effects st).

(** Task [p] goes on waiting, its request sequence now standing at [pr]. *)
Definition wait (p : promise) (k : task) (pr : progress) (st : state) : state :=
  mkState (facilityCache st) (availabilityCache st) (<[p := (k, pr)]> (pending st))
    (next_promise st) (effects st).

(** What a call has produced when control returns to the event loop. *)
Inductive call (A : Type) :=
| Returned (r : result A)
| Awaiting (p : promise).
Arguments Returned {A} r.
Arguments Awaiting {A} p.

(** What a turn of the event loop hands to the caller that awaited the
    task, if the task has ended and a caller awaits it. *)
Inductive delivery :=
| Nothing
| ToAvailabilityCaller (r : result AvailabilityResult.t)
| ToFacilitiesCaller (r : result (list FacilityMetadata.t)).

(** What one iteration of the loop of [fetchWithRetries] comes to once
    its request has settled: the function returns or throws, or it logs
    [entry] and sleeps before the next iteration. *)
Inductive iteration :=
| Done (r : result json)
| Retry (entry : effect) (lastError : option exn).

(** The [catch] block of iteration [attempt], the request of which met
    [env]. *)
Definition catch_iteration (url : string) (externalSignal : option AbortSignal)
    (env : attempt_env) (attempt : Z) (error : exn) : iteration :=
  let timeoutSignal_aborted := timeoutAborted env in
  let external_reason :=
    match externalSignal with
    | Some sig => sig attempt
    | None => None
    end in
  let external_aborted :=
    match external_reason with Some _ => true | None => false end in
  let signal_aborted :=
    match externalSignal with
    | Some _ => external_aborted || timeoutSignal_aborted
    | None => timeoutSignal_aborted
    end in
  match signal_aborted && external_aborted, external_reason with
  | true, Some r => Done (Throw (abortError r))
  | _, _ =>
      let lastError := Some error in
      if MAX_ATTEMPTS <=? attempt then Done (surface url lastError)
      else
        let delay := delay_after attempt in
        Retry (LogInfo "Retrying upstream request after error"
                 [("attempt", FNum attempt); ("url", FStr url);
                  ("delay", FNum delay); ("error", FStr (message error))])
          lastError
  end.

(** The body of the loop from the point where [fetch] settles. *)
Definition iterate (url : string) (externalSignal : option AbortSignal)
    (env : attempt_env) (attempt : Z) (lastError : option exn) : iteration :=
  match outcome env with
  | Rejected error => catch_iteration url externalSignal env attempt error
  | Responded response =>
      if negb (ok response) then
        if bool_decide (status response ∈ RETRY_STATUS_CODES)
           && (attempt <? MAX_ATTEMPTS)
        then
          let delay := delay_after attempt in
          Retry (LogInfo "Retrying upstream request"
                   [("attempt", FNum attempt); ("status", FNum (status response));
                    ("url", FStr url); ("delay", FNum delay)])
            lastError
        else
          match text response with
          | Ok body =>
              catch_iteration url externalSignal env attempt
                (Error ("Request failed with status "
                          +:+ pretty (status response) +:+ ": " +:+ body))
          | Throw error => catch_iteration url externalSignal env attempt error
          end
      else
        match json_body response with
        | Ok v => Done (Ok v)
        | Throw error => catch_iteration url externalSignal env attempt error
        end
  end.

Section WithRuntime.
Context `{Runtime}.
Variable config : ServiceConfig.t.

Definition buildUrl (baseUrl path : string) : result string :=
  match URL_href path baseUrl with
  | inr url => Ok url
  | inl error =>
      Throw (Error ("Failed to construct URL from base '" +:+ baseUrl
                      +:+ "' and path '" +:+ path +:+ "': " +:+ error))
  end.

(** [refreshAvailability], run to completion against [up]. *)
Definition refreshAvailability (signal : option AbortSignal) (up : upstream)
  : list effect * result AvailabilityMap :=
  match buildUrl (ServiceConfig.baseUrl config)
          (ServiceConfig.availabilityPath config) with
  | Throw e => ([], Throw e)
  | Ok url =>
      let '(effs, fetched) := fetchWithRetries url signal up in
      (effs,
       match fetched with
       | Throw e => Throw e
       | Ok (JArr rawData) => collectAvailability rawData ∅
       | Ok _ => Throw (Error "Availability response is not an array")
       end)
  end.

(** [fetchWithRetries] up to its first [await]: the loop is entered and
    the first request is sent before the call returns its promise. *)
Definition fetchWithRetries_start (url : string) (st : state) : state * progress :=
  (emit [FetchCall url] st, Requesting url 1 None).

(** [refreshAvailability] up to its first [await]. *)
Definition refreshAvailability_start (st : state) : state * progress :=
  match buildUrl (ServiceConfig.baseUrl config)
          (ServiceConfig.availabilityPath config) with
  | Throw e => (st, NotStarted e)
  | Ok url => fetchWithRetries_start url st
  end.

(** [refreshAvailability] from the point where [fetchWithRetries]
    settles. *)
Definition refreshAvailability_resume (fetched : result json)
  : result AvailabilityMap :=
  match fetched with
  | Throw e => Throw e
  | Ok (JArr rawData) => collectAvailability rawData ∅
  | Ok _ => Throw (Error "Availability response is not an array")
  end.

(** [getFacilities] up to its [await], or to its [return]. *)
Definition getFacilities (signal : option AbortSignal) (now : Z) (st : state)
  : state * call (list FacilityMetadata.t) :=
  let cached := facilityCache st in
  let live :=
    match cached with
    | Some c =>
        if now <? CacheEntry.expiresAt c then Some (CacheEntry.value c) else None
    | None => None
    end in
  match live with
  | Some value => (st, Returned (Ok value))
  | None =>
      match buildUrl (ServiceConfig.baseUrl config)
              (ServiceConfig.facilitiesPath config) with
      | Throw e => (st, Returned (Throw e))
      | Ok url =>
          let '(st, pr) := fetchWithRetries_start url st in
          let '(st, p) := suspend (FacilitiesCall now url signal, pr) st in
          (st, Awaiting p)
      end
  end.

(** [getFacilities] from the point where [fetchWithRetries] settles. *)
Definition getFacilities_resume (now : Z) (fetched : result json) (st : state)
  : state * result (list FacilityMetadata.t) :=
  match fetched with
  | Throw e => (st, Throw e)
  | Ok (JArr rawData) =>
      match normalizeFacilities rawData config with
      | Throw e => (st, Throw e)
      | Ok facilities =>
          let st := set_facilities
                      (Some (CacheEntry.mk facilities
                               (now + ServiceConfig.facilitiesTtlMs config))) st in
          let st := emit [LogInfo "Loaded facilities metadata"
                            [("count", FNum (Z.of_nat (length facilities)))]] st in
          (st, Ok facilities)
      end
  | Ok _ => (st, Throw (Error "Facilities response is not an array"))
  end.

(** [getAvailability] up to its first [await], or to its [return].  The
    refresh it starts has sent its first request when the call returns. *)
Definition getAvailability (signal : option AbortSignal) (now : Z) (st : state)
  : state * call AvailabilityResult.t :=
  let cached := availabilityCache st in
  match cached with
  | Some c =>
      if now <? AvailabilityCacheEntry.expiresAt c then
        (st, Returned (Ok (AvailabilityResult.mk (AvailabilityCacheEntry.value c) false)))
      else if bool_decide (is_Some (AvailabilityCacheEntry.revalidatePromise c)) then
        (st, Returned (Ok (AvailabilityResult.mk (AvailabilityCacheEntry.value c) true)))
      else if AvailabilityCacheEntry.expiresAt c <=? now then
        let '(st, pr) := refreshAvailability_start st in
        let '(st, revalidatePromise) := suspend (Revalidation c signal, pr) st in
        let st :=
          set_availability
            (Some (AvailabilityCacheEntry.mk (AvailabilityCacheEntry.value c)
                     (AvailabilityCacheEntry.expiresAt c) (Some revalidatePromise))) st in
        (st, Returned (Ok (AvailabilityResult.mk (AvailabilityCacheEntry.value c) true)))
      else
        let '(st, pr) := refreshAvailability_start st in
        let '(st, p) := suspend (AvailabilityCall now cached signal, pr) st in
        (st, Awaiting p)
  | None =>
      let '(st, pr) := refreshAvailability_start st in
      let '(st, p) := suspend (AvailabilityCall now cached signal, pr) st in
      (st, Awaiting p)
  end.

(** The [.then] and [.catch] handlers on the background refresh; [t] is
    [Date.now()] when the [.then] handler runs. *)
Definition revalidation_settled (cached : AvailabilityCacheEntry.t)
    (refreshed : result AvailabilityMap) (t : Z) (st : state) : state :=
  match refreshed with
  | Ok data =>
      set_availability
        (Some (AvailabilityCacheEntry.mk data
                 (t + ServiceConfig.availabilityTtlMs config) None)) st
  | Throw error =>
      let st := emit [LogError "Failed to refresh availability"
                        [("error", FStr (message error))]] st in
      match availabilityCache st with
      | Some e =>
          set_availability
            (Some (AvailabilityCacheEntry.mk (AvailabilityCacheEntry.value e)
                     (AvailabilityCacheEntry.expiresAt e) None)) st
      | None => st
      end
  end.

(** [getAvailability] from the [await] in its [try] block on. *)
Definition getAvailability_resume (now : Z) (cached : option AvailabilityCacheEntry.t)
    (refreshed : result AvailabilityMap) (st : state)
  : state * result AvailabilityResult.t :=
  match refreshed with
  | Ok fresh =>
      let st :=
        set_availability
          (Some (AvailabilityCacheEntry.mk fresh
                   (now + ServiceConfig.availabilityTtlMs config) None)) st in
      (st, Ok (AvailabilityResult.mk fresh false))
  | Throw error =>
      match cached with
      | Some c =>
          let st := emit [LogError "Falling back to stale availability cache"
                            [("error", FStr (message error))]] st in
          (st, Ok (AvailabilityResult.mk (AvailabilityCacheEntry.value c) true))
      | None => (st, Throw error)
      end
  end.

(** The request sequence of task [k] has settled with [fetched]: the
    code that awaited it runs; [t] is [Date.now()] at that moment. *)
Definition resume_task (k : task) (fetched : result json) (t : Z) (st : state)
  : state * delivery :=
  match k with
  | Revalidation cached signal =>
      (revalidation_settled cached (refreshAvailability_resume fetched) t st, Nothing)
  | AvailabilityCall now cached signal =>
      let '(st, r) :=
        getAvailability_resume now cached (refreshAvailability_resume fetched) st in
      (st, ToAvailabilityCaller r)
  | FacilitiesCall now url signal =>
      let '(st, r) := getFacilities_resume now fetched st in
      (st, ToFacilitiesCaller r)
  end.

(** The request that task [p] has in flight settles, having met [env]:
    the iteration goes on from its [await fetch(...)].  Either the
    sequence ends, and the code awaiting it runs, or the retry is logged
    and the back-off sleep begins. *)
Definition respond (p : promise) (env : attempt_env) (t : Z) (st : state)
  : state * delivery :=
  match pending st !! p with
  | Some (k, Requesting url attempt lastError) =>
      match iterate url (signal_of k) env attempt lastError with
      | Done fetched => resume_task k fetched t (forget p st)
      | Retry entry lastError =>
          (wait p k (Sleeping url attempt lastError)
             (emit [entry; Sleep (delay_after attempt)] st),
           Nothing)
      end
  | _ => (st, Nothing)
  end.

(** A promise that task [p] awaits settles without the upstream: its
    back-off sleep is over, and the loop sends the next request if its
    guard allows one; or the refresh could not start, and its rejection
    reaches the code awaiting it. *)
Definition resume (p : promise) (t : Z) (st : state) : state * delivery :=
  match pending st !! p with
  | Some (k, Sleeping url attempt lastError) =>
      let attempt := attempt + 1 in
      if attempt <=? MAX_ATTEMPTS then
        (wait p k (Requesting url attempt lastError) (emit [FetchCall url] st),
         Nothing)
      else resume_task k (surface url lastError) t (forget p st)
  | Some (k, NotStarted e) => resume_task k (Throw e) t (forget p st)
  | _ => (st, Nothing)
  end.

(** One turn of the event loop. *)
Inductive event :=
| CallAvailability (signal : option AbortSignal) (now : Z)
| CallFacilities (signal : option AbortSignal) (now : Z)
| Respond (p : promise) (env : attempt_env) (t : Z)
| Resume (p : promise) (t : Z).

Definition step (ev : event) (st : state) : state :=
  match ev with
  | CallAvailability signal now => fst (getAvailability signal now st)
  | CallFacilities signal now => fst (getFacilities signal now st)
  | Respond p env t => fst (respond p env t st)
  | Resume p t => fst (resume p t st)
  end.

Definition run (evs : list event) (st : state) : state :=
  fold_left (λ st ev, step ev st) evs st.

(** The turns task [p] still takes, one after the other with no other
    turn between them, when its requests meet upstream [up] and the
    clock reads [t]: the schedule on which what a call ends with is
    stated below.  [turns] bounds their number. *)
Definition turns (pr : progress) : nat :=
  match pr with
  | NotStarted _ => 1
  | Requesting _ attempt _ | Sleeping _ attempt _ =>
      S (2 * Z.to_nat (MAX_ATTEMPTS - attempt))
  end.

Fixpoint complete_within (n : nat) (p : promise) (up : upstream) (t : Z) (st : state)
  : state * delivery :=
  match n with
  | O => (st, Nothing)
  | S n' =>
      match pending st !! p with
      | None => (st, Nothing)
      | Some (_, pr) =>
          let '(st', d) :=
            match pr with
            | Requesting _ attempt _ => respond p (up attempt) t st
            | _ => resume p t st
            end in
          if bool_decide (is_Some (pending st' !! p))
          then complete_within n' p up t st'
          else (st', d)
      end
  end.

Definition complete (p : promise) (up : upstream) (t : Z) (st : state)
  : state * delivery :=
  match pending st !! p with
  | Some (_, pr) => complete_within (turns pr) p up t st
  | None => (st, Nothing)
  end.

(** What is left of a request sequence that stands at [pr], against
    [up]: what it still does to the outside world, and what
    [fetchWithRetries] settles with. *)
Definition remainder (signal : option AbortSignal) (up : upstream) (pr : progress)
  : list effect * result json :=
  match pr with
  | NotStarted e => ([], Throw e)
  | Requesting url attempt lastError =>
      let '(effs, fetched) :=
        attempts url signal up (S (Z.to_nat (MAX_ATTEMPTS - attempt))) attempt
          lastError in
      (tail effs, fetched)
  | Sleeping url attempt lastError =>
      attempts url signal up (Z.to_nat (MAX_ATTEMPTS - attempt)) (attempt + 1)
        lastError
  end.
End WithRuntime.

End Cache.

(** ** Ranking ([src/tool.ts]) *)

Module FacilityRecommendation.
(** [distanceMeters] is the result of [Math.round] and, like
    [freeSpaces], an integer by the tool's output schema; the comparator
    subtracts them, so both are integers here. *)
Record t := mk {
  id : string;
  name : string;
  lat : Js.number;
  lon : Js.number;
  freeSpaces : option Z;
  capacity : option Js.number;
  tariffNote : option string;
  zoneCode : option string;
  distanceMeters : Z;
  walkMinutes : Z;
  lastUpdated : option string;
  stale : bool;
  sourceUrl : string
}.
End FacilityRecommendation.

Module Tool.
Import FacilityRecommendation.

(** Arrays are mutable objects: a reference names a cell of the store. *)
Definition ref := nat.
Abbreviation store := (gmap ref (list FacilityRecommendation.t)).

(** The comparator passed to [sort]. *)
Definition compareRecommendations (a b : FacilityRecommendation.t) : Z :=
  if negb (distanceMeters a =? distanceMeters b) then
    distanceMeters a - distanceMeters b
  else
    let freeA := default (-1) (freeSpaces a) in
    let freeB := default (-1) (freeSpaces b) in
    freeB - freeA.

Section ArraySort.
Context {A : Type} (comparefn : A → A → Z).

(** [Array.prototype.sort] orders by the sign of [comparefn] and is
    stable: [x], which preceded every element of [sorted] in the array,
    stays before those it does not compare greater than.  For a
    consistent comparator the language fixes the outcome, and
    [sorted_order] computes it (see [stably_sorted] below). *)
Fixpoint insert_sorted (x : A) (sorted : list A) : list A :=
  match sorted with
  | [] => [x]
  | y :: rest =>
      if comparefn x y <=? 0 then x :: y :: rest
      else y :: insert_sorted x rest
  end.

Fixpoint sorted_order (l : list A) : list A :=
  match l with
  | [] => []
  | x :: rest => insert_sorted x (sorted_order rest)
  end.
End ArraySort.

(** A consistent comparator, as the language requires of the argument
    of [sort] for the order of the result to be defined. *)
Record consistent {A} (comparefn : A → A → Z) : Prop := {
  consistent_refl x : comparefn x x = 0;
  consistent_sym x y : comparefn x y = 0 → comparefn y x = 0;
  consistent_anti x y :
    comparefn x y ≤ 0 → comparefn y x ≤ 0 → comparefn x y = 0;
  consistent_total x y : comparefn x y ≤ 0 ∨ comparefn y x ≤ 0;
  consistent_trans x y z :
    comparefn x y ≤ 0 → comparefn y z ≤ 0 → comparefn x z ≤ 0;
  consistent_eq_trans x y z :
    comparefn x y = 0 → comparefn y z = 0 → comparefn x z = 0
}.

(** What the language promises of [l.sort(comparefn)]: [out] is in an
    order the comparator accepts, and the elements that compare equal to
    any given [x] are those of [l], in the order they had in [l]. *)
Definition stably_sorted {A} (comparefn : A → A → Z) (l out : list A) : Prop :=
  Sorted (λ x y, comparefn x y ≤ 0) out
  ∧ ∀ x, filter (λ y, comparefn x y = 0) out = filter (λ y, comparefn x y = 0) l.

(** [[...xs]]: a new array with the elements of [xs]. *)
Definition spread (xs : ref) (h : store) : store * ref :=
  let copy := fresh (dom h) in
  (<[copy := default [] (h !! xs)]> h, copy).

(** [xs.sort(comparefn)]: sorts the array in place and returns it. *)
Definition Array_sort (xs : ref) (comparefn : t → t → Z) (h : store) : store * ref :=
  (<[xs := sorted_order comparefn (default [] (h !! xs))]> h, xs).

Definition sortRecommendations (results : ref) (h : store) : store * ref :=
  let '(h, copy) := spread results h in
  Array_sort copy compareRecommendations h.

End Tool.

(** ** A runtime to evaluate examples with

    It agrees with the language runtime on the integer literals and the
    URLs the examples use; no general statement below depends on it. *)

Module Sample.
Import Js.

Fixpoint digits (s : string) (acc : Z) : option Z :=
  match s with
  | EmptyString => Some acc
  | String c rest =>
      let n := Z.of_nat (Ascii.nat_of_ascii c) - 48 in
      if (0 <=? n) && (n <=? 9) then digits rest (10 * acc + n) else None
  end.

Definition integerLiteral (s : string) : number :=
  match s with
  | EmptyString => Finite 0
  | String "-"%char (String _ _ as rest) =>
      match digits rest 0 with Some n => Finite (inject_Z (- n)) | None => NaN end
  | _ => match digits s 0 with Some n => Finite (inject_Z n) | None => NaN end
  end.

Definition integerToString (n : number) : string :=
  match n with
  | NaN => "NaN"
  | Infinity false => "Infinity"
  | Infinity true => "-Infinity"
  | Finite x => pretty (Qnum x / Zpos (Qden x))
  end.

Definition joinUrl (path base : string) : string + string :=
  match base with
  | EmptyString => inl "TypeError: Invalid URL"
  | _ => inr (base +:+ path)
  end.

Definition runtime : Runtime := Build_Runtime integerLiteral integerToString joinUrl.

Definition config : ServiceConfig.t :=
  ServiceConfig.mk 3000 "https://api.stockholmparkering.se" "/facilities"
    "/availability" 3000 30000 86400000 8000.

(** Facility records as the upstream may send them. *)
Definition facility (id : json) (coordinates : list (string * json)) : json :=
  JObj ([("id", id); ("name", JStr "Gallerian")] ++ coordinates).

Definition slussen : json :=
  JObj [("Id", JNum (Finite 7)); ("SiteName", JStr "Slussen");
        ("position", JObj [("Lat", JNum (Finite 59)); ("lon", JStr "18")])].

Definition no_latitude : json :=
  facility (JStr "p1") [("lon", JNum (Finite 18))].

Definition empty_array_id : json :=
  facility (JArr []) [("lat", JNum (Finite 59)); ("lon", JNum (Finite 18))].

Definition null_latitude : json :=
  facility (JStr "p2") [("Latitude", JNull); ("lon", JNum (Finite 18))].

Definition shadowed_toString : json := JObj [("toString", JNum (Finite 1))].

(** An upstream that answers every request with [status] and [body]. *)
Definition answers (status : Z) (body : string) : Fetcher.upstream :=
  λ _, Fetcher.Build_attempt_env
         (Fetcher.Responded (Fetcher.Build_Response status (Ok body) (Ok (JStr body))))
         false.

(** An upstream that answers every request with 200 and the JSON [body]. *)
Definition sends (body : json) : Fetcher.upstream :=
  λ _, Fetcher.Build_attempt_env
         (Fetcher.Responded (Fetcher.Build_Response 200 (Ok "") (Ok body)))
         false.

(** An upstream whose first two requests time out and whose third is
    answered with 200 and the JSON [body]. *)
Definition sends_at_last (body : json) : Fetcher.upstream :=
  λ attempt,
    if attempt <? 3 then
      Fetcher.Build_attempt_env
        (Fetcher.Rejected (Error "The operation was aborted due to timeout")) true
    else sends body attempt.

Definition availability (id : string) (free : Z) : json :=
  JArr [JObj [("id", JStr id); ("freeSpaces", JNum (Finite (inject_Z free)))]].

(** A short availability TTL: 5 s, with 3 s per request. *)
Definition short_ttl : ServiceConfig.t :=
  ServiceConfig.mk 3000 "https://api.stockholmparkering.se" "/facilities"
    "/availability" 3000 5000 86400000 20000.



(** The snapshot with [free] free spaces at facility [id]. *)
Definition snapshot (id : string) (free : Z) : AvailabilityMap :=
  <[id := FacilityAvailability.mk id (Some (Finite (inject_Z free))) None None]> ∅.

(** A cold start, an expiry, two calls during the refresh, its success. *)
Definition swr_cycle : list Cache.event :=
  [Cache.CallAvailability None 0;
   Cache.Respond 0%nat (sends (availability "p1" 12) 1) 100;
   Cache.CallAvailability None 5500;
   Cache.CallAvailability None 5600;
   Cache.Respond 1%nat (sends (availability "p1" 11) 1) 6000].

(** A slot whose entry expired at 100 and is not being refreshed. *)
Definition expired_idle : Cache.state :=
  Cache.mkState None (Some (AvailabilityCacheEntry.mk ∅ 100 None)) ∅ 0%nat [].


Definition recommendation (id : string) (distanceMeters : Z) (freeSpaces : option Z)
  : FacilityRecommendation.t :=
  FacilityRecommendation.mk id "Facility" (Finite 0) (Finite 0) freeSpaces None None
    None distanceMeters 0 None false "https://example.com".

Definition equal_distance : list FacilityRecommendation.t :=
  [recommendation "a" 100 (Some 2); recommendation "b" 100 (Some 5);
   recommendation "c" 100 None].

End Sample.

(** ** Vocabulary of the specification

    Definitions that follow the words of the specification rather than
    the source; the properties below compare the program with them. *)

Module Spec.

(** "Primary key distance ascending; tie-break free spaces descending,
    with null treated as [-1]": [a] may stand before [b]. *)
Definition ranks_before (a b : FacilityRecommendation.t) : Prop :=
  FacilityRecommendation.distanceMeters a < FacilityRecommendation.distanceMeters b
  ∨ (FacilityRecommendation.distanceMeters a = FacilityRecommendation.distanceMeters b
     ∧ default (-1) (FacilityRecommendation.freeSpaces b)
       ≤ default (-1) (FacilityRecommendation.freeSpaces a)).

(** "An explicit ordered list of candidate field names per logical
    attribute, tried in priority order." *)
Definition id_names : list string := ["id"; "Id"; "facilityId"; "FacilityId"].
Definition name_names : list string := ["name"; "Name"; "siteName"; "SiteName"].
Definition position_names : list string := ["position"; "Position"].
Definition lat_names : list string := ["lat"; "latitude"; "Latitude"].
Definition lat_nested_names : list string := ["lat"; "Lat"; "latitude"; "Latitude"].
Definition lon_names : list string := ["lon"; "longitude"; "Longitude"].
Definition lon_nested_names : list string := ["lon"; "Lon"; "longitude"; "Longitude"].

(** The value under the first of [names] that holds something other than
    [null]. *)
Fixpoint first_present (raw : Js.json) (names : list string) : option Js.json :=
  match names with
  | [] => None
  | k :: rest =>
      match Js.get raw k with
      | None | Some Js.JNull => first_present raw rest
      | Some v => Some v
      end
  end.

(** The source writes the same list as a chain [raw.k1 ?? raw.k2 ?? ...]. *)
Fixpoint coalesce_chain (raw : Js.json) (names : list string) : option Js.json :=
  match names with
  | [] => None
  | [k] => Js.get raw k
  | k :: rest => Js.coalesce (Js.get raw k) (coalesce_chain raw rest)
  end.

(** A coordinate is looked for on the record first, then "nested under a
    position sub-object". *)
Definition coordinate (raw : Js.json) (names nested_names : list string)
  : option Js.json :=
  match first_present raw names with
  | Some v => Some v
  | None =>
      match first_present raw position_names with
      | Some p => if Js.isObject p then first_present p nested_names else None
      | None => None
      end
  end.

(** The source's way to the same value: the chain on the record and,
    when that is [undefined] and [position] is an object, the chain on
    the position sub-object. *)
Definition coordinate_value (raw : Js.json) (names nested_names : list string)
  : option Js.json :=
  let positionValue := coalesce_chain raw position_names in
  let positionRecord :=
    match positionValue with
    | Some p => if Js.isObject p then Some p else None
    | None => None
    end in
  let value := coalesce_chain raw names in
  match value, positionRecord with
  | None, Some p => coalesce_chain p nested_names
  | _, _ => value
  end.

Definition latitude (raw : Js.json) : option Js.json :=
  coordinate raw lat_names lat_nested_names.
Definition longitude (raw : Js.json) : option Js.json :=
  coordinate raw lon_names lon_nested_names.

(** No coordinate is spelled out as [null] under the last of its names,
    on the record or in its position sub-object. *)
Definition no_null_coordinate (raw : Js.json) : Prop :=
  Js.get raw "Latitude" ≠ Some Js.JNull
  ∧ Js.get raw "Longitude" ≠ Some Js.JNull
  ∧ ∀ p, first_present raw position_names = Some p →
         Js.get p "Latitude" ≠ Some Js.JNull
         ∧ Js.get p "Longitude" ≠ Some Js.JNull.

(** "Cannot be resolved to a non-empty string / finite number". *)
Definition nonempty_string `{Js.Runtime} (v : option Js.json) : Prop :=
  match v with
  | Some j => ∃ s, Js.ToString j = Ok s ∧ s ≠ ""
  | None => False
  end.

Definition finite_number `{Js.Runtime} (v : option Js.json) : Prop :=
  match v with
  | Some j => ∃ n, Js.Number_ (Some j) = Ok n ∧ Js.isFinite n = true
  | None => False
  end.

Definition unresolved `{Js.Runtime} (raw : Js.json) : Prop :=
  ¬ nonempty_string (first_present raw id_names)
  ∨ ¬ nonempty_string (first_present raw name_names)
  ∨ ¬ finite_number (latitude raw)
  ∨ ¬ finite_number (longitude raw).

(** No object with an own ["toString"] property, at any depth of
    arrays: the values whose conversion to a primitive cannot throw. *)
Fixpoint plain (v : Js.json) : bool :=
  match v with
  | Js.JArr items => forallb plain items
  | Js.JObj props => negb (Js.has_own "toString" props)
  | _ => true
  end.

Definition plain_value (v : option Js.json) : Prop :=
  match v with Some j => plain j = true | None => True end.

Definition plain_fields (raw : Js.json) : Prop :=
  ∀ k v, Js.get raw k = Some v → plain v = true.

Definition plain_record (raw : Js.json) : Prop :=
  plain_fields raw
  ∧ ∀ p, first_present raw position_names = Some p → plain_fields p.

(** When a facility record is dropped. *)
Definition dropped `{Js.Runtime} (raw : Js.json) : Prop :=
  Js.ToBoolean (first_present raw id_names) = false
  ∨ Js.ToBoolean (first_present raw name_names) = false
  ∨ latitude raw = None
  ∨ longitude raw = None
  ∨ ∃ lat lon,
      Js.Number_ (latitude raw) = Ok lat
      ∧ Js.Number_ (longitude raw) = Ok lon
      ∧ (Js.isFinite lat = false ∨ Js.isFinite lon = false).

(** "Normalizes the array skipping every record that fails
    normalization": the records of the items that normalize to one. *)
Definition kept_facilities `{Js.Runtime} (rawData : list Js.json)
    (config : ServiceConfig.t) : list FacilityMetadata.t :=
  omap (λ item,
          match Normalizer.normalizeFacilityMetadata item config with
          | Ok (Some facility) => Some facility
          | _ => None
          end) rawData.

(** How a refresh of the facility cache ends, given what the fetcher
    returned: what the caller receives and what the slot holds after. *)
Inductive facilities_refresh `{Js.Runtime} (config : ServiceConfig.t) (now : Z)
    (fetched : result Js.json)
    (before : option (CacheEntry.t (list FacilityMetadata.t)))
  : result (list FacilityMetadata.t)
    → option (CacheEntry.t (list FacilityMetadata.t)) → Prop :=
| refresh_fetch_failed e :
    fetched = Throw e →
    facilities_refresh config now fetched before (Throw e) before
| refresh_not_an_array v :
    fetched = Ok v →
    (∀ rawData, v ≠ Js.JArr rawData) →
    facilities_refresh config now fetched before
      (Throw (Error "Facilities response is not an array")) before
| refresh_stored rawData :
    fetched = Ok (Js.JArr rawData) →
    Forall (λ item, is_Ok (Normalizer.normalizeFacilityMetadata item config) = true)
      rawData →
    facilities_refresh config now fetched before
      (Ok (kept_facilities rawData config))
      (Some (CacheEntry.mk (kept_facilities rawData config)
               (now + ServiceConfig.facilitiesTtlMs config)))
| refresh_normalizer_threw rawData item e :
    fetched = Ok (Js.JArr rawData) →
    item ∈ rawData →
    Normalizer.normalizeFacilityMetadata item config = Throw e →
    facilities_refresh config now fetched before (Throw e) before.

(** The availability entry [c] marked with the in-flight handle [p], and
    the same entry without a handle. *)
Definition marked (c : AvailabilityCacheEntry.t) (p : promise)
  : AvailabilityCacheEntry.t :=
  AvailabilityCacheEntry.mk (AvailabilityCacheEntry.value c)
    (AvailabilityCacheEntry.expiresAt c) (Some p).

Definition unmarked (c : AvailabilityCacheEntry.t) : AvailabilityCacheEntry.t :=
  AvailabilityCacheEntry.mk (AvailabilityCacheEntry.value c)
    (AvailabilityCacheEntry.expiresAt c) None.

Definition stale_result (c : AvailabilityCacheEntry.t) : AvailabilityResult.t :=
  AvailabilityResult.mk (AvailabilityCacheEntry.value c) true.

Definition fresh_result (c : AvailabilityCacheEntry.t) : AvailabilityResult.t :=
  AvailabilityResult.mk (AvailabilityCacheEntry.value c) false.

(** Promise numbers are handed out in order: none in use is still to come. *)
Definition well_formed (st : Cache.state) : Prop :=
  ∀ p, is_Some (Cache.pending st !! p) → (p < Cache.next_promise st)%nat.







(** The requests and back-off sleeps among the effects of a fetch. *)
Definition is_request_or_sleep (e : effect) : bool :=
  match e with FetchCall _ | Sleep _ => true | _ => false end.

Definition requests_and_sleeps (effs : list effect) : list effect :=
  filter (λ e, is_request_or_sleep e = true) effs.

(** "Delay before attempt n+1 is 200ms * 2^(n-1)": the requests and sleeps
    of [n] attempts, the first of them being attempt number [attempt]. *)
Fixpoint schedule (url : string) (n : nat) (attempt : Z) : list effect :=
  match n with
  | O => []
  | S O => [FetchCall url]
  | S n' =>
      FetchCall url :: Sleep (200 * 2 ^ (attempt - 1))
        :: schedule url n' (attempt + 1)
  end.

(** An attempt fails unless a 2xx response arrives and its body parses. *)
Definition succeeds (a : Fetcher.attempt_env) : bool :=
  match Fetcher.outcome a with
  | Fetcher.Responded r => Fetcher.ok r && is_Ok (Fetcher.json_body r)
  | Fetcher.Rejected _ => false
  end.

(** The error of a failed attempt: the rejection of the request or of the
    body read, or, for a non-2xx response whose body was read, an Error
    carrying the status and the body. *)
Inductive error_of (a : Fetcher.attempt_env) : exn → Prop :=
| error_rejected e :
    Fetcher.outcome a = Fetcher.Rejected e → error_of a e
| error_status r body :
    Fetcher.outcome a = Fetcher.Responded r →
    Fetcher.ok r = false →
    Fetcher.text r = Ok body →
    error_of a (Error ("Request failed with status " +:+ pretty (Fetcher.status r)
                         +:+ ": " +:+ body))
| error_body_unreadable r e :
    Fetcher.outcome a = Fetcher.Responded r →
    Fetcher.ok r = false →
    Fetcher.text r = Throw e →
    error_of a e
| error_body_unparsable r e :
    Fetcher.outcome a = Fetcher.Responded r →
    Fetcher.ok r = true →
    Fetcher.json_body r = Throw e →
    error_of a e.

(** The caller's signal is never found aborted. *)
Definition never_aborted (signal : option Fetcher.AbortSignal) : Prop :=
  match signal with
  | Some sig => ∀ attempt, sig attempt = None
  | None => True
  end.

End Spec.

(** * The rest of the program

    The tool method that calls the two caches and ranks what they return
    ([src/tool.ts]), the distance helper it uses ([src/geo.ts]), the
    configuration it is started with ([src/config.ts]) and the HTTP server
    in front of it ([src/index.ts]).

    Further conventions.
    - A [Buffer] is a list of bytes; a string holds the UTF-8 encoding of
      its characters, so that its length in bytes is its [String.length].
    - The calls of the logger by the tool and by the server carry
      booleans and reports of the validator; their payloads are kept as
      JSON ([log_call]). *)

(** ** Comparison and subtraction of numbers *)

Module Num.
Import Js.

Definition of_Z (n : Z) : number := Finite (inject_Z n).

(** [a <= b] *)
Definition le (a b : number) : bool :=
  match a, b with
  | NaN, _ | _, NaN => false
  | Infinity true, _ => true
  | _, Infinity false => true
  | Infinity false, _ => false
  | _, Infinity true => false
  | Finite x, Finite y => Qle_bool x y
  end.

(** [a === b] *)
Definition strict_eq (a b : number) : bool :=
  match a, b with
  | Infinity s, Infinity s' => Bool.eqb s s'
  | Finite x, Finite y => Qeq_bool x y
  | _, _ => false
  end.

(** [a - b].  The difference of two finite doubles is rounded, and is an
    infinity when it overflows; its sign is that of the exact difference,
    and the sign is all that is read from it below. *)
Definition sub (a b : number) : number :=
  match a, b with
  | NaN, _ | _, NaN => NaN
  | Infinity s, Infinity s' => if Bool.eqb s s' then NaN else Infinity s
  | Infinity s, Finite _ => Infinity s
  | Finite _, Infinity s => Infinity (negb s)
  | Finite x, Finite y => Finite (x - y)
  end.

(** What [Array.prototype.sort] reads from the value [v] its comparator
    returns: whether [v < 0], [v > 0] or neither ([NaN] counts as [0]). *)
Definition sign (v : number) : Z :=
  match v with
  | NaN => 0
  | Infinity true => -1
  | Infinity false => 1
  | Finite x => Z.sgn (Qnum x)
  end.

(** The integer nearest to [n / d], for [0 < d]; of two that are equally
    near, the even one. *)
Definition nearest_even (n d : Z) : Z :=
  let q := n / d in
  match 2 * (n mod d) ?= d with
  | Lt => q
  | Gt => q + 1
  | Eq => if Z.even q then q else q + 1
  end.

(** The integer part of the binary logarithm of [n / d], for [0 < n] and
    [0 < d]. *)
Definition binary_exponent (n d : Z) : Z :=
  let k := Z.log2 n - Z.log2 d in
  let reached := if 0 <=? k then d * 2 ^ k <=? n else d <=? n * 2 ^ (- k) in
  if reached then k else k - 1.

(** The double nearest to [n / d], for [0 < n] and [0 < d]: a
    significand of 53 bits (fewer below [2^-1022], where the exponent
    stays at its least), ties to the even significand, and [Infinity]
    from [2^1024] on. *)
Definition round_positive (n d : Z) : number :=
  let e := Z.max (binary_exponent n d - 52) (-1074) in
  let m := if 0 <=? e then nearest_even n (d * 2 ^ e)
           else nearest_even (n * 2 ^ (- e)) d in
  let rounded := if 0 <=? e then inject_Z (m * 2 ^ e)
                 else Qmake m (Z.to_pos (2 ^ (- e))) in
  if Qle_bool (inject_Z (2 ^ 1024)) rounded then Infinity false
  else Finite rounded.

(** The double an arithmetic operation returns when its exact result is
    [x]: round to nearest, ties to even. *)
Definition round (x : Q) : number :=
  match Qnum x with
  | 0 => Finite 0
  | Zpos n => round_positive (Zpos n) (Zpos (Qden x))
  | Zneg n =>
      match round_positive (Zpos n) (Zpos (Qden x)) with
      | Finite y => Finite (- y)
      | Infinity _ => Infinity true
      | NaN => NaN
      end
  end.

(** [a / b] for a divisor [b] that is finite and not [0]. *)
Definition div (a : number) (b : Q) : number :=
  match a with
  | NaN => NaN
  | Infinity s => Infinity (xorb s (Qle_bool b 0))
  | Finite x => round (x / b)
  end.

End Num.

(** ** Distance helpers ([src/geo.ts]) *)

Module Geo.
Import Js.

Definition WALKING_SPEED_METERS_PER_MINUTE : Q := 80.

(** [Math.max(0, Math.ceil(distanceMeters / 80))].  The quotient is the
    double nearest to the exact one; [Math.ceil] of a double is exact.
    [Math.max] returns [NaN] when an argument is [NaN], and [0] for [-0]
    and for every negative number. *)
Definition estimateWalkMinutes (distanceMeters : number) : number :=
  match Num.div distanceMeters WALKING_SPEED_METERS_PER_MINUTE with
  | NaN => NaN
  | Infinity true => Finite 0
  | Infinity false => Infinity false
  | Finite quotient => Finite (inject_Z (Z.max 0 (Qceiling quotient)))
  end.

End Geo.

(** ** The tool method ([src/tool.ts]) *)

Module RecommendFacilityArgs.
(** [radiusMeters] and [maxResults] are integers by the input schema, which
    is checked before the arguments are read. *)
Record t := mk {
  userLat : Js.number;
  userLon : Js.number;
  destinationLat : option Js.number;
  destinationLon : option Js.number;
  radiusMeters : option Z;
  maxResults : option Z
}.
End RecommendFacilityArgs.

(** [Required<RecommendFacilityArgs>] *)
Module RequiredArgs.
Record t := mk {
  userLat : Js.number;
  userLon : Js.number;
  destinationLat : Js.number;
  destinationLon : Js.number;
  radiusMeters : Z;
  maxResults : Z
}.
End RequiredArgs.

(** A [FacilityRecommendation] as [recommendFacility] builds it.  Its
    number fields hold what the distance computation and the upstream
    produced, whatever that is: the output schema is only checked on the
    finished list. *)
Module Enriched.
Record t := mk {
  id : string;
  name : string;
  lat : Js.number;
  lon : Js.number;
  freeSpaces : option Js.number;
  capacity : option Js.number;
  tariffNote : option string;
  zoneCode : option string;
  distanceMeters : Js.number;
  walkMinutes : Js.number;
  lastUpdated : option string;
  stale : bool;
  sourceUrl : string
}.
End Enriched.

(** A call of the logger by the tool or by the server: the message and
    the payload object. *)
Inductive log_call :=
| Log_info (message : string) (payload : list (string * Js.json))
| Log_error (message : string) (payload : list (string * Js.json)).

Module ParkingTool.
Import Js Fetcher Cache.

Definition DEFAULT_RADIUS : Z := 1500.
Definition DEFAULT_MAX_RESULTS : Z := 5.

Definition normalizeArgs (args : RecommendFacilityArgs.t) : RequiredArgs.t :=
  RequiredArgs.mk
    (RecommendFacilityArgs.userLat args)
    (RecommendFacilityArgs.userLon args)
    (default (RecommendFacilityArgs.userLat args)
       (RecommendFacilityArgs.destinationLat args))
    (default (RecommendFacilityArgs.userLon args)
       (RecommendFacilityArgs.destinationLon args))
    (default DEFAULT_RADIUS (RecommendFacilityArgs.radiusMeters args))
    (default DEFAULT_MAX_RESULTS (RecommendFacilityArgs.maxResults args)).

(** The comparator of [sortRecommendations], on what the tool passes to
    it. *)
Definition compare (a b : Enriched.t) : number :=
  if negb (Num.strict_eq (Enriched.distanceMeters a) (Enriched.distanceMeters b)) then
    Num.sub (Enriched.distanceMeters a) (Enriched.distanceMeters b)
  else
    let freeA := default (Num.of_Z (-1)) (Enriched.freeSpaces a) in
    let freeB := default (Num.of_Z (-1)) (Enriched.freeSpaces b) in
    Num.sub freeB freeA.

(** [[...results].sort(compare)] on the list the method builds.  The copy
    is the only array the sort touches, and nothing else refers to the
    argument here: the list is the array that is returned. *)
Definition sortRecommendations (results : list Enriched.t) : list Enriched.t :=
  Tool.sorted_order (λ a b, Num.sign (compare a b)) results.

(** [results.slice(0, end)] *)
Definition slice_to {A} (results : list A) (end_ : Z) : list A :=
  let len := Z.of_nat (length results) in
  let final := if end_ <? 0 then Z.max (len + end_) 0 else Z.min end_ len in
  take (Z.to_nat final) results.

Definition enforceMaxResults {A} (results : list A) (limit : Z) : list A :=
  if Z.of_nat (length results) <=? limit then results
  else slice_to results limit.

Section Method.
(** [haversineDistanceMeters] of [src/geo.ts] rounds a product of
    trigonometric functions of doubles; the method is parametric in it,
    and in the two compiled validators.  [validateInput] answers with its
    error report or with the arguments it has accepted, [validateOutput]
    with its error report when the list violates the output schema. *)
Variable haversineDistanceMeters : number → number → number → number → number.
Variable validateInput : json → json + RecommendFacilityArgs.t.
Variable validateOutput : list Enriched.t → option json.

(** The function mapped over [facilities]. *)
Definition enrich (targetLat targetLon : number)
    (availabilityResult : AvailabilityResult.t) (facility : FacilityMetadata.t)
  : Enriched.t :=
  let availability :=
    AvailabilityResult.data availabilityResult !! FacilityMetadata.id facility in
  let capacity :=
    match availability ≫= FacilityAvailability.capacity with
    | Some c => Some c
    | None => FacilityMetadata.capacity facility
    end in
  let freeSpaces := availability ≫= FacilityAvailability.freeSpaces in
  let lastUpdated := availability ≫= FacilityAvailability.lastUpdated in
  let distanceMeters :=
    haversineDistanceMeters targetLat targetLon
      (FacilityMetadata.lat facility) (FacilityMetadata.lon facility) in
  let walkMinutes := Geo.estimateWalkMinutes distanceMeters in
  Enriched.mk (FacilityMetadata.id facility) (FacilityMetadata.name facility)
    (FacilityMetadata.lat facility) (FacilityMetadata.lon facility)
    freeSpaces capacity
    (FacilityMetadata.tariffNote facility) (FacilityMetadata.zoneCode facility)
    distanceMeters walkMinutes lastUpdated
    (AvailabilityResult.stale availabilityResult)
    (FacilityMetadata.sourceUrl facility).

(** [recommendFacility] from the point where [Promise.all] has handed it
    the facilities and the availability. *)
Definition recommendFacility_resume (args : RecommendFacilityArgs.t)
    (facilities : list FacilityMetadata.t) (availabilityResult : AvailabilityResult.t)
  : list log_call * result (list Enriched.t) :=
  let args := normalizeArgs args in
  (* [args.destinationLat ?? args.userLat]: [normalizeArgs] has filled the
     field, the fallback never applies *)
  let targetLat := RequiredArgs.destinationLat args in
  let targetLon := RequiredArgs.destinationLon args in
  let enriched :=
    filter (λ facility,
              Num.le (Enriched.distanceMeters facility)
                (Num.of_Z (RequiredArgs.radiusMeters args)) = true)
      (map (enrich targetLat targetLon availabilityResult) facilities) in
  let sorted := sortRecommendations enriched in
  let limited := enforceMaxResults sorted (RequiredArgs.maxResults args) in
  match validateOutput limited with
  | Some errors =>
      ([Log_error "Output validation failed" [("errors", errors)]],
       Throw (Error "Internal output validation failed"))
  | None =>
      ([Log_info "Generated facility recommendations"
          [("count", JNum (Num.of_Z (Z.of_nat (length limited))));
           ("staleAvailability", JBool (AvailabilityResult.stale availabilityResult))]],
       Ok limited)
  end.

Context `{Runtime}.
Variable config : ServiceConfig.t.

(** The signal of [overallController]: aborted, with the Error
    ['Operation timed out'] as reason, once the overall timer has fired.
    [fired attempt] tells whether it has when the [attempt]-th request of a
    fetch sequence is examined. *)
Definition overallSignal (fired : Z → bool) : AbortSignal :=
  λ attempt, if fired attempt then Some (ReasonError (Error "Operation timed out"))
             else None.

(** The two calls in the array passed to [Promise.all], each run to its
    first [await] or to its [return]; [now] and [now'] are what
    [Date.now()] answers in [getFacilities] and in [getAvailability]. *)
Definition recommendFacility_calls (firedFacilities firedAvailability : Z → bool)
    (now now' : Z) (st : state)
  : state * call (list FacilityMetadata.t) * call AvailabilityResult.t :=
  let '(st, facilities) :=
    getFacilities config (Some (overallSignal firedFacilities)) now st in
  let '(st, availabilityResult) :=
    getAvailability config (Some (overallSignal firedAvailability)) now' st in
  (st, facilities, availabilityResult).

(** What the method has produced when control returns to the event loop.
    Invalid input is rejected before anything is called (the report is
    logged; the [details] property of the Error is not kept).
    [Promise.all] rejects as soon as one of the two calls has, and
    fulfils when both have: when neither call had to wait for the
    upstream the method's result is known, otherwise nothing is yet. *)
Definition recommendFacility (rawArgs : json)
    (firedFacilities firedAvailability : Z → bool) (now now' : Z) (st : state)
  : state * option (list log_call * result (list Enriched.t)) :=
  match validateInput rawArgs with
  | inl errors =>
      (st, Some ([Log_error "Input validation failed" [("errors", errors)]],
                 Throw (Error "Invalid input")))
  | inr args =>
      let '(st, facilities, availabilityResult) :=
        recommendFacility_calls firedFacilities firedAvailability now now' st in
      (st,
       match facilities, availabilityResult with
       | Returned (Throw e), _ => Some ([], Throw e)
       | _, Returned (Throw e) => Some ([], Throw e)
       | Returned (Ok f), Returned (Ok a) => Some (recommendFacility_resume args f a)
       | _, _ => None
       end)
  end.
End Method.

End ParkingTool.

(** ** Environment parsing ([src/config.ts]) *)

Module Config.

Definition DEFAULT_PORT : Z := 3000.
Definition DEFAULT_BASE_URL : string := "https://api.stockholmparkering.se".
Definition DEFAULT_FACILITIES_PATH : string := "/facilities".
Definition DEFAULT_AVAILABILITY_PATH : string := "/availability".
Definition DEFAULT_REQUEST_TIMEOUT : Z := 3000.
Definition DEFAULT_AVAILABILITY_TTL : Z := 60 * 1000.
Definition DEFAULT_FACILITIES_TTL : Z := 24 * 60 * 60 * 1000.
Definition DEFAULT_OVERALL_TIMEOUT : Z := 8000.

Section WithRuntime.
(** Two functions of the language runtime.  [parseInt10 s] is
    [Number.parseInt(s, 10)] when that is finite - it is an integer then -
    and [None] when it is [NaN] or infinite; [trim] is
    [String.prototype.trim]. *)
Variable parseInt10 : string → option Z.
Variable trim : string → string.

Definition parseInteger (value : option string) (fallback : Z) : Z :=
  match value with
  | None => fallback
  | Some v =>
      if (String.length v =? 0)%nat then fallback
      else
        match parseInt10 v with
        | Some parsed => parsed
        | None => fallback
        end
  end.

(** [value?.trim() || fallback] *)
Definition trimmed_or (value : option string) (fallback : string) : string :=
  match value with
  | None => fallback
  | Some v => let s := trim v in if (String.length s =? 0)%nat then fallback else s
  end.

(** [env] is [process.env]. *)
Definition loadConfig (env : gmap string string) : ServiceConfig.t :=
  let port := parseInteger (env !! "PORT") DEFAULT_PORT in
  let requestTimeoutMs :=
    parseInteger (env !! "REQUEST_TIMEOUT_MS") DEFAULT_REQUEST_TIMEOUT in
  let overallTimeoutMs := DEFAULT_OVERALL_TIMEOUT in
  let baseUrl := trimmed_or (env !! "SP_BASE_URL") DEFAULT_BASE_URL in
  let facilitiesPath :=
    trimmed_or (env !! "SP_FACILITIES_PATH") DEFAULT_FACILITIES_PATH in
  let availabilityPath :=
    trimmed_or (env !! "SP_AVAILABILITY_PATH") DEFAULT_AVAILABILITY_PATH in
  ServiceConfig.mk port baseUrl facilitiesPath availabilityPath requestTimeoutMs
    DEFAULT_AVAILABILITY_TTL DEFAULT_FACILITIES_TTL overallTimeoutMs.
End WithRuntime.

End Config.

(** ** The HTTP server ([src/index.ts]) *)

(** A value caught by the server's [catch] block: an [Error] instance
    with its [name], [message] and [details] properties, or something
    else, of which [String(...)] is taken. *)
Module Thrown.
Inductive t :=
| ErrorObject (name message : string) (details : option Js.json)
| Other (str : string).
End Thrown.

Module Server.
Import Js.

(** The payloads handed to [sendJson]: [{ status: 'ok' }], the tool's
    result, and [{ error, details }], from which [JSON.stringify] leaves
    an undefined [details] out. *)
Inductive payload :=
| StatusOk
| Recommendations (result : list Enriched.t)
| Failure (error : string) (details : option json).

Record Response := {
  statusCode : Z;
  headers : list (string * string);
  body : string
}.

(** [req.method] and [req.url] *)
Record IncomingMessage := {
  method : option string;
  url : option string
}.

(** What the request stream emits; a chunk is a [Buffer]. *)
Inductive stream_event :=
| Data (chunk : list Byte.byte)
| StreamError (error : Thrown.t)
| End_.

Definition LIMIT : Z := 1024 * 64.

(** The state of [parseRequestBody]: its two local variables, what the
    promise has been settled with, if it has been, and whether
    [req.destroy()] has been called, which tears down the connection the
    response would be written to. *)
Record reader := {
  chunks : list (list Byte.byte);
  total : Z;
  settled : option (Thrown.t + json);
  destroyed : bool
}.

(** [resolve] and [reject] settle the promise once; later calls do
    nothing. *)
Definition settle (outcome : Thrown.t + json) (rd : reader) : reader :=
  match settled rd with
  | Some _ => rd
  | None =>
      {| chunks := chunks rd; total := total rd; settled := Some outcome;
         destroyed := destroyed rd |}
  end.

(** [req.destroy()] *)
Definition destroy (rd : reader) : reader :=
  {| chunks := chunks rd; total := total rd; settled := settled rd;
     destroyed := true |}.

(** What the request handler has done when it is left: what it logged,
    the response it wrote, if any, and whether the request had been
    destroyed by then. *)
Record handled := {
  logged : list log_call;
  written : option Response;
  requestDestroyed : bool
}.

Section WithRuntime.
(** Functions of the platform: [Buffer.prototype.toString('utf-8')] on
    the bytes received, [JSON.parse], which answers with the value or with
    the message of its SyntaxError, [JSON.stringify], and the tool method
    as the server awaits it. *)
Variable utf8_decode : list Byte.byte → string.
Variable JSON_parse : string → string + json.
Variable JSON_stringify : payload → string.
Variable recommendFacility : json → Thrown.t + list Enriched.t.

Definition sendJson (statusCode : Z) (payload : payload) : Response :=
  let body := JSON_stringify payload in
  {| statusCode := statusCode;
     headers := [("Content-Type", "application/json; charset=utf-8");
                 ("Content-Length", pretty (String.length body))];
     body := body |}.

(** The three listeners of [parseRequestBody]. *)
Definition on_data (chunk : list Byte.byte) (rd : reader) : reader :=
  let total := total rd + Z.of_nat (length chunk) in
  if LIMIT <? total then
    destroy
      (settle (inl (Thrown.ErrorObject "Error" "Payload too large" None))
         {| chunks := chunks rd; total := total; settled := settled rd;
            destroyed := destroyed rd |})
  else
    {| chunks := chunks rd ++ [chunk]; total := total; settled := settled rd;
       destroyed := destroyed rd |}.

Definition on_error (error : Thrown.t) (rd : reader) : reader :=
  settle (inl error) rd.

Definition on_end (rd : reader) : reader :=
  let decoded := utf8_decode (concat (chunks rd)) in
  let raw := if (String.length decoded =? 0)%nat then "{}" else decoded in
  match JSON_parse raw with
  | inr value => settle (inr value) rd
  | inl message => settle (inl (Thrown.ErrorObject "SyntaxError" message None)) rd
  end.

Definition listen (ev : stream_event) (rd : reader) : reader :=
  match ev with
  | Data chunk => on_data chunk rd
  | StreamError error => on_error error rd
  | End_ => on_end rd
  end.

Definition start : reader :=
  {| chunks := []; total := 0; settled := None; destroyed := false |}.

(** The promise of [parseRequestBody] after the stream has emitted
    [events]: [None] while it is pending. *)
Definition parseRequestBody (events : list stream_event) : option (Thrown.t + json) :=
  settled (fold_left (λ rd ev, listen ev rd) events start).

(** The reader at the moment the promise settles, which is when the code
    awaiting it goes on: the listeners have run on [events] up to the
    event that settled the promise. *)
Fixpoint until_settled (events : list stream_event) (rd : reader) : reader :=
  match events with
  | [] => rd
  | ev :: rest =>
      let rd := listen ev rd in
      match settled rd with
      | Some _ => rd
      | None => until_settled rest rd
      end
  end.

(** The [catch] block of the request handler. *)
Definition respond (error : Thrown.t) : list log_call * Response :=
  let unhandled (message : string) :=
    ([Log_error "Unhandled server error" [("error", JStr message)]],
     sendJson 500 (Failure "Internal server error" None)) in
  match error with
  | Thrown.ErrorObject name message details =>
      if String.eqb message "Invalid input" then
        ([], sendJson 400 (Failure message details))
      else if String.eqb message "Payload too large" then
        ([], sendJson 413 (Failure message None))
      else if String.eqb name "AbortError" then
        ([], sendJson 504 (Failure "Request timed out" None))
      else unhandled message
  | Thrown.Other str => unhandled str
  end.

(** The request handler, given what the request stream emits.  Nothing
    is written while the handler waits for the body.  A response written
    after [req.destroy()] goes to a connection that has been torn down. *)
Definition handler (req : IncomingMessage) (events : list stream_event) : handled :=
  let equals (expected : string) (actual : option string) : bool :=
    match actual with Some s => String.eqb s expected | None => false end in
  let startsWith (prefix : string) (actual : option string) : bool :=
    match actual with Some s => String.prefix prefix s | None => false end in
  if equals "GET" (method req) && startsWith "/healthz" (url req) then
    {| logged := []; written := Some (sendJson 200 StatusOk);
       requestDestroyed := false |}
  else if equals "POST" (method req) && equals "/recommendFacility" (url req) then
    let rd := until_settled events start in
    match settled rd with
    | None => {| logged := []; written := None; requestDestroyed := destroyed rd |}
    | Some (inl error) =>
        let '(logs, res) := respond error in
        {| logged := logs; written := Some res; requestDestroyed := destroyed rd |}
    | Some (inr payload) =>
        match recommendFacility payload with
        | inl error =>
            let '(logs, res) := respond error in
            {| logged := logs; written := Some res;
               requestDestroyed := destroyed rd |}
        | inr result =>
            {| logged := []; written := Some (sendJson 200 (Recommendations result));
               requestDestroyed := destroyed rd |}
        end
    end
  else
    {| logged := []; written := Some (sendJson 404 (Failure "Not found" None));
       requestDestroyed := false |}.
End WithRuntime.

End Server.

(** ** Notions used to state the further properties *)

Module Notions.
Import Js.

(** *** The fetcher *)

(** Every attempt before the [k]-th fails, and the caller's signal is not
    aborted when its [catch] block looks. *)
Definition quiet_before (externalSignal : option Fetcher.AbortSignal)
    (up : Fetcher.upstream) (k : Z) : Prop :=
  ∀ j, 1 ≤ j < k →
    Spec.succeeds (up j) = false
    ∧ ∀ sig, externalSignal = Some sig → sig j = None.

Definition is_log_error (e : effect) : bool :=
  match e with LogError _ _ => true | _ => false end.

(** *** The normalizers *)

Definition finite_or_null (n : option number) : Prop :=
  ∀ x, n = Some x → isFinite x = true.

Definition nonempty_or_null (s : option string) : Prop := s ≠ Some "".

Definition facility_ok (f : FacilityMetadata.t) : Prop :=
  isFinite (FacilityMetadata.lat f) = true
  ∧ isFinite (FacilityMetadata.lon f) = true
  ∧ finite_or_null (FacilityMetadata.capacity f)
  ∧ nonempty_or_null (FacilityMetadata.tariffNote f)
  ∧ nonempty_or_null (FacilityMetadata.zoneCode f).

Definition availability_ok (a : FacilityAvailability.t) : Prop :=
  finite_or_null (FacilityAvailability.freeSpaces a)
  ∧ finite_or_null (FacilityAvailability.capacity a)
  ∧ nonempty_or_null (FacilityAvailability.lastUpdated a).

(** The records the items of an availability response normalize to, in
    the order of the response. *)
Definition availability_records `{Runtime} (rawData : list json)
  : list FacilityAvailability.t :=
  omap (λ item,
          match Normalizer.normalizeAvailability item with
          | Ok (Some a) => Some a
          | _ => None
          end) rawData.

(** Those of [records] that carry the id [k]. *)
Definition with_id (k : string) (records : list FacilityAvailability.t)
  : list FacilityAvailability.t :=
  filter (λ a, FacilityAvailability.id a = k) records.

(** [records] stored one after the other under their ids. *)
Definition store_all (records : list FacilityAvailability.t) (m : AvailabilityMap)
  : AvailabilityMap :=
  foldl (λ m a, <[FacilityAvailability.id a := a]> m) m records.

(** *** The caches *)

(** What a refresh has done when the call that started it returns: the
    request it has sent, and where it stands. *)
Definition refresh_request `{Runtime} (config : ServiceConfig.t) : list effect :=
  match Cache.buildUrl (ServiceConfig.baseUrl config)
          (ServiceConfig.availabilityPath config) with
  | Ok url => [FetchCall url]
  | Throw _ => []
  end.

Definition refresh_started `{Runtime} (config : ServiceConfig.t) : Cache.progress :=
  match Cache.buildUrl (ServiceConfig.baseUrl config)
          (ServiceConfig.availabilityPath config) with
  | Ok url => Cache.Requesting url 1 None
  | Throw e => Cache.NotStarted e
  end.

(** What [refreshAvailability] resolves to when its request sequence,
    standing at [pr], goes on against [up]. *)
Definition refreshed `{Runtime} (signal : option Fetcher.AbortSignal)
    (up : Fetcher.upstream) (pr : Cache.progress) : result AvailabilityMap :=
  Cache.refreshAvailability_resume (Cache.remainder signal up pr).2.

(** How many turns a request sequence that stands at [pr] still takes
    at most. *)
Definition turns_needed (pr : Cache.progress) : nat :=
  match pr with
  | Cache.NotStarted _ => 1
  | Cache.Requesting _ attempt _ =>
      S (2 * Z.to_nat (Fetcher.MAX_ATTEMPTS - attempt))
  | Cache.Sleeping _ attempt _ =>
      Nat.max 1 (2 * Z.to_nat (Fetcher.MAX_ATTEMPTS - attempt))
  end.

(** The state a call of [getAvailability] leaves when it has started a
    background refresh for the expired entry [c]: the refresh waits under
    the next promise number, its first request sent, and the entry
    carries its handle. *)
Definition revalidating `{Runtime} (config : ServiceConfig.t)
    (signal : option Fetcher.AbortSignal) (c : AvailabilityCacheEntry.t)
    (st : Cache.state) : Cache.state :=
  Cache.mkState (Cache.facilityCache st)
    (Some (Spec.marked c (Cache.next_promise st)))
    (<[Cache.next_promise st := (Cache.Revalidation c signal, refresh_started config)]>
       (Cache.pending st))
    (S (Cache.next_promise st)) (Cache.effects st ++ refresh_request config).

(** The state a call of [getAvailability] leaves when it found the slot
    empty and waits for its own fetch. *)
Definition fetching_availability `{Runtime} (config : ServiceConfig.t)
    (signal : option Fetcher.AbortSignal) (now : Z) (st : Cache.state)
  : Cache.state :=
  Cache.mkState (Cache.facilityCache st) (Cache.availabilityCache st)
    (<[Cache.next_promise st :=
         (Cache.AvailabilityCall now None signal, refresh_started config)]>
       (Cache.pending st))
    (S (Cache.next_promise st)) (Cache.effects st ++ refresh_request config).

(** The state a call of [getFacilities] leaves when it waits for the
    fetcher. *)
Definition fetching_facilities (signal : option Fetcher.AbortSignal) (now : Z)
    (url : string) (st : Cache.state) : Cache.state :=
  Cache.mkState (Cache.facilityCache st) (Cache.availabilityCache st)
    (<[Cache.next_promise st :=
         (Cache.FacilitiesCall now url signal, Cache.Requesting url 1 None)]>
       (Cache.pending st))
    (S (Cache.next_promise st)) (Cache.effects st ++ [FetchCall url]).

(** What a turn of the event loop does for task [p]: it leaves the state
    as it is, or the task goes on waiting after a retry was logged or a
    request sent, or its request sequence ends and the code that awaited
    it runs. *)
Inductive turn `{Runtime} (config : ServiceConfig.t) (p : promise) (st : Cache.state)
  : Cache.state * Cache.delivery → Prop :=
| turn_idle : turn config p st (st, Cache.Nothing)
| turn_waits k pr pr' effs :
    Cache.pending st !! p = Some (k, pr) →
    Forall (λ e, is_log_error e = false) effs →
    turn config p st (Cache.wait p k pr' (Cache.emit effs st), Cache.Nothing)
| turn_ends k pr fetched t :
    Cache.pending st !! p = Some (k, pr) →
    turn config p st (Cache.resume_task config k fetched t (Cache.forget p st)).

(** Every record of a snapshot is stored under its own id and holds
    finite numbers and non-empty strings, or [null]. *)
Definition snapshot_ok (m : AvailabilityMap) : Prop :=
  ∀ k a, m !! k = Some a → FacilityAvailability.id a = k ∧ availability_ok a.

Definition caches_sound (st : Cache.state) : Prop :=
  (∀ c, Cache.facilityCache st = Some c → Forall facility_ok (CacheEntry.value c))
  ∧ (∀ c, Cache.availabilityCache st = Some c →
          snapshot_ok (AvailabilityCacheEntry.value c)).

(** The log entry of the [catch] block at the end of [getAvailability]. *)
Definition fell_back (e : effect) : Prop :=
  ∃ fields, e = LogError "Falling back to stale availability cache" fields.

(** The callers waiting in the [try] block of [getAvailability] found the
    slot empty. *)
Definition cold_callers_saw_nothing (st : Cache.state) : Prop :=
  ∀ p now cached signal pr,
    Cache.pending st !! p = Some (Cache.AvailabilityCall now cached signal, pr) →
    cached = None.

Definition no_fallback (st : Cache.state) : Prop :=
  cold_callers_saw_nothing st ∧ Forall (λ e, ¬ fell_back e) (Cache.effects st).

(** *** The tool method *)

(** [a.freeSpaces ?? -1] *)
Definition free (r : Enriched.t) : number :=
  default (Num.of_Z (-1)) (Enriched.freeSpaces r).

(** Nearer first; at equal distance, more free spaces first. *)
Definition ranks_first (a b : Enriched.t) : Prop :=
  if Num.strict_eq (Enriched.distanceMeters a) (Enriched.distanceMeters b)
  then Num.le (free b) (free a) = true
  else Num.le (Enriched.distanceMeters a) (Enriched.distanceMeters b) = true.

(** The comparator puts [a] before [b], or leaves their order to the
    sort. *)
Definition before (a b : Enriched.t) : Prop :=
  Num.sign (ParkingTool.compare a b) ≤ 0.

(** The records on which the comparator is consistent. *)
Definition rankable (r : Enriched.t) : Prop :=
  Enriched.distanceMeters r ≠ NaN ∧ finite_or_null (Enriched.freeSpaces r).

Definition within (radius : Z) (r : Enriched.t) : Prop :=
  Num.le (Enriched.distanceMeters r) (Num.of_Z radius) = true.

(** The enriched facilities that pass the radius filter, in the order of
    [facilities]. *)
Definition candidates
    (haversineDistanceMeters : number → number → number → number → number)
    (args : RecommendFacilityArgs.t)
    (facilities : list FacilityMetadata.t) (availabilityResult : AvailabilityResult.t)
  : list Enriched.t :=
  let args := ParkingTool.normalizeArgs args in
  filter (λ r, Num.le (Enriched.distanceMeters r)
                 (Num.of_Z (RequiredArgs.radiusMeters args)) = true)
    (map (ParkingTool.enrich haversineDistanceMeters
            (RequiredArgs.destinationLat args)
            (RequiredArgs.destinationLon args) availabilityResult) facilities).

(** A recommendation of the ranking model above, whose distance and free
    spaces are integers, as the record the tool method sorts. *)
Definition embed (r : FacilityRecommendation.t) : Enriched.t :=
  Enriched.mk (FacilityRecommendation.id r) (FacilityRecommendation.name r)
    (FacilityRecommendation.lat r) (FacilityRecommendation.lon r)
    (Num.of_Z <$> FacilityRecommendation.freeSpaces r)
    (FacilityRecommendation.capacity r)
    (FacilityRecommendation.tariffNote r) (FacilityRecommendation.zoneCode r)
    (Num.of_Z (FacilityRecommendation.distanceMeters r))
    (Num.of_Z (FacilityRecommendation.walkMinutes r))
    (FacilityRecommendation.lastUpdated r) (FacilityRecommendation.stale r)
    (FacilityRecommendation.sourceUrl r).

(** The recommendations that rank equal to [x]. *)
Definition tied (x : FacilityRecommendation.t) (l : list FacilityRecommendation.t)
  : list FacilityRecommendation.t :=
  filter (λ y, Tool.compareRecommendations x y = 0) l.

(** *** The server *)

Definition too_large : Thrown.t + json :=
  inl (Thrown.ErrorObject "Error" "Payload too large" None).

(** What the [end] listener settles the promise with when the request
    body is [body]. *)
Definition parsed (utf8_decode : list Byte.byte → string)
    (JSON_parse : string → string + json) (body : list Byte.byte)
  : Thrown.t + json :=
  let decoded := utf8_decode body in
  match JSON_parse (if (String.length decoded =? 0)%nat then "{}" else decoded) with
  | inr value => inr value
  | inl message => inl (Thrown.ErrorObject "SyntaxError" message None)
  end.

End Notions.

(** ** Values to evaluate the further properties on *)

Module Fixture.
Import Js.

(** An upstream whose every request is rejected. *)
Definition rejects : Fetcher.upstream :=
  λ _, Fetcher.Build_attempt_env
         (Fetcher.Rejected (Error "This operation was aborted")) false.

(** The overall timer has fired. *)
Definition timed_out : Fetcher.AbortSignal := ParkingTool.overallSignal (λ _, true).

(** An availability response that names facility [p1] twice, around an
    item that is no object. *)
Definition twice : json :=
  JArr [JObj [("id", JStr "p1"); ("freeSpaces", JNum (Finite 3))];
        JNum (Finite 7);
        JObj [("Id", JStr "p1"); ("vacant", JNum (Finite 5))]].

Definition p1_free_5 : FacilityAvailability.t :=
  FacilityAvailability.mk "p1" (Some (Finite 5)) None None.

Definition slussen : FacilityMetadata.t :=
  FacilityMetadata.mk "7" "Slussen" (Finite 59) (Finite 18) None None None
    "https://api.stockholmparkering.se/facilities".

Definition facility (id : string) (lat : Z) : FacilityMetadata.t :=
  FacilityMetadata.mk id "Facility" (Num.of_Z lat) (Finite 18) None None None
    "https://example.com".

(** A caller of [getFacilities] waiting for the fetcher. *)
Definition loading : Cache.state :=
  (Cache.getFacilities (H := Sample.runtime) Sample.config None 0 Cache.initial).1.

(** A facility slot whose entry expired at 100. *)
Definition expired_facilities : Cache.state :=
  Cache.mkState (Some (CacheEntry.mk [slussen] 100)) None ∅ 0%nat [].

(** A caller of [getAvailability] waiting on the empty slot. *)
Definition cold : Cache.state :=
  (Cache.getAvailability (H := Sample.runtime) Sample.short_ttl None 0
     Cache.initial).1.

(** Both slots filled: the facilities live until 1000, the availability
    expired at 100. *)
Definition warm : Cache.state :=
  Cache.mkState
    (Some (CacheEntry.mk [facility "a" 300; facility "b" 100; facility "c" 9000] 1000))
    (Some (AvailabilityCacheEntry.mk {["b" := FacilityAvailability.mk "b" (Some (Finite 4)) None None]}
             100 None))
    ∅ 0%nat [].

(** A stand-in for the distance: the facility's latitude, taken as
    metres. *)
Definition distance (targetLat targetLon lat lon : number) : number := lat.

Definition args : RecommendFacilityArgs.t :=
  RecommendFacilityArgs.mk (Finite 59) (Finite 18) None None None (Some 2).

(** Validators that accept what they are given. *)
Definition accept_input (rawArgs : json) : json + RecommendFacilityArgs.t :=
  inr args.

Definition accept_output (limited : list Enriched.t) : option json := None.

Definition availabilityResult : AvailabilityResult.t :=
  AvailabilityResult.mk
    {["b" := FacilityAvailability.mk "b" (Some (Finite 4)) None None]} true.

Definition enriched (id : string) (lat : Z) (freeSpaces : option number)
  : Enriched.t :=
  Enriched.mk id "Facility" (Num.of_Z lat) (Finite 18) freeSpaces None None None
    (Num.of_Z lat) (Geo.estimateWalkMinutes (Num.of_Z lat)) None true
    "https://example.com".

Definition bytes (s : string) : list Byte.byte := String.list_byte_of_string s.

(** A decoder and a parser that know one body. *)
Definition decode (body : list Byte.byte) : string := String.string_of_list_byte body.

Definition parse (raw : string) : string + json :=
  if String.eqb raw "{}" then inr (JObj [])
  else inl "Unexpected token".

Definition stringify (p : Server.payload) : string :=
  match p with
  | Server.StatusOk => "ok"
  | Server.Recommendations _ => "[]"
  | Server.Failure error _ => error
  end.

Definition tool (payload : json) : Thrown.t + list Enriched.t := inr [].

End Fixture.


(** * Properties *)

(** ** Ranking *)

Module Ranking.
Import FacilityRecommendation Tool Spec.

Lemma compare_ranks a b : compareRecommendations a b ≤ 0 ↔ ranks_before a b.
Proof.
  unfold compareRecommendations, ranks_before.
  destruct (Z.eqb_spec (distanceMeters a) (distanceMeters b)); simpl; lia.
Qed.

Global Instance ranks_before_trans : Transitive ranks_before.
Proof. intros a b c. unfold ranks_before. lia. Qed.

Lemma ranks_before_total a b : ranks_before a b ∨ ranks_before b a.
Proof. unfold ranks_before. lia. Qed.

Section InsertionSort.
Context {A : Type} (comparefn : A → A → Z).
Let R (x y : A) : Prop := comparefn x y ≤ 0.
Hypothesis total : ∀ x y, R x y ∨ R y x.

Lemma insert_sorted_perm x l : insert_sorted comparefn x l ≡ₚ x :: l.
Proof using Type.
  induction l as [|y l IH]; simpl; [done|].
  destruct (comparefn x y <=? 0); [done|].
  rewrite IH. apply perm_swap.
Qed.

Lemma sorted_order_perm l : sorted_order comparefn l ≡ₚ l.
Proof using Type.
  induction l as [|x l IH]; simpl; [done|].
  by rewrite insert_sorted_perm, IH.
Qed.

Lemma insert_sorted_HdRel z x l :
  R z x → HdRel R z l → HdRel R z (insert_sorted comparefn x l).
Proof using Type.
  intros Hzx Hl. destruct l as [|y l]; simpl.
  - by constructor.
  - destruct (comparefn x y <=? 0); constructor; [done|].
    by inversion Hl.
Qed.

Lemma insert_sorted_Sorted x l :
  Sorted R l → Sorted R (insert_sorted comparefn x l).
Proof using total.
  induction 1 as [|y l Hl IH Hy]; simpl.
  - repeat constructor.
  - destruct (Z.leb_spec (comparefn x y) 0) as [Hxy|Hxy].
    + constructor; [by constructor|]. by constructor.
    + constructor; [done|].
      apply insert_sorted_HdRel; [|done].
      destruct (total x y) as [?|?]; [unfold R in *; lia|done].
Qed.

Lemma sorted_order_Sorted l : Sorted R (sorted_order comparefn l).
Proof using total.
  induction l; simpl; [constructor|by apply insert_sorted_Sorted].
Qed.
End InsertionSort.

Lemma Sorted_weaken {A} (R1 R2 : relation A) l :
  (∀ x y, R1 x y → R2 x y) → Sorted R1 l → Sorted R2 l.
Proof.
  intros HR. induction 1 as [|x l _ IH Hx]; constructor; [done|].
  destruct Hx; constructor; auto.
Qed.

(** [sorted_order] is the stable order, and no other list is. *)
Section StableSort.
Context {A : Type} (comparefn : A → A → Z) (Hc : consistent comparefn).
#[local] Abbreviation below := (λ x y, comparefn x y ≤ 0).
#[local] Abbreviation tied x := (λ y, comparefn x y = 0).

Lemma insert_sorted_stable x a s :
  filter (tied x) (insert_sorted comparefn a s) = filter (tied x) (a :: s).
Proof using Hc.
  induction s as [|y s IH]; [done|]. cbn [insert_sorted].
  destruct (Z.leb_spec (comparefn a y) 0) as [Hle|Hgt]; [done|].
  rewrite (filter_cons _ y), IH, !filter_cons.
  destruct (decide (comparefn x y = 0)) as [Hy|Hy],
           (decide (comparefn x a = 0)) as [Ha|Ha]; try done.
  exfalso.
  pose proof (consistent_eq_trans _ Hc _ _ _ (consistent_sym _ Hc _ _ Ha) Hy).
  lia.
Qed.

Lemma sorted_order_stable x l :
  filter (tied x) (sorted_order comparefn l) = filter (tied x) l.
Proof using Hc.
  induction l as [|a l IH]; [done|]. cbn [sorted_order].
  by rewrite insert_sorted_stable, !filter_cons, IH.
Qed.

Lemma stably_sorted_unique l1 l2 :
  Sorted below l1 → Sorted below l2 →
  (∀ x, filter (tied x) l1 = filter (tied x) l2) →
  l1 = l2.
Proof using Hc.
  assert (Transitive below) as HT.
  { intros x y z. apply (consistent_trans _ Hc). }
  intros H1%Sorted_StronglySorted H2%Sorted_StronglySorted; [|done..].
  revert l2 H2. induction H1 as [|a l1 Hl1 IH Ha]; intros l2 H2 Hf.
  - destruct l2 as [|b l2]; [done|].
    specialize (Hf b). rewrite filter_cons in Hf.
    rewrite decide_True in Hf by apply (consistent_refl _ Hc). done.
  - destruct H2 as [|b l2 Hl2 Hb].
    { specialize (Hf a). rewrite filter_cons in Hf.
      rewrite decide_True in Hf by apply (consistent_refl _ Hc). done. }
    assert (a ∈ b :: l2) as Hin_a.
    { assert (a ∈ filter (tied a) (b :: l2)) as Hin.
      { rewrite <- Hf, filter_cons, decide_True
          by apply (consistent_refl _ Hc).
        left. }
      apply list_elem_of_filter in Hin. tauto. }
    assert (b ∈ a :: l1) as Hin_b.
    { assert (b ∈ filter (tied b) (a :: l1)) as Hin.
      { rewrite Hf, filter_cons, decide_True by apply (consistent_refl _ Hc).
        left. }
      apply list_elem_of_filter in Hin. tauto. }
    assert (comparefn a b = 0) as Hab.
    { apply (consistent_anti _ Hc).
      - apply elem_of_cons in Hin_b as [->|Hin];
          [by rewrite (consistent_refl _ Hc)|].
        by apply (Forall_forall (below a) l1).
      - apply elem_of_cons in Hin_a as [->|Hin];
          [by rewrite (consistent_refl _ Hc)|].
        by apply (Forall_forall (below b) l2). }
    assert (a = b) as <-.
    { specialize (Hf a). rewrite !filter_cons in Hf.
      rewrite decide_True in Hf by apply (consistent_refl _ Hc).
      rewrite decide_True in Hf by done. by simplify_eq. }
    f_equal. apply IH; [done|]. intros x. specialize (Hf x).
    rewrite !filter_cons in Hf.
    by destruct (decide (comparefn x a = 0)); simplify_eq.
Qed.

Lemma sorted_order_canonical l out :
  stably_sorted comparefn l out ↔ out = sorted_order comparefn l.
Proof using Hc.
  split.
  - intros [Hsorted Hstable]. apply stably_sorted_unique; [done| |].
    + apply sorted_order_Sorted, (consistent_total _ Hc).
    + intros x. by rewrite Hstable, sorted_order_stable.
  - intros ->. split.
    + apply sorted_order_Sorted, (consistent_total _ Hc).
    + intros x. apply sorted_order_stable.
Qed.
End StableSort.

Lemma compareRecommendations_consistent : consistent compareRecommendations.
Proof.
  split; intros; unfold compareRecommendations in *;
    repeat match goal with
    | H : context [Z.eqb ?x ?y] |- _ => destruct (Z.eqb_spec x y)
    | |- context [Z.eqb ?x ?y] => destruct (Z.eqb_spec x y)
    end; simpl in *; lia.
Qed.

(** The array [sort] leaves is the one the language prescribes. *)
Lemma Array_sort_stably_sorted (h : store) (xs : ref) l out :
  h !! xs = Some l →
  stably_sorted compareRecommendations l out
  ↔ (Array_sort xs compareRecommendations h).1 !! xs = Some out.
Proof.
  intros Hl. unfold Array_sort. simpl. rewrite lookup_insert_eq, Hl. simpl.
  rewrite (sorted_order_canonical _ compareRecommendations_consistent).
  split; [by intros ->|congruence].
Qed.

Lemma sorted_order_ranked l :
  StronglySorted ranks_before (sorted_order compareRecommendations l).
Proof.
  apply Sorted_StronglySorted; [apply _|].
  eapply Sorted_weaken; [|apply (sorted_order_Sorted compareRecommendations)].
  - intros a b. apply compare_ranks.
  - intros a b. rewrite !compare_ranks. apply ranks_before_total.
Qed.

(** What [sortRecommendations] does to the store. *)
Lemma sortRecommendations_store h results :
  let copy := fresh (dom h) in
  sortRecommendations results h
  = (<[copy := sorted_order compareRecommendations (default [] (h !! results))]> h,
     copy)
  ∧ h !! copy = None.
Proof.
  simpl. split.
  - unfold sortRecommendations, spread, Array_sort.
    by rewrite lookup_insert_eq, insert_insert_eq.
  - apply not_elem_of_dom, is_fresh.
Qed.

Lemma sorted_order_equal_distance (a b c : FacilityRecommendation.t) :
  distanceMeters a = distanceMeters b →
  distanceMeters b = distanceMeters c →
  freeSpaces a = Some 2 → freeSpaces b = Some 5 → freeSpaces c = None →
  sorted_order compareRecommendations [a; b; c] = [b; a; c].
Proof.
  intros Hab Hbc Ha Hb Hc.
  assert (compareRecommendations b c = -6) as Hbc'.
  { unfold compareRecommendations. by rewrite Hbc, Hb, Hc, Z.eqb_refl. }
  assert (compareRecommendations a b = 3) as Hab'.
  { unfold compareRecommendations. by rewrite Hab, Ha, Hb, Z.eqb_refl. }
  assert (compareRecommendations a c = -3) as Hac'.
  { unfold compareRecommendations. by rewrite Hab, Hbc, Ha, Hc, Z.eqb_refl. }
  cbn [sorted_order insert_sorted]. rewrite Hbc'.
  cbn [Z.leb Z.compare insert_sorted]. rewrite Hab'.
  cbn [Z.leb Z.compare insert_sorted]. rewrite Hac'. reflexivity.
Qed.

(** C9. [sortRecommendations] returns an array holding the elements of its
    argument ordered by [distanceMeters] ascending, ties broken by
    [freeSpaces] descending with [null] counted as [-1]; three records at
    one distance with free spaces 2, 5 and [null] come out second, first,
    third. *)
Theorem sortRecommendations_order :
  (∀ (h : store) (results : ref) (l : list FacilityRecommendation.t),
     h !! results = Some l →
     ∃ (h' : store) (sorted : ref) (out : list FacilityRecommendation.t),
       sortRecommendations results h = (h', sorted)
       ∧ h' !! sorted = Some out
       ∧ out ≡ₚ l
       ∧ StronglySorted ranks_before out)
  ∧ (∀ (h : store) (results : ref) (a b c : FacilityRecommendation.t),
       h !! results = Some [a; b; c] →
       distanceMeters a = distanceMeters b →
       distanceMeters b = distanceMeters c →
       freeSpaces a = Some 2 → freeSpaces b = Some 5 → freeSpaces c = None →
       ∃ (h' : store) (sorted : ref),
         sortRecommendations results h = (h', sorted)
         ∧ h' !! sorted = Some [b; a; c]).
Proof.
  split.
  - intros h results l Hl.
    destruct (sortRecommendations_store h results) as [-> _].
    eexists _, _, _. split; [done|]. rewrite lookup_insert_eq, Hl. simpl.
    split; [done|]. split; [apply sorted_order_perm|apply sorted_order_ranked].
  - intros h results a b c Hl Hab Hbc Ha Hb Hc.
    destruct (sortRecommendations_store h results) as [-> _].
    eexists _, _. split; [done|]. rewrite lookup_insert_eq, Hl.
    f_equal. by apply sorted_order_equal_distance.
Qed.

Lemma sortRecommendations_order_witness :
  ∃ (h' : store) (sorted : ref),
    sortRecommendations 0%nat {[0%nat := Sample.equal_distance]} = (h', sorted)
    ∧ h' !! sorted
      = Some [Sample.recommendation "b" 100 (Some 5);
              Sample.recommendation "a" 100 (Some 2);
              Sample.recommendation "c" 100 None].
Proof.
  apply (proj2 sortRecommendations_order {[0%nat := Sample.equal_distance]} 0%nat
           (Sample.recommendation "a" 100 (Some 2))
           (Sample.recommendation "b" 100 (Some 5))
           (Sample.recommendation "c" 100 None));
    reflexivity.
Defined.

(** C10. The array [sortRecommendations] returns is a new one and a
    permutation of its argument; the argument, like every other array of
    the store, is left as it was. *)
Theorem sortRecommendations_permutation
    (h : store) (results : ref) (l : list FacilityRecommendation.t) :
  h !! results = Some l →
  ∃ (h' : store) (sorted : ref) (out : list FacilityRecommendation.t),
    sortRecommendations results h = (h', sorted)
    ∧ sorted ≠ results
    ∧ h' !! sorted = Some out
    ∧ out ≡ₚ l
    ∧ h' !! results = Some l
    ∧ ∀ r : ref, r ≠ sorted → h' !! r = h !! r.
Proof.
  intros Hl.
  destruct (sortRecommendations_store h results) as [-> Hfresh].
  assert (fresh (dom h) ≠ results) as Hne by congruence.
  eexists _, _, _. split; [done|]. split; [done|].
  rewrite lookup_insert_eq, Hl. simpl.
  split; [done|]. split; [apply sorted_order_perm|].
  split.
  - by rewrite lookup_insert_ne.
  - intros r Hr. by rewrite lookup_insert_ne.
Qed.

Lemma sortRecommendations_permutation_witness :
  ∃ (h' : store) (sorted : ref) (out : list FacilityRecommendation.t),
    sortRecommendations 0%nat {[0%nat := Sample.equal_distance]} = (h', sorted)
    ∧ sorted ≠ 0%nat
    ∧ h' !! sorted = Some out
    ∧ out ≡ₚ Sample.equal_distance
    ∧ h' !! 0%nat = Some Sample.equal_distance
    ∧ ∀ r : ref, r ≠ sorted
        → h' !! r = ({[0%nat := Sample.equal_distance]} : store) !! r.
Proof.
  apply (sortRecommendations_permutation {[0%nat := Sample.equal_distance]} 0%nat
           Sample.equal_distance).
  reflexivity.
Defined.

End Ranking.

(** ** Retrying fetcher *)

Module FetcherProps.
Import Js Fetcher Spec.

Section Loop.
Variables (url : string) (externalSignal : option AbortSignal) (up : upstream).

Lemma catch_block_cases attempt error continue_ :
  (∃ r, catch_block url externalSignal up attempt error continue_
        = ([], Throw (abortError r))
        ∧ ¬ never_aborted externalSignal)
  ∨ (MAX_ATTEMPTS ≤ attempt
     ∧ catch_block url externalSignal up attempt error continue_
       = ([], Throw error))
  ∨ (attempt < MAX_ATTEMPTS
     ∧ ∃ entry,
         is_request_or_sleep entry = false
         ∧ catch_block url externalSignal up attempt error continue_
           = (entry :: Sleep (delay_after attempt) :: (continue_ (Some error)).1,
              (continue_ (Some error)).2)).
Proof.
  unfold catch_block.
  destruct (continue_ (Some error)) as [effs res].
  destruct (Z.leb_spec MAX_ATTEMPTS attempt) as [Hle|Hlt];
    destruct externalSignal as [sig|]; cbn [never_aborted];
    try destruct (sig attempt) as [r|] eqn:Hsig;
    cbn [orb andb fst snd];
    rewrite ?andb_false_r;
    first
      [ left; exists r; split; [reflexivity|];
        intros Hn; specialize (Hn attempt); congruence
      | right; left; split; [lia|reflexivity]
      | right; right; split; [lia|]; eexists; split; [|reflexivity]; reflexivity ].
Qed.

(** One iteration of the loop: it returns, rethrows the abort reason,
    gives up at the last attempt, or logs, sleeps and goes on. *)
Lemma attempts_step remaining attempt lastError :
  let run := attempts url externalSignal up (S remaining) attempt lastError in
  (succeeds (up attempt) = true
   ∧ run.1 = [FetchCall url] ∧ ∃ v, run.2 = Ok v)
  ∨ (¬ never_aborted externalSignal
     ∧ run.1 = [FetchCall url] ∧ ∃ r, run.2 = Throw (abortError r))
  ∨ (succeeds (up attempt) = false ∧ MAX_ATTEMPTS ≤ attempt
     ∧ run.1 = [FetchCall url]
     ∧ ∃ e, error_of (up attempt) e ∧ run.2 = Throw e)
  ∨ (succeeds (up attempt) = false ∧ attempt < MAX_ATTEMPTS
     ∧ ∃ entry lastError',
         let rest :=
           attempts url externalSignal up remaining (attempt + 1) lastError' in
         is_request_or_sleep entry = false
         ∧ run.1 = FetchCall url :: entry :: Sleep (delay_after attempt) :: rest.1
         ∧ run.2 = rest.2).
Proof.
  cbn zeta. cbn [attempts].
  set (next := attempts url externalSignal up remaining (attempt + 1)).
  assert (∀ e, error_of (up attempt) e → succeeds (up attempt) = false →
    ∀ run,
      run = (let '(effs, res) := catch_block url externalSignal up attempt e next in
             (FetchCall url :: effs, res)) →
    (¬ never_aborted externalSignal
     ∧ run.1 = [FetchCall url] ∧ ∃ r, run.2 = Throw (abortError r))
    ∨ (succeeds (up attempt) = false ∧ MAX_ATTEMPTS ≤ attempt
       ∧ run.1 = [FetchCall url]
       ∧ ∃ e, error_of (up attempt) e ∧ run.2 = Throw e)
    ∨ (succeeds (up attempt) = false ∧ attempt < MAX_ATTEMPTS
       ∧ ∃ entry lastError',
           is_request_or_sleep entry = false
           ∧ run.1 = FetchCall url :: entry :: Sleep (delay_after attempt)
                       :: (next lastError').1
           ∧ run.2 = (next lastError').2)) as Hcatch.
  { intros e He Hfail run ->.
    destruct (catch_block_cases attempt e next)
      as [(r & -> & Hab)|[(Hle & ->)|(Hlt & entry & Hentry & ->)]];
      cbv beta iota zeta delta [fst snd].
    - left. split; [done|]. split; [done|]. by exists r.
    - right; left. split; [done|]. split; [done|]. split; [done|]. by exists e.
    - right; right. split; [done|]. split; [done|]. by exists entry, (Some e). }
  assert (∀ response, outcome (up attempt) = Responded response →
          ok response = false → succeeds (up attempt) = false) as Hbad.
  { intros response Hout Hok. unfold succeeds. by rewrite Hout, Hok. }
  destruct (outcome (up attempt)) as [response|error] eqn:Hout.
  - destruct (ok response) eqn:Hok; cbn [negb].
    + destruct (json_body response) as [v|error] eqn:Hjson.
      * left. unfold succeeds. rewrite Hout, Hok, Hjson. eauto.
      * right. eapply Hcatch; [by eapply error_body_unparsable| |done].
        unfold succeeds. by rewrite Hout, Hok, Hjson.
    + right.
      destruct (bool_decide (status response ∈ RETRY_STATUS_CODES)
                && (attempt <? MAX_ATTEMPTS)) eqn:Hretry.
      * apply andb_true_iff in Hretry as [_ Hlt%Z.ltb_lt].
        right; right. split; [by eapply Hbad|]. split; [done|].
        destruct (next lastError) as [effs res] eqn:Hnext.
        eexists _, lastError. rewrite Hnext.
        split; [|split; reflexivity]. reflexivity.
      * destruct (text response) as [body|error] eqn:Htext.
        -- eapply Hcatch; [by eapply error_status|by eapply Hbad|done].
        -- eapply Hcatch; [by eapply error_body_unreadable|by eapply Hbad|done].
  - right. eapply Hcatch; [by eapply error_rejected| |done].
    unfold succeeds. by rewrite Hout.
Qed.

Lemma requests_and_sleeps_cons e effs :
  requests_and_sleeps (e :: effs)
  = if is_request_or_sleep e then e :: requests_and_sleeps effs
    else requests_and_sleeps effs.
Proof.
  unfold requests_and_sleeps. rewrite filter_cons.
  destruct (is_request_or_sleep e); by case_decide.
Qed.

Lemma schedule_more n attempt :
  (1 ≤ n)%nat →
  schedule url (S n) attempt
  = FetchCall url :: Sleep (delay_after attempt) :: schedule url n (attempt + 1).
Proof. destruct n; [lia|done]. Qed.

Lemma attempts_schedule remaining attempt lastError :
  (1 ≤ remaining)%nat →
  attempt = MAX_ATTEMPTS + 1 - Z.of_nat remaining →
  ∃ n, (1 ≤ n ≤ remaining)%nat
       ∧ requests_and_sleeps
           (attempts url externalSignal up remaining attempt lastError).1
         = schedule url n attempt.
Proof.
  revert attempt lastError.
  induction remaining as [|remaining IH]; intros attempt lastError Hpos Hattempt;
    [lia|].
  destruct (attempts_step remaining attempt lastError)
    as [(_ & -> & _)|[(_ & -> & _)|[(_ & _ & -> & _)
       |(_ & Hlt & entry & lastError' & Hentry & -> & _)]]];
    try (exists 1%nat; split; [lia|reflexivity]).
  destruct (IH (attempt + 1) lastError') as (n & Hn & Hsched); [lia..|].
  exists (S n). split; [lia|].
  rewrite !requests_and_sleeps_cons, Hentry. cbn [is_request_or_sleep].
  rewrite Hsched. symmetry. apply schedule_more. lia.
Qed.

Lemma attempts_exhausted :
  never_aborted externalSignal →
  succeeds (up 1) = false → succeeds (up 2) = false → succeeds (up 3) = false →
  ∃ e, error_of (up 3) e
       ∧ (fetchWithRetries url externalSignal up).2 = Throw e
       ∧ requests_and_sleeps (fetchWithRetries url externalSignal up).1
         = schedule url 3 1.
Proof.
  intros Hsig H1 H2 H3. unfold fetchWithRetries.
  change (Z.to_nat MAX_ATTEMPTS) with 3%nat.
  destruct (attempts_step 2 1 None)
    as [(? & _)|[(? & _)|[(_ & ? & _)
       |(_ & _ & entry1 & lastError1 & Hentry1 & -> & ->)]]];
    [congruence|done|unfold MAX_ATTEMPTS in *; lia|].
  change (1 + 1) with 2.
  destruct (attempts_step 1 2 lastError1)
    as [(? & _)|[(? & _)|[(_ & ? & _)
       |(_ & _ & entry2 & lastError2 & Hentry2 & -> & ->)]]];
    [congruence|done|unfold MAX_ATTEMPTS in *; lia|].
  change (2 + 1) with 3.
  destruct (attempts_step 0 3 lastError2)
    as [(? & _)|[(? & _)|[(_ & _ & -> & e & He & ->)|(_ & ? & _)]]];
    [congruence|done| |unfold MAX_ATTEMPTS in *; lia].
  exists e. split; [done|]. split; [done|].
  rewrite !requests_and_sleeps_cons, Hentry1, Hentry2. reflexivity.
Qed.
End Loop.

(** A non-2xx first response whose body can be read is never final,
    whatever its status: its error is thrown inside the [try] block and
    lands in the loop's own [catch], which logs, sleeps and sends the
    request again. *)
Lemma non_2xx_is_retried (url : string) (externalSignal : option AbortSignal)
    (up : upstream) (response : Response) (body : string) :
  never_aborted externalSignal →
  outcome (up 1) = Responded response →
  ok response = false →
  text response = Ok body →
  ∃ entry rest,
    (fetchWithRetries url externalSignal up).1
    = FetchCall url :: entry :: Sleep 200 :: FetchCall url :: rest.
Proof.
  intros Hsig Hout Hok Htext. unfold fetchWithRetries.
  change (Z.to_nat MAX_ATTEMPTS) with 3%nat.
  assert (succeeds (up 1) = false) as Hfail.
  { unfold succeeds. by rewrite Hout, Hok. }
  destruct (attempts_step url externalSignal up 2 1 None)
    as [(? & _)|[(? & _)|[(_ & ? & _)
       |(_ & _ & entry & lastError & _ & -> & _)]]];
    [congruence|done|unfold MAX_ATTEMPTS in *; lia|].
  change (1 + 1) with 2.
  destruct (attempts_step url externalSignal up 1 2 lastError)
    as [(_ & -> & _)|[(_ & -> & _)|[(_ & _ & -> & _)
       |(_ & _ & entry' & lastError' & _ & -> & _)]]];
    eexists _, _; reflexivity.
Qed.

(** C1, on an upstream that answers every request with 404: the request
    is sent three times, with the two back-off sleeps, before the error
    of the third response is thrown. *)
Theorem fetchWithRetries_retries_404 (url : string) :
  fetchWithRetries url None (Sample.answers 404 "not found")
  = ([FetchCall url;
      LogInfo "Retrying upstream request after error"
        [("attempt", FNum 1); ("url", FStr url); ("delay", FNum 200);
         ("error", FStr "Request failed with status 404: not found")];
      Sleep 200;
      FetchCall url;
      LogInfo "Retrying upstream request after error"
        [("attempt", FNum 2); ("url", FStr url); ("delay", FNum 400);
         ("error", FStr "Request failed with status 404: not found")];
      Sleep 400;
      FetchCall url],
     Throw (Error "Request failed with status 404: not found")).
Proof. reflexivity. Qed.

(** A 503 followed by a 200: one logged retry, one sleep of 200 ms, and
    the body of the second response. *)
Example fetchWithRetries_503_then_200 (url : string) (body : json) :
  fetchWithRetries url None
    (λ attempt, if attempt =? 1 then Sample.answers 503 "busy" attempt
                else Sample.sends body attempt)
  = ([FetchCall url;
      LogInfo "Retrying upstream request"
        [("attempt", FNum 1); ("status", FNum 503); ("url", FStr url);
         ("delay", FNum 200)];
      Sleep 200;
      FetchCall url],
     Ok body).
Proof. reflexivity. Qed.

(** C6. Whatever the upstream does, [fetchWithRetries] sends between one
    and three requests, and sleeps [200 * 2^(n-1)] ms between request [n]
    and request [n+1].  When the caller's signal never fires and all
    three attempts fail, it throws the error of the third attempt, which
    for a non-2xx response carries that response's status and body. *)
Theorem fetchWithRetries_attempts_and_backoff
    (url : string) (externalSignal : option AbortSignal) (up : upstream) :
  (∃ n : nat,
      (1 ≤ n ≤ 3)%nat
      ∧ requests_and_sleeps (fetchWithRetries url externalSignal up).1
        = schedule url n 1)
  ∧ (never_aborted externalSignal →
     succeeds (up 1) = false → succeeds (up 2) = false → succeeds (up 3) = false →
     requests_and_sleeps (fetchWithRetries url externalSignal up).1
     = [FetchCall url; Sleep 200; FetchCall url; Sleep 400; FetchCall url]
     ∧ ∃ e, (fetchWithRetries url externalSignal up).2 = Throw e
            ∧ error_of (up 3) e
            ∧ ∀ response body,
                outcome (up 3) = Responded response →
                ok response = false →
                text response = Ok body →
                e = Error ("Request failed with status " +:+ pretty (status response)
                             +:+ ": " +:+ body)).
Proof.
  split.
  - apply (attempts_schedule url externalSignal up 3 1 None); [lia|done].
  - intros Hsig H1 H2 H3.
    destruct (attempts_exhausted url externalSignal up Hsig H1 H2 H3)
      as (e & He & Hres & Hsched).
    split; [by rewrite Hsched|].
    exists e. split; [done|]. split; [done|].
    intros response body Hout Hok Htext.
    destruct He as [e Hout'|r' body' Hout' Hok' Htext'|r' e Hout' Hok' Htext'
                   |r' e Hout' Hok' Hjson]; congruence.
Qed.

Lemma fetchWithRetries_attempts_and_backoff_witness :
  requests_and_sleeps (fetchWithRetries "u" None (Sample.answers 500 "boom")).1
  = [FetchCall "u"; Sleep 200; FetchCall "u"; Sleep 400; FetchCall "u"]
  ∧ ∃ e, (fetchWithRetries "u" None (Sample.answers 500 "boom")).2 = Throw e
         ∧ error_of (Sample.answers 500 "boom" 3) e
         ∧ ∀ response body,
             outcome (Sample.answers 500 "boom" 3) = Responded response →
             ok response = false →
             text response = Ok body →
             e = Error ("Request failed with status " +:+ pretty (status response)
                          +:+ ": " +:+ body).
Proof.
  apply (proj2 (fetchWithRetries_attempts_and_backoff "u" None
                  (Sample.answers 500 "boom")));
    [exact I|reflexivity..].
Defined.

End FetcherProps.

(** ** Response normalizers *)

Module NormalizerProps.
Import Js Normalizer Spec.

#[local] Infix "??" := coalesce (at level 60, right associativity).

Lemma nullish_falsy v : nullish v = true → ToBoolean v = false.
Proof. by destruct v as [[]|]. Qed.

Lemma nullish_None_or_null v : nullish v = true → v = None ∨ v = Some JNull.
Proof. destruct v as [[]|]; naive_solver. Qed.

(** The [??] chain finds what the table lookup finds; when the lookup
    finds nothing the chain is left with [undefined] or [null]. *)
Lemma coalesce_chain_first_present raw names :
  match first_present raw names with
  | Some v => coalesce_chain raw names = Some v
  | None => nullish (coalesce_chain raw names) = true
  end.
Proof.
  induction names as [|k [|k' rest] IH].
  - done.
  - cbn. by destruct (get raw k) as [[]|].
  - cbn [first_present coalesce_chain] in *. unfold coalesce.
    by destruct (get raw k) as [[]|].
Qed.

Lemma coalesce_chain_truthy raw names :
  ToBoolean (coalesce_chain raw names) = ToBoolean (first_present raw names).
Proof.
  pose proof (coalesce_chain_first_present raw names) as Hc.
  destruct (first_present raw names); [by rewrite Hc|by apply nullish_falsy].
Qed.

Lemma coalesce_chain_last raw names k :
  last names = Some k →
  get raw k ≠ Some JNull →
  coalesce_chain raw names = first_present raw names.
Proof.
  induction names as [|k1 [|k2 rest] IH]; intros Hlast Hk.
  - done.
  - cbn in *. simplify_eq. by destruct (get raw k) as [[]|].
  - cbn [first_present coalesce_chain] in *. unfold coalesce.
    destruct (get raw k1) as [[]|]; cbn [nullish]; auto.
Qed.

Section WithRuntime.
Context `{Runtime}.

Lemma coordinate_value_spec raw names nested_names k :
  last names = Some k → last nested_names = Some k →
  get raw k ≠ Some JNull →
  (∀ p, first_present raw position_names = Some p → get p k ≠ Some JNull) →
  coordinate_value raw names nested_names = coordinate raw names nested_names.
Proof.
  intros Hk Hk' Hraw Hpos. unfold coordinate_value, coordinate.
  rewrite (coalesce_chain_last raw names k) by done.
  destruct (first_present raw names) as [v|];
    [by destruct (coalesce_chain raw position_names) as [p|];
       [destruct (isObject p)|]|].
  pose proof (coalesce_chain_first_present raw position_names) as Hp.
  destruct (first_present raw position_names) as [p|].
  - rewrite Hp. destruct (isObject p); [|done].
    apply (coalesce_chain_last p nested_names k); [done|]. by apply Hpos.
  - by apply nullish_None_or_null in Hp as [->| ->].
Qed.

Lemma latitude_value raw :
  no_null_coordinate raw →
  coordinate_value raw lat_names lat_nested_names = latitude raw.
Proof.
  intros (Hlat & _ & Hpos).
  apply (coordinate_value_spec raw _ _ "Latitude"); [done..|].
  intros p Hp. by apply Hpos.
Qed.

Lemma longitude_value raw :
  no_null_coordinate raw →
  coordinate_value raw lon_names lon_nested_names = longitude raw.
Proof.
  intros (_ & Hlon & Hpos).
  apply (coordinate_value_spec raw _ _ "Longitude"); [done..|].
  intros p Hp. by apply Hpos.
Qed.

Ltac step_bind :=
  match goal with
  | |- context [@mbind result _ _ _ _ ?m] =>
      destruct m eqn:?; cbn [mbind result_bind]
  end.

(** The two tests of [normalizeFacilityMetadata] that return [null]. *)
Lemma normalizeFacilityMetadata_null raw config :
  normalizeFacilityMetadata raw config = Ok None ↔
    negb (ToBoolean (coalesce_chain raw id_names))
    || negb (ToBoolean (coalesce_chain raw name_names))
    || is_undefined (coordinate_value raw lat_names lat_nested_names)
    || is_undefined (coordinate_value raw lon_names lon_nested_names) = true
    ∨ ∃ lat lon,
        Number_ (coordinate_value raw lat_names lat_nested_names) = Ok lat
        ∧ Number_ (coordinate_value raw lon_names lon_nested_names) = Ok lon
        ∧ negb (isFinite lat) || negb (isFinite lon) = true.
Proof.
  unfold normalizeFacilityMetadata. cbn zeta.
  change (get raw "id" ?? get raw "Id" ?? get raw "facilityId" ?? get raw "FacilityId")
    with (coalesce_chain raw id_names).
  change (get raw "name" ?? get raw "Name" ?? get raw "siteName" ?? get raw "SiteName")
    with (coalesce_chain raw name_names).
  change (match get raw "lat" ?? _ with Some _ => _ | None => _ end)
    with (coordinate_value raw lat_names lat_nested_names).
  change (match get raw "lon" ?? _ with Some _ => _ | None => _ end)
    with (coordinate_value raw lon_names lon_nested_names).
  destruct (negb _ || _ || _ || _) eqn:Hguard; [split; auto|].
  destruct (Number_ (coordinate_value raw lat_names _)) as [lat|e] eqn:Hlat;
    cbn [mbind result_bind];
    [|split; [done|intros [?|(? & ? & ? & _)]; done]].
  destruct (Number_ (coordinate_value raw lon_names _)) as [lon|e] eqn:Hlon;
    cbn [mbind result_bind];
    [|split; [done|intros [?|(? & ? & _ & ? & _)]; done]].
  destruct (negb (isFinite lat) || negb (isFinite lon)) eqn:Hfin.
  - split; [|done]. intros _. right. by exists lat, lon.
  - split.
    + repeat step_bind; done.
    + intros [?|(lat' & lon' & ? & ? & ?)]; [done|]. congruence.
Qed.

Lemma mapM_app {A B} (f : A → result B) l1 l2 :
  mapM f (l1 ++ l2) = ys1 ← mapM f l1; ys2 ← mapM f l2; Ok (ys1 ++ ys2).
Proof.
  induction l1 as [|x l1 IH]; cbn [mapM app].
  - by destruct (mapM f l2).
  - destruct (f x); cbn [mbind result_bind]; [|done].
    rewrite IH. destruct (mapM f l1); cbn [mbind result_bind]; [|done].
    by destruct (mapM f l2).
Qed.

(** A record that normalizes to [null] leaves no trace in the batch. *)
Lemma normalizeFacilities_skip before bad after config :
  normalizeFacilityMetadata bad config = Ok None →
  normalizeFacilities (before ++ bad :: after) config
  = normalizeFacilities (before ++ after) config.
Proof.
  intros Hbad. unfold normalizeFacilities. cbn zeta.
  rewrite !filter_app, filter_cons.
  case_decide; [|done].
  rewrite !mapM_app. cbn [mapM]. rewrite Hbad.
  destruct (mapM _ (filter _ before)) as [ys1|]; cbn [mbind result_bind]; [|done].
  destruct (mapM _ (filter _ after)) as [ys2|]; cbn [mbind result_bind]; [|done].
  by rewrite !omap_app.
Qed.
End WithRuntime.

(** C5, as the code has it.  For a record that spells no coordinate out as
    [null] under the last of its names, [normalizeFacilityMetadata]
    returns [null] exactly when the id or the name found under the first
    non-null accepted name is missing or falsy, when no latitude or no
    longitude is found on the record or in its position sub-object, or
    when the two found coordinates convert to numbers one of which is not
    finite.  A record without latitude is dropped, and the batch
    normalizes as if it were not there. *)
Theorem normalizeFacilityMetadata_dropped `{Runtime} (config : ServiceConfig.t) :
  (∀ raw : json,
     no_null_coordinate raw →
     normalizeFacilityMetadata raw config = Ok None ↔ dropped raw)
  ∧ (∀ (before : list json) (bad : json) (after : list json),
       no_null_coordinate bad →
       latitude bad = None →
       normalizeFacilityMetadata bad config = Ok None
       ∧ normalizeFacilities (before ++ bad :: after) config
         = normalizeFacilities (before ++ after) config).
Proof.
  assert (∀ raw : json,
     no_null_coordinate raw →
     normalizeFacilityMetadata raw config = Ok None ↔ dropped raw) as Hiff.
  { intros raw Hnull. rewrite normalizeFacilityMetadata_null.
    rewrite !coalesce_chain_truthy, (latitude_value raw Hnull),
      (longitude_value raw Hnull).
    unfold dropped.
    destruct (ToBoolean (first_present raw id_names)); cbn [negb orb]; [|split; intros _; auto].
    destruct (ToBoolean (first_present raw name_names)); cbn [negb orb]; [|split; intros _; auto].
    destruct (latitude raw) as [lat|]; cbn [is_undefined orb]; [|split; intros _; auto 6].
    destruct (longitude raw) as [lon|]; cbn [is_undefined orb]; [|split; intros _; auto 6].
    split.
    - intros [?|(la & lo & Hla & Hlo & Hfin)]; [done|].
      do 4 right. exists la, lo. split; [done|]. split; [done|].
      destruct (isFinite la), (isFinite lo); auto.
    - intros [?|[?|[?|[?|(la & lo & Hla & Hlo & Hfin)]]]]; try done.
      right. exists la, lo. split; [done|]. split; [done|].
      destruct Hfin as [-> | ->]; [done|]. by rewrite orb_true_r. }
  split; [done|].
  intros before bad after Hnull Hlat.
  assert (normalizeFacilityMetadata bad config = Ok None) as Hbad.
  { apply Hiff; [done|]. unfold dropped. auto. }
  split; [done|]. by apply normalizeFacilities_skip.
Qed.

Lemma normalizeFacilityMetadata_dropped_witness :
  normalizeFacilityMetadata (H := Sample.runtime) Sample.no_latitude Sample.config
  = Ok None
  ∧ normalizeFacilities (H := Sample.runtime)
      ([Sample.slussen] ++ Sample.no_latitude :: [Sample.slussen]) Sample.config
    = normalizeFacilities (H := Sample.runtime)
        ([Sample.slussen] ++ [Sample.slussen]) Sample.config.
Proof.
  apply (proj2 (normalizeFacilityMetadata_dropped (H := Sample.runtime) Sample.config)
           [Sample.slussen] Sample.no_latitude [Sample.slussen]).
  - split; [discriminate|]. split; [discriminate|]. intros p Hp. discriminate Hp.
  - reflexivity.
Defined.

(** The id [[]] is truthy and its string is empty: the record is kept,
    with an empty id. *)
Lemma normalizeFacilityMetadata_keeps_empty_id :
  unresolved (H := Sample.runtime) Sample.empty_array_id
  ∧ normalizeFacilityMetadata (H := Sample.runtime) Sample.empty_array_id
      Sample.config
    = Ok (Some (FacilityMetadata.mk "" "Gallerian" (Finite 59) (Finite 18) None None
                  None "https://api.stockholmparkering.se/facilities")).
Proof.
  split; [|reflexivity].
  left. intros (s & Hs & Hne). cbn in Hs. by simplify_eq.
Qed.

(** The latitude [null] under the last accepted name is not dropped: it
    survives the [??] chain as [null], is not [undefined], and converts
    to 0. *)
Example null_latitude_is_zero :
  normalizeFacilityMetadata (H := Sample.runtime) Sample.null_latitude Sample.config
  = Ok (Some (FacilityMetadata.mk "p2" "Gallerian" (Finite 0) (Finite 18) None None
                None "https://api.stockholmparkering.se/facilities")).
Proof. reflexivity. Qed.

(** Field names in other spellings, coordinates under [position], a
    number as id and a numeric string as longitude. *)
Example slussen_normalized :
  normalizeFacilityMetadata (H := Sample.runtime) Sample.slussen Sample.config
  = Ok (Some (FacilityMetadata.mk "7" "Slussen" (Finite 59) (Finite 18) None None
                None "https://api.stockholmparkering.se/facilities")).
Proof. reflexivity. Qed.

Lemma json_nested_ind (P : json → Prop) :
  P JNull → (∀ b, P (JBool b)) → (∀ n, P (JNum n)) → (∀ s, P (JStr s)) →
  (∀ items, Forall P items → P (JArr items)) →
  (∀ props, P (JObj props)) →
  ∀ v, P v.
Proof.
  intros Hnull Hbool Hnum Hstr Harr Hobj.
  fix IH 1. intros [| b | n | s | items | props].
  - exact Hnull.
  - apply Hbool.
  - apply Hnum.
  - apply Hstr.
  - apply Harr. induction items as [|x items IHitems]; constructor.
    + apply IH.
    + exact IHitems.
  - apply Hobj.
Qed.

Section Totality.
Context `{Runtime}.

Lemma ToString_plain v : plain v = true → is_Ok (ToString v) = true.
Proof.
  induction v as [| b | n | s | items IH | props] using json_nested_ind;
    intros Hplain; try done.
  - by destruct b.
  - cbn [ToString]. cbn [plain] in Hplain.
    induction IH as [|x items Hx _ IHitems]; [done|].
    cbn [forallb] in Hplain. apply andb_true_iff in Hplain as [Hpx Hpitems].
    specialize (IHitems Hpitems). specialize (Hx Hpx).
    assert (is_Ok (match x with JNull => Ok "" | _ => ToString x end) = true) as Hel.
    { by destruct x. }
    destruct items as [|y items]; [done|].
    destruct (match x with JNull => Ok "" | _ => ToString x end); [|done].
    cbn [mbind result_bind].
    match type of IHitems with is_Ok ?t = true => destruct t; [done|done] end.
  - cbn [ToString plain] in *. by destruct (has_own "toString" props).
Qed.

Lemma String_plain v : plain_value v → is_Ok (String_ v) = true.
Proof. destruct v; [apply ToString_plain|done]. Qed.

Lemma Number_plain v : plain_value v → is_Ok (Number_ v) = true.
Proof.
  destruct v as [j|]; [|done]. intros Hj%ToString_plain.
  destruct j as [| [] | | | |]; try done; cbn [Number_];
    by destruct (ToString _).
Qed.

Lemma toNumberOrNull_plain v : plain_value v → is_Ok (toNumberOrNull v) = true.
Proof.
  intros Hv%Number_plain. unfold toNumberOrNull.
  destruct (nullish v); [done|]. by destruct (Number_ v).
Qed.

Lemma toStringOrNull_plain v : plain_value v → is_Ok (toStringOrNull v) = true.
Proof.
  intros Hv%String_plain. unfold toStringOrNull.
  destruct (nullish v); [done|]. by destruct (String_ v).
Qed.

Lemma get_plain raw k : plain_fields raw → plain_value (get raw k).
Proof. intros Hraw. destruct (get raw k) eqn:Hk; [by eapply Hraw|done]. Qed.

Lemma coalesce_plain a b : plain_value a → plain_value b → plain_value (a ?? b).
Proof. unfold coalesce. by destruct (nullish a). Qed.

Lemma coalesce_chain_plain raw names :
  plain_fields raw → plain_value (coalesce_chain raw names).
Proof.
  intros Hraw. induction names as [|k [|k' rest] IH]; [done|by apply get_plain|].
  apply coalesce_plain; [by apply get_plain|done].
Qed.

Lemma coordinate_value_plain raw names nested_names :
  plain_record raw → plain_value (coordinate_value raw names nested_names).
Proof.
  intros [Hraw Hpos]. unfold coordinate_value. cbn zeta.
  pose proof (coalesce_chain_plain raw names Hraw) as Hv.
  destruct (coalesce_chain raw names); [done|].
  pose proof (coalesce_chain_first_present raw position_names) as Hp.
  destruct (coalesce_chain raw position_names) as [p|]; [|done].
  destruct (isObject p) eqn:Hobj; [|done].
  destruct (first_present raw position_names) as [p'|].
  - simplify_eq. apply coalesce_chain_plain. by apply Hpos.
  - by destruct p.
Qed.

Ltac bind_ok :=
  match goal with
  | |- context [@mbind result _ _ _ _ ?m] =>
      let Hm := fresh in
      assert (is_Ok m = true) as Hm;
      [|destruct m; [clear Hm; cbn [mbind result_bind]|discriminate Hm]]
  end.

Ltac plain_chain :=
  repeat (apply coalesce_plain); first [by apply get_plain|done].

(** Everywhere else the normalizers return: on a record none of whose
    fields holds an object with an own ["toString"] property, neither
    normalizer throws. *)
Lemma normalizeAvailability_total raw :
  plain_fields raw → is_Ok (normalizeAvailability raw) = true.
Proof.
  intros Hraw. unfold normalizeAvailability. cbn zeta.
  destruct (negb _); [done|].
  bind_ok; [apply toNumberOrNull_plain; plain_chain|].
  bind_ok; [apply toNumberOrNull_plain; plain_chain|].
  bind_ok; [apply toStringOrNull_plain; plain_chain|].
  bind_ok; [apply String_plain; plain_chain|].
  done.
Qed.

Lemma normalizeFacilityMetadata_total raw config :
  plain_record raw → is_Ok (normalizeFacilityMetadata raw config) = true.
Proof.
  intros Hrec. pose proof Hrec as [Hraw _].
  unfold normalizeFacilityMetadata. cbn zeta.
  change (match get raw "lat" ?? _ with Some _ => _ | None => _ end)
    with (coordinate_value raw lat_names lat_nested_names).
  change (match get raw "lon" ?? _ with Some _ => _ | None => _ end)
    with (coordinate_value raw lon_names lon_nested_names).
  destruct (negb _ || _ || _ || _); [done|].
  bind_ok; [by apply Number_plain, coordinate_value_plain|].
  bind_ok; [by apply Number_plain, coordinate_value_plain|].
  destruct (negb _ || _); [done|].
  bind_ok; [apply toNumberOrNull_plain; plain_chain|].
  bind_ok; [apply toStringOrNull_plain; plain_chain|].
  bind_ok; [apply toStringOrNull_plain; plain_chain|].
  bind_ok; [apply toStringOrNull_plain; plain_chain|].
  bind_ok; [apply String_plain; plain_chain|].
  bind_ok; [apply String_plain; plain_chain|].
  done.
Qed.
End Totality.

(** C8, on a record whose id is an object with an own ["toString"]
    property: [String(idValue)] throws in both normalizers. *)
Theorem normalizers_throw_on_shadowed_toString `{Runtime} (config : ServiceConfig.t) :
  normalizeAvailability (JObj [("id", Sample.shadowed_toString)])
  = Throw cannot_convert
  ∧ normalizeFacilityMetadata
      (Sample.facility Sample.shadowed_toString
         [("lat", JNum (Finite 59)); ("lon", JNum (Finite 18))]) config
    = Throw cannot_convert.
Proof. split; reflexivity. Qed.

End NormalizerProps.

(** ** The two caches *)

Module CacheProps.
Import Js Fetcher Normalizer Cache Spec Notions.

Ltac simpl_state :=
  cbn [fst snd facilityCache availabilityCache pending next_promise effects
       set_availability set_facilities emit forget wait] in *.

Lemma suspend_spec k st :
  suspend k st
  = (mkState (facilityCache st) (availabilityCache st)
       (<[next_promise st := k]> (pending st)) (S (next_promise st)) (effects st),
     next_promise st).
Proof. done. Qed.

Lemma well_formed_fresh st : well_formed st → pending st !! next_promise st = None.
Proof.
  intros Hwf. destruct (pending st !! next_promise st) eqn:Hp; [|done].
  assert (is_Some (pending st !! next_promise st)) as Hs by (rewrite Hp; eauto).
  apply Hwf in Hs. lia.
Qed.

Lemma well_formed_initial : well_formed initial.
Proof. intros p. cbn. rewrite lookup_empty. by intros [? ?]. Qed.

Lemma emit_nil st : emit [] st = st.
Proof. destruct st. unfold emit. cbn. by rewrite app_nil_r. Qed.

Lemma emit_emit effs effs' st : emit effs' (emit effs st) = emit (effs ++ effs') st.
Proof. unfold emit. cbn. by rewrite app_assoc. Qed.

Lemma forget_wait p k pr st : forget p (wait p k pr st) = forget p st.
Proof. unfold forget, wait. cbn. by rewrite delete_insert_eq. Qed.

Lemma forget_emit p effs st : forget p (emit effs st) = emit effs (forget p st).
Proof. done. Qed.

(** One iteration of the loop, as the fetcher's own model has it. *)
Lemma attempts_iterate url signal up remaining attempt lastError :
  attempts url signal up (S remaining) attempt lastError
  = match iterate url signal (up attempt) attempt lastError with
    | Done fetched => ([FetchCall url], fetched)
    | Retry entry lastError' =>
        let '(effs, fetched) :=
          attempts url signal up remaining (attempt + 1) lastError' in
        (FetchCall url :: entry :: Sleep (delay_after attempt) :: effs, fetched)
    end.
Proof.
  cbn [attempts]. set (next := attempts url signal up remaining (attempt + 1)).
  assert (∀ error,
            (let '(effs, res) := catch_block url signal up attempt error next in
             (FetchCall url :: effs, res))
            = match catch_iteration url signal (up attempt) attempt error with
              | Done fetched => ([FetchCall url], fetched)
              | Retry entry lastError' =>
                  let '(effs, fetched) := next lastError' in
                  (FetchCall url :: entry :: Sleep (delay_after attempt) :: effs,
                   fetched)
              end) as Hcatch.
  { intros error. unfold catch_block, catch_iteration. cbn zeta.
    destruct (_ && _);
      [destruct (match signal with Some _ => _ | None => _ end)|];
      try done;
      destruct (MAX_ATTEMPTS <=? attempt); try done;
      by destruct (next (Some error)). }
  unfold iterate. destruct (outcome (up attempt)) as [response|error]; [|apply Hcatch].
  destruct (negb (ok response)).
  - destruct (bool_decide _ && _).
    + by destruct (next lastError).
    + destruct (text response); apply Hcatch.
  - destruct (json_body response); [done|apply Hcatch].
Qed.

(** A retry is never the last iteration the guard allows. *)
Lemma iterate_Retry url signal env attempt lastError entry lastError' :
  iterate url signal env attempt lastError = Retry entry lastError' →
  attempt < MAX_ATTEMPTS ∧ is_request_or_sleep entry = false.
Proof.
  assert (∀ error, catch_iteration url signal env attempt error = Retry entry lastError' →
                   attempt < MAX_ATTEMPTS ∧ is_request_or_sleep entry = false)
    as Hcatch.
  { intros error. unfold catch_iteration. cbn zeta.
    destruct (_ && _);
      [destruct (match signal with Some _ => _ | None => _ end)|];
      try done;
      destruct (Z.leb_spec MAX_ATTEMPTS attempt); try done;
      intros [= <- <-]; done. }
  unfold iterate. destruct (outcome env) as [response|error]; [|apply Hcatch].
  destruct (negb (ok response)).
  - destruct (bool_decide _) eqn:Hretry; cbn [andb].
    + destruct (Z.ltb_spec attempt MAX_ATTEMPTS); [by intros [= <- <-]|].
      destruct (text response); apply Hcatch.
    + destruct (text response); apply Hcatch.
  - destruct (json_body response); [done|apply Hcatch].
Qed.

Lemma attempts_sends url signal up remaining attempt lastError :
  attempts url signal up (S remaining) attempt lastError
  = (FetchCall url
       :: tail (attempts url signal up (S remaining) attempt lastError).1,
     (attempts url signal up (S remaining) attempt lastError).2).
Proof.
  rewrite attempts_iterate. destruct (iterate _ _ _ _ _); [done|].
  by destruct (attempts url signal up remaining (attempt + 1) _).
Qed.

(** The request sequence of a call that has just been made is the whole
    of [fetchWithRetries], less the request already sent. *)
Lemma remainder_started url signal up :
  remainder signal up (Requesting url 1 None)
  = (tail (fetchWithRetries url signal up).1, (fetchWithRetries url signal up).2).
Proof.
  unfold remainder, fetchWithRetries.
  change (S (Z.to_nat (MAX_ATTEMPTS - 1))) with (Z.to_nat MAX_ATTEMPTS).
  by destruct (attempts _ _ _ _ _ _).
Qed.

Lemma fetchWithRetries_sends_first url signal up :
  (fetchWithRetries url signal up).1
  = FetchCall url :: (remainder signal up (Requesting url 1 None)).1.
Proof.
  rewrite remainder_started. unfold fetchWithRetries.
  change (Z.to_nat MAX_ATTEMPTS) with 3%nat. by rewrite attempts_sends at 1.
Qed.

Section WithRuntime.
Context `{Runtime}.
Variable config : ServiceConfig.t.

Lemma refreshAvailability_start_spec st :
  refreshAvailability_start config st
  = (emit (refresh_request config) st, refresh_started config).
Proof.
  unfold refreshAvailability_start, refresh_request, refresh_started.
  destruct (buildUrl _ _); [done|]. by rewrite emit_nil.
Qed.

(** The run of [refreshAvailability] to completion, from the state in
    which the call that started it left it. *)
Lemma refreshed_started signal up :
  refreshed signal up (refresh_started config)
  = (refreshAvailability config signal up).2.
Proof.
  unfold refreshed, refresh_started, refreshAvailability.
  destruct (buildUrl _ _) as [url|e]; [|done].
  rewrite remainder_started. by destruct (fetchWithRetries url signal up).
Qed.

Lemma refreshAvailability_effects signal up :
  (refreshAvailability config signal up).1
  = refresh_request config ++ (remainder signal up (refresh_started config)).1.
Proof.
  unfold refresh_request, refresh_started, refreshAvailability.
  destruct (buildUrl _ _) as [url|e]; [|done].
  pose proof (fetchWithRetries_sends_first url signal up) as Hf.
  destruct (fetchWithRetries url signal up) as [effs fetched].
  cbn [fst] in *. by rewrite Hf.
Qed.

Lemma resume_task_pending k fetched t st :
  pending (resume_task config k fetched t st).1 = pending st
  ∧ next_promise (resume_task config k fetched t st).1 = next_promise st.
Proof.
  destruct k as [cached signal|now cached signal|now url signal]; cbn [resume_task].
  - destruct (refreshAvailability_resume fetched); cbn; [done|].
    by destruct (availabilityCache st).
  - destruct (refreshAvailability_resume fetched); cbn; [done|]. by destruct cached.
  - unfold getFacilities_resume. destruct fetched as [v|e]; [|done].
    destruct v; try done. by destruct (normalizeFacilities _ _).
Qed.

Lemma complete_within_spec n p up t st k pr :
  pending st !! p = Some (k, pr) → (turns_needed pr ≤ n)%nat →
  complete_within config n p up t st
  = resume_task config k (remainder (signal_of k) up pr).2 t
      (emit (remainder (signal_of k) up pr).1 (forget p st)).
Proof.
  revert st pr. induction n as [|n IH]; intros st pr Hp Hn.
  { destruct pr; cbn in Hn; lia. }
  cbn [complete_within]. rewrite Hp.
  assert (∀ fetched st0,
            pending st0 = delete p (pending st) →
            (let '(st', d) := resume_task config k fetched t st0 in
             if bool_decide (is_Some (pending st' !! p))
             then complete_within config n p up t st' else (st', d))
            = resume_task config k fetched t st0) as Hend.
  { intros fetched st0 Hst0.
    destruct (resume_task_pending k fetched t st0) as [Hpend _].
    destruct (resume_task config k fetched t st0) as [st' d]. cbn [fst] in Hpend.
    rewrite bool_decide_false; [done|].
    rewrite Hpend, Hst0, lookup_delete_eq. by intros [? ?]. }
  destruct pr as [e|url attempt lastError|url attempt lastError].
  - unfold resume. rewrite Hp. cbn [remainder fst snd]. rewrite emit_nil.
    by apply Hend.
  - unfold respond. rewrite Hp. cbn [remainder].
    rewrite attempts_iterate.
    destruct (iterate url (signal_of k) (up attempt) attempt lastError)
      as [fetched|entry lastError'] eqn:Hit.
    + cbn [tail fst snd]. rewrite emit_nil. by apply Hend.
    + apply iterate_Retry in Hit as [Hlt _].
      rewrite bool_decide_true by (cbn; rewrite lookup_insert_eq; eauto).
      rewrite (IH _ (Sleeping url attempt lastError'));
        [|cbn; by rewrite lookup_insert_eq
         |cbn in *; unfold MAX_ATTEMPTS in *; lia].
      rewrite forget_wait, forget_emit, emit_emit. cbn [remainder].
      by destruct (attempts url (signal_of k) up _ (attempt + 1) lastError').
  - unfold resume. rewrite Hp. cbn [remainder].
    destruct (Z.leb_spec (attempt + 1) MAX_ATTEMPTS) as [Hle|Hgt].
    + rewrite bool_decide_true by (cbn; rewrite lookup_insert_eq; eauto).
      rewrite (IH _ (Requesting url (attempt + 1) lastError));
        [|cbn; by rewrite lookup_insert_eq
         |cbn in *; unfold MAX_ATTEMPTS in *; lia].
      rewrite forget_wait, forget_emit, emit_emit. cbn [remainder].
      replace (Z.to_nat (MAX_ATTEMPTS - attempt))
        with (S (Z.to_nat (MAX_ATTEMPTS - (attempt + 1)))) by lia.
      rewrite attempts_sends.
      by destruct (attempts url (signal_of k) up _ (attempt + 1) lastError).
    + replace (Z.to_nat (MAX_ATTEMPTS - attempt)) with 0%nat by lia.
      cbn [attempts fst snd]. rewrite emit_nil. by apply Hend.
Qed.

(** The turns of a task, taken together: its request sequence goes on
    to its end against [up], and the code that awaited it runs. *)
Lemma complete_spec p up t st k pr :
  pending st !! p = Some (k, pr) →
  complete config p up t st
  = resume_task config k (remainder (signal_of k) up pr).2 t
      (emit (remainder (signal_of k) up pr).1 (forget p st)).
Proof.
  intros Hp. unfold complete. rewrite Hp. apply complete_within_spec; [done|].
  destruct pr; cbn; lia.
Qed.

Lemma getAvailability_live signal now st c :
  availabilityCache st = Some c →
  now < AvailabilityCacheEntry.expiresAt c →
  getAvailability config signal now st = (st, Returned (Ok (fresh_result c))).
Proof.
  intros Hc Hlive. unfold getAvailability. cbn zeta. rewrite Hc.
  apply Z.ltb_lt in Hlive. by rewrite Hlive.
Qed.

Lemma getAvailability_refreshing signal now st c p :
  availabilityCache st = Some c →
  AvailabilityCacheEntry.expiresAt c ≤ now →
  AvailabilityCacheEntry.revalidatePromise c = Some p →
  getAvailability config signal now st = (st, Returned (Ok (stale_result c))).
Proof.
  intros Hc Hexp Hp. unfold getAvailability. cbn zeta. rewrite Hc.
  destruct (Z.ltb_spec now (AvailabilityCacheEntry.expiresAt c)); [lia|].
  by rewrite Hp.
Qed.

(** An expired entry without handle: the call starts the refresh, marks
    the entry and returns. *)
Lemma getAvailability_expired signal now st c :
  availabilityCache st = Some c →
  AvailabilityCacheEntry.expiresAt c ≤ now →
  AvailabilityCacheEntry.revalidatePromise c = None →
  getAvailability config signal now st
  = (revalidating config signal c st, Returned (Ok (stale_result c))).
Proof.
  intros Hc Hexp Hp. unfold getAvailability. cbn zeta. rewrite Hc, Hp.
  destruct (Z.ltb_spec now (AvailabilityCacheEntry.expiresAt c)); [lia|].
  rewrite bool_decide_false by (by intros [? ?]).
  destruct (Z.leb_spec (AvailabilityCacheEntry.expiresAt c) now); [|lia].
  by rewrite refreshAvailability_start_spec.
Qed.

Lemma getAvailability_empty signal now st :
  availabilityCache st = None →
  getAvailability config signal now st
  = (fetching_availability config signal now st, Awaiting (next_promise st)).
Proof.
  intros Hc. unfold getAvailability, fetching_availability. cbn zeta.
  rewrite Hc, refreshAvailability_start_spec. cbn. by rewrite Hc.
Qed.

Lemma getAvailability_cases signal now st :
  (getAvailability config signal now st).1 = st
  ∨ (∃ c, availabilityCache st = Some c
          ∧ AvailabilityCacheEntry.expiresAt c ≤ now
          ∧ AvailabilityCacheEntry.revalidatePromise c = None
          ∧ (getAvailability config signal now st).1 = revalidating config signal c st)
  ∨ (availabilityCache st = None
     ∧ (getAvailability config signal now st).1 = fetching_availability config signal now st).
Proof.
  destruct (availabilityCache st) as [c|] eqn:Hc.
  - destruct (Z.lt_ge_cases now (AvailabilityCacheEntry.expiresAt c)) as [Hlive|Hexp].
    { left. by rewrite (getAvailability_live signal now st c). }
    destruct (AvailabilityCacheEntry.revalidatePromise c) as [p|] eqn:Hp.
    { left. by rewrite (getAvailability_refreshing signal now st c p). }
    right. left. exists c. by rewrite (getAvailability_expired signal now st c).
  - right. right. by rewrite getAvailability_empty.
Qed.

Lemma getFacilities_live signal now st c :
  facilityCache st = Some c → now < CacheEntry.expiresAt c →
  getFacilities config signal now st = (st, Returned (Ok (CacheEntry.value c))).
Proof.
  intros Hc Hlive. unfold getFacilities. cbn zeta. rewrite Hc.
  apply Z.ltb_lt in Hlive. by rewrite Hlive.
Qed.

Lemma getFacilities_stale signal now st :
  (∀ c, facilityCache st = Some c → CacheEntry.expiresAt c ≤ now) →
  getFacilities config signal now st
  = match buildUrl (ServiceConfig.baseUrl config)
            (ServiceConfig.facilitiesPath config) with
    | Throw e => (st, Returned (Throw e))
    | Ok url => (fetching_facilities signal now url st, Awaiting (next_promise st))
    end.
Proof.
  intros Hexp. unfold getFacilities. cbn zeta.
  assert (match facilityCache st with
          | Some c => if now <? CacheEntry.expiresAt c
                      then Some (CacheEntry.value c) else None
          | None => None
          end = None) as ->.
  { destruct (facilityCache st) as [c|]; [|done].
    specialize (Hexp c eq_refl).
    by destruct (Z.ltb_spec now (CacheEntry.expiresAt c)); [lia|]. }
  by destruct (buildUrl _ _).
Qed.

Lemma getFacilities_step_cases signal now st :
  (getFacilities config signal now st).1 = st
  ∨ ∃ url, (getFacilities config signal now st).1
           = fetching_facilities signal now url st.
Proof.
  unfold getFacilities. cbn zeta.
  destruct (match facilityCache st with Some _ => _ | None => _ end); [by left|].
  destruct (buildUrl _ _) as [url|e]; [|by left]. right. by exists url.
Qed.

Lemma respond_turn p env t st : turn config p st (respond config p env t st).
Proof.
  unfold respond. destruct (pending st !! p) as [[k pr]|] eqn:Hp; [|constructor].
  destruct pr as [e|url attempt lastError|url attempt lastError]; try constructor.
  destruct (iterate url (signal_of k) env attempt lastError) as [fetched|entry le]
    eqn:Hit.
  - by eapply turn_ends.
  - eapply turn_waits; [done|].
    assert (is_log_error entry = false) as Hentry.
    { revert Hit. unfold iterate, catch_iteration. cbn zeta.
      repeat match goal with
             | |- context [match ?x with _ => _ end] => destruct x
             end; try done; by intros [= <- <-]. }
    by repeat constructor.
Qed.

Lemma resume_turn p t st :
  turn config p st (resume config p t st)
  ∧ ∀ now cached signal pr r,
      pending st !! p = Some (AvailabilityCall now cached signal, pr) →
      (resume config p t st).2 = ToAvailabilityCaller (Ok r) →
      ∃ c, cached = Some c ∧ r = stale_result c.
Proof.
  unfold resume. destruct (pending st !! p) as [[k pr]|] eqn:Hp;
    [|split; [constructor|done]].
  destruct pr as [e|url attempt lastError|url attempt lastError].
  - split; [by eapply turn_ends|].
    intros now cached signal pr r [= -> <-]. cbn.
    destruct cached as [c|]; [|done]. intros [= <-]. by exists c.
  - split; [constructor|by intros].
  - destruct (attempt + 1 <=? MAX_ATTEMPTS).
    + split; [|by intros]. eapply turn_waits; [done|]. by repeat constructor.
    + split; [by eapply turn_ends|].
      intros now cached signal pr r [= -> <-]. cbn.
      destruct lastError; cbn; (destruct cached as [c|]; [|done]);
        intros [= <-]; by exists c.
Qed.

Lemma normalize_non_object item :
  isObject item = false → normalizeFacilityMetadata item config = Ok None.
Proof. by destruct item. Qed.

(** The pipeline keeps the records of [kept_facilities], unless the
    normalizer throws on an item. *)
Lemma normalizeFacilities_cases rawData :
  match normalizeFacilities rawData config with
  | Ok facilities =>
      facilities = kept_facilities rawData config
      ∧ Forall (λ item, is_Ok (normalizeFacilityMetadata item config) = true) rawData
  | Throw e =>
      ∃ item, item ∈ rawData ∧ normalizeFacilityMetadata item config = Throw e
  end.
Proof.
  unfold normalizeFacilities, kept_facilities. cbn zeta.
  induction rawData as [|item rawData IH]; [done|].
  rewrite filter_cons. cbn [omap list_omap].
  case_decide as Hobj.
  - cbn [mapM].
    destruct (normalizeFacilityMetadata item config) as [r|e] eqn:Hitem;
      cbn [mbind result_bind].
    + destruct (mapM _ _) as [normalized|e]; cbn [mbind result_bind].
      * destruct IH as [IHeq IH]. split.
        -- cbn [omap list_omap]. change (list_omap ?f ?l) with (omap f l).
           rewrite IHeq. by destruct r.
        -- constructor; [by rewrite Hitem|done].
      * destruct IH as (item' & ? & ?). exists item'. split; [by right|done].
    + exists item. split; [by left|done].
  - apply not_true_is_false in Hobj. rewrite (normalize_non_object item Hobj).
    destruct (mapM _ _) as [normalized|e].
    + destruct IH as [IHeq IH]. split; [done|].
      constructor; [by rewrite (normalize_non_object item Hobj)|done].
    + destruct IH as (item' & ? & ?). exists item'. split; [by right|done].
Qed.

Lemma getFacilities_resume_refresh now fetched st :
  let '(st', r) := getFacilities_resume config now fetched st in
  facilities_refresh config now fetched (facilityCache st) r (facilityCache st').
Proof.
  unfold getFacilities_resume.
  destruct fetched as [v|e]; [|by constructor].
  destruct v as [| | | |rawData|]; try (by eapply refresh_not_an_array).
  pose proof (normalizeFacilities_cases rawData) as Hn.
  destruct (normalizeFacilities rawData config) as [facilities|e].
  - destruct Hn as [-> Hall]. by apply refresh_stored.
  - destruct Hn as (item & Hin & Hitem). by eapply refresh_normalizer_threw.
Qed.

Lemma well_formed_same st st' :
  pending st' = pending st → next_promise st' = next_promise st →
  well_formed st → well_formed st'.
Proof. unfold well_formed. by intros -> ->. Qed.

Lemma well_formed_suspended k st st' :
  pending st' = <[next_promise st := k]> (pending st) →
  next_promise st' = S (next_promise st) →
  well_formed st → well_formed st'.
Proof.
  intros Hpend Hnext Hwf p. rewrite Hpend, Hnext.
  destruct (decide (p = next_promise st)) as [->|Hne]; [lia|].
  rewrite lookup_insert_ne by done. intros Hp%Hwf. lia.
Qed.

Lemma well_formed_turn p st r : turn config p st r → well_formed st → well_formed r.1.
Proof.
  intros [|k pr pr' effs Hp _|k pr fetched t Hp] Hwf; [done|..].
  - intros q. cbn [fst wait emit pending next_promise].
    destruct (decide (q = p)) as [->|Hne].
    + intros _. apply Hwf. eauto.
    + rewrite lookup_insert_ne by done. apply Hwf.
  - destruct (resume_task_pending k fetched t (forget p st)) as [Hpend Hnext].
    intros q. rewrite Hpend, Hnext. cbn [forget pending next_promise].
    destruct (decide (p = q)) as [->|Hne].
    + rewrite lookup_delete_eq. by intros [? ?].
    + rewrite lookup_delete_ne by done. apply Hwf.
Qed.

Lemma well_formed_step (ev : event) (st : state) :
  well_formed st → well_formed (step config ev st).
Proof.
  intros Hwf. destruct ev as [signal now|signal now|p env t|p t]; cbn [step].
  - destruct (getAvailability_cases signal now st)
      as [->|[(c & _ & _ & _ & ->)|[_ ->]]]; [done|..];
      (eapply (well_formed_suspended _ st); [reflexivity|reflexivity|exact Hwf]).
  - destruct (getFacilities_step_cases signal now st) as [->|[url ->]]; [done|].
    eapply (well_formed_suspended _ st); [reflexivity|reflexivity|exact Hwf].
  - apply (well_formed_turn p st _ (respond_turn p env t st) Hwf).
  - apply (well_formed_turn p st _ (proj1 (resume_turn p t st)) Hwf).
Qed.

Lemma well_formed_run (evs : list event) (st : state) :
  well_formed st → well_formed (run config evs st).
Proof.
  revert st. induction evs as [|ev evs IH]; intros st Hwf; [done|].
  cbn [run fold_left]. apply IH. by apply well_formed_step.
Qed.


Lemma resume_failed k e t st :
  match k with
  | AvailabilityCall _ _ _ | FacilitiesCall _ _ _ =>
      availabilityCache (resume_task config k (Throw e) t st).1 = availabilityCache st
  | Revalidation _ _ => True
  end.
Proof.
  destruct k as [cached signal|now cached signal|now url signal]; [done|..]; cbn.
  - by destruct cached.
  - done.
Qed.



End WithRuntime.

(** What [getFacilities] does in every case.  With a live entry it
    returns the cached value and leaves the state as it is: nothing is
    suspended, nothing is sent.  Otherwise it sends the first request and
    awaits the fetcher; when that settles, the caller gets the fetcher's
    error, or a hard failure for a body that is no array, or - when the
    normalizer returns on every item - the records of the items that
    normalize to one, which are then also stored with
    [expiresAt = now + facilitiesTtlMs], [now] being the time of the
    call.  When the normalizer throws on an item, its exception is what
    the caller gets, and nothing is stored. *)
Lemma getFacilities_cases `{Runtime} (config : ServiceConfig.t)
    (signal : option AbortSignal) (now : Z) (st : state) :
  (∀ c, facilityCache st = Some c → now < CacheEntry.expiresAt c →
        getFacilities config signal now st = (st, Returned (Ok (CacheEntry.value c))))
  ∧ ((∀ c, facilityCache st = Some c → CacheEntry.expiresAt c ≤ now) →
     ∀ url,
       buildUrl (ServiceConfig.baseUrl config) (ServiceConfig.facilitiesPath config)
       = Ok url →
       ∃ st1 p,
         getFacilities config signal now st = (st1, Awaiting p)
         ∧ pending st1 !! p
           = Some (FacilitiesCall now url signal, Requesting url 1 None)
         ∧ facilityCache st1 = facilityCache st
         ∧ effects st1 = effects st ++ [FetchCall url]
         ∧ ∀ (st2 : state) (pr : progress) (up : upstream) (t : Z),
             pending st2 !! p = Some (FacilitiesCall now url signal, pr) →
             ∃ st3 r,
               complete config p up t st2 = (st3, ToFacilitiesCaller r)
               ∧ facilities_refresh config now (remainder signal up pr).2
                   (facilityCache st2) r (facilityCache st3)).
Proof.
  split; [apply getFacilities_live|].
  intros Hexpired url Hurl. rewrite getFacilities_stale, Hurl by done.
  eexists _, _. split; [done|]. cbn [fetching_facilities pending facilityCache effects].
  split; [by rewrite lookup_insert_eq|]. do 2 (split; [done|]).
  intros st2 pr up t Hp. rewrite (complete_spec config _ up t st2 _ pr Hp).
  cbn [resume_task signal_of].
  pose proof (getFacilities_resume_refresh config now (remainder signal up pr).2
                (emit (remainder signal up pr).1 (forget (next_promise st) st2)))
    as Hr.
  destruct (getFacilities_resume config now _ _) as [st3 r].
  exists st3, r. split; [done|]. apply Hr.
Qed.

Example getFacilities_cases_cold :
  ∃ st1 p,
    getFacilities (H := Sample.runtime) Sample.config None 0 initial
    = (st1, Awaiting p)
    ∧ pending st1 !! p
      = Some (FacilitiesCall 0 "https://api.stockholmparkering.se/facilities" None,
              Requesting "https://api.stockholmparkering.se/facilities" 1 None)
    ∧ facilityCache st1 = facilityCache initial
    ∧ effects st1
      = effects initial ++ [FetchCall "https://api.stockholmparkering.se/facilities"]
    ∧ ∀ (st2 : state) (pr : progress) (up : upstream) (t : Z),
        pending st2 !! p
        = Some (FacilitiesCall 0 "https://api.stockholmparkering.se/facilities" None,
                pr) →
        ∃ st3 r,
          complete (H := Sample.runtime) Sample.config p up t st2
          = (st3, ToFacilitiesCaller r)
          ∧ facilities_refresh (H := Sample.runtime) Sample.config 0
              (remainder None up pr).2 (facilityCache st2) r (facilityCache st3).
Proof.
  apply (proj2 (getFacilities_cases (H := Sample.runtime) Sample.config None 0 initial)).
  - intros c Hc. discriminate Hc.
  - reflexivity.
Qed.

(** C7, on a response one of whose records has an object with an own
    ["toString"] property as id: the record is not skipped; the
    normalizer's TypeError is what the caller gets, the well-formed
    neighbour is lost with it and nothing is stored. *)
Theorem getFacilities_fails_on_shadowed_toString :
  let st1 := (getFacilities (H := Sample.runtime) Sample.config None 0 initial).1 in
  let settled :=
    complete (H := Sample.runtime) Sample.config 0%nat
      (Sample.sends
         (JArr [Sample.slussen;
                Sample.facility Sample.shadowed_toString
                  [("lat", JNum (Finite 59)); ("lon", JNum (Finite 18))]]))
      50 st1 in
  settled.2 = ToFacilitiesCaller (Throw cannot_convert)
  ∧ facilityCache settled.1 = None.
Proof. cbn zeta. split; vm_compute; reflexivity. Qed.







(** C4. A live entry is returned with [stale:false] and the state is left
    as it is: nothing is sent.  An expired entry without handle is
    returned with [stale:true] at once; the call adds exactly one
    background refresh to the pending tasks, whose first request it
    sends, and marks the slot with its handle, value and [expiresAt]
    unchanged.  When that refresh succeeds, wherever it stood, the slot
    becomes an entry with [expiresAt = completion time +
    availabilityTtlMs] and no handle; when it fails, the handle is
    cleared, value and [expiresAt] stay, and the next call starts a new
    refresh. *)
Theorem getAvailability_swr `{Runtime} (config : ServiceConfig.t)
    (signal : option AbortSignal) (now : Z) (st : state)
    (c : AvailabilityCacheEntry.t) :
  availabilityCache st = Some c →
  (now < AvailabilityCacheEntry.expiresAt c →
   getAvailability config signal now st = (st, Returned (Ok (fresh_result c))))
  ∧ (AvailabilityCacheEntry.expiresAt c ≤ now →
     AvailabilityCacheEntry.revalidatePromise c = None →
     well_formed st →
     ∃ st1 p,
       getAvailability config signal now st = (st1, Returned (Ok (stale_result c)))
       ∧ availabilityCache st1 = Some (marked c p)
       ∧ pending st !! p = None
       ∧ pending st1
         = <[p := (Revalidation c signal, refresh_started config)]> (pending st)
       ∧ facilityCache st1 = facilityCache st
       ∧ effects st1 = effects st ++ refresh_request config
       ∧ ∀ (st2 : state) (pr : progress) (up : upstream) (t : Z),
           pending st2 !! p = Some (Revalidation c signal, pr) →
           ∃ st3,
             complete config p up t st2 = (st3, Nothing)
             ∧ pending st3 = delete p (pending st2)
             ∧ match refreshed signal up pr with
               | Ok data =>
                   availabilityCache st3
                   = Some (AvailabilityCacheEntry.mk data
                             (t + ServiceConfig.availabilityTtlMs config) None)
               | Throw _ =>
                   availabilityCache st2 = Some (marked c p) →
                   availabilityCache st3 = Some (unmarked c)
                   ∧ ∀ (signal' : option AbortSignal) (now' : Z),
                       AvailabilityCacheEntry.expiresAt c ≤ now' →
                       ∃ st4 p',
                         getAvailability config signal' now' st3
                         = (st4, Returned (Ok (stale_result c)))
                         ∧ availabilityCache st4 = Some (marked c p')
                         ∧ pending st4 !! p'
                           = Some (Revalidation (unmarked c) signal',
                                   refresh_started config)
               end).
Proof.
  intros Hc. split; [by apply getAvailability_live|].
  intros Hexp Hp Hwf.
  rewrite (getAvailability_expired config signal now st c Hc Hexp Hp).
  eexists _, _. split; [done|].
  cbn [revalidating availabilityCache pending facilityCache effects].
  split; [done|]. split; [by apply well_formed_fresh|].
  do 3 (split; [done|]).
  intros st2 pr up t Hp2. rewrite (complete_spec config _ up t st2 _ pr Hp2).
  cbn [resume_task signal_of]. fold (refreshed signal up pr).
  eexists. split; [done|].
  destruct (refreshed signal up pr) as [data|e]; cbn [revalidation_settled].
  - done.
  - cbn [availabilityCache emit forget pending fst].
    split; [by destruct (availabilityCache st2)|].
    intros Hentry. rewrite Hentry.
    cbn [availabilityCache set_availability fst]. split; [done|].
    intros signal' now' Hexp'.
    match goal with
    | |- context [getAvailability config signal' now' ?s] => set (st3 := s)
    end.
    rewrite (getAvailability_expired config signal' now' st3 (unmarked c)); [|done..].
    eexists _, _. split; [done|]. cbn [revalidating availabilityCache pending].
    split; [done|]. by rewrite lookup_insert_eq.
Qed.

Lemma getAvailability_swr_witness :
  let c := AvailabilityCacheEntry.mk ∅ 100 None in
  ∃ st1 p,
    getAvailability (H := Sample.runtime) Sample.config None 200 Sample.expired_idle
    = (st1, Returned (Ok (stale_result c)))
    ∧ availabilityCache st1 = Some (marked c p)
    ∧ pending Sample.expired_idle !! p = None
    ∧ pending st1
      = <[p := (Revalidation c None,
                refresh_started (H := Sample.runtime) Sample.config)]>
          (pending Sample.expired_idle)
    ∧ facilityCache st1 = facilityCache Sample.expired_idle
    ∧ effects st1
      = effects Sample.expired_idle
          ++ refresh_request (H := Sample.runtime) Sample.config
    ∧ ∀ (st2 : state) (pr : progress) (up : upstream) (t : Z),
        pending st2 !! p = Some (Revalidation c None, pr) →
        ∃ st3,
          complete (H := Sample.runtime) Sample.config p up t st2 = (st3, Nothing)
          ∧ pending st3 = delete p (pending st2)
          ∧ match refreshed (H := Sample.runtime) None up pr with
            | Ok data =>
                availabilityCache st3
                = Some (AvailabilityCacheEntry.mk data
                          (t + ServiceConfig.availabilityTtlMs Sample.config) None)
            | Throw _ =>
                availabilityCache st2 = Some (marked c p) →
                availabilityCache st3 = Some (unmarked c)
                ∧ ∀ (signal' : option AbortSignal) (now' : Z),
                    AvailabilityCacheEntry.expiresAt c ≤ now' →
                    ∃ st4 p',
                      getAvailability (H := Sample.runtime) Sample.config signal' now'
                        st3
                      = (st4, Returned (Ok (stale_result c)))
                      ∧ availabilityCache st4 = Some (marked c p')
                      ∧ pending st4 !! p'
                        = Some (Revalidation (unmarked c) signal',
                                refresh_started (H := Sample.runtime) Sample.config)
            end.
Proof.
  apply (proj2 (getAvailability_swr (H := Sample.runtime) Sample.config None 200
                  Sample.expired_idle (AvailabilityCacheEntry.mk ∅ 100 None) eq_refl)).
  - cbn. lia.
  - reflexivity.
  - intros p [k Hk]. cbn in Hk. rewrite lookup_empty in Hk. discriminate Hk.
Defined.

(** C2, on a race the claim covers.  Two callers find the slot empty and
    each starts its own fetch.  The second caller's request is answered,
    and its snapshot is in the slot, live, when the first caller's
    requests have all been answered 404.  The first caller is handed the
    error, not the snapshot: the [catch] block looks at the entry it read
    before it waited, which is [undefined] whenever this block is
    reached.  Nothing is logged as a fallback, and the slot is left as it
    was. *)
Theorem getAvailability_error_despite_snapshot :
  let url := "https://api.stockholmparkering.se/availability" in
  let st :=
    run (H := Sample.runtime) Sample.short_ttl
      [CallAvailability None 0; CallAvailability None 10;
       Respond 1%nat (Sample.sends (Sample.availability "p1" 12) 1) 100]
      initial in
  let settled :=
    complete (H := Sample.runtime) Sample.short_ttl 0%nat (Sample.answers 404 "gone")
      900 st in
  let snapshot :=
    Some (AvailabilityCacheEntry.mk (Sample.snapshot "p1" 12) 5010 None) in
  fst <$> pending st !! 0%nat = Some (AvailabilityCall 0 None None)
  ∧ availabilityCache st = snapshot
  ∧ settled.2
    = ToAvailabilityCaller (Throw (Error "Request failed with status 404: gone"))
  ∧ availabilityCache settled.1 = snapshot
  ∧ filter (λ e, is_log_error e = true) (effects settled.1) = [].
Proof. cbn zeta. repeat split; vm_compute; reflexivity. Qed.

(** A batch of four items: two records, one without latitude, one that
    is no object. *)
Example getFacilities_batch :
  let st1 := (getFacilities (H := Sample.runtime) Sample.config None 0 initial).1 in
  let settled :=
    complete (H := Sample.runtime) Sample.config 0%nat
      (Sample.sends (JArr [Sample.slussen; Sample.no_latitude; JNum (Finite 3);
                           Sample.empty_array_id])) 50 st1 in
  let facilities :=
    [FacilityMetadata.mk "7" "Slussen" (Finite 59) (Finite 18) None None None
       "https://api.stockholmparkering.se/facilities";
     FacilityMetadata.mk "" "Gallerian" (Finite 59) (Finite 18) None None None
       "https://api.stockholmparkering.se/facilities"] in
  settled.2 = ToFacilitiesCaller (Ok facilities)
  ∧ facilityCache settled.1 = Some (CacheEntry.mk facilities 86400000).
Proof. cbn zeta. split; vm_compute; reflexivity. Qed.

(** Stale-while-revalidate, start to end, with a TTL of 5 s. *)
Example swr_cycle_states :
  let after n :=
    run (H := Sample.runtime) Sample.short_ttl (take n Sample.swr_cycle) initial in
  availabilityCache (after 2%nat)
  = Some (AvailabilityCacheEntry.mk (Sample.snapshot "p1" 12) 5000 None)
  ∧ availabilityCache (after 3%nat)
    = Some (AvailabilityCacheEntry.mk (Sample.snapshot "p1" 12) 5000 (Some 1%nat))
  ∧ after 4%nat = after 3%nat
  ∧ availabilityCache (after 5%nat)
    = Some (AvailabilityCacheEntry.mk (Sample.snapshot "p1" 11) 11000 None)
  ∧ pending (after 5%nat) = ∅
  ∧ requests_and_sleeps (effects (after 5%nat))
    = [FetchCall "https://api.stockholmparkering.se/availability";
       FetchCall "https://api.stockholmparkering.se/availability"].
Proof. cbn zeta. repeat split; vm_compute; reflexivity. Qed.

End CacheProps.

(** * Further properties

    Properties of the code read off the source itself: of the functions
    above that the specification is silent about, and of the rest of the
    program. *)

(** ** Retrying fetcher: success and cancellation *)

Module FetcherFacts.
Import Js Fetcher Spec Notions FetcherProps.

Section Loop.
Variables (url : string) (externalSignal : option AbortSignal) (up : upstream).

Lemma attempts_success remaining attempt lastError r v :
  outcome (up attempt) = Responded r → ok r = true → json_body r = Ok v →
  attempts url externalSignal up (S remaining) attempt lastError
  = ([FetchCall url], Ok v).
Proof.
  intros Hout Hok Hjson. cbn [attempts]. by rewrite Hout, Hok, Hjson.
Qed.

Lemma succeeds_inv a :
  succeeds a = true →
  ∃ r v, outcome a = Responded r ∧ ok r = true ∧ json_body r = Ok v.
Proof.
  unfold succeeds. destruct (outcome a) as [r|e]; [|discriminate].
  destruct (ok r) eqn:Hok; cbn [andb]; [|discriminate].
  destruct (json_body r) as [v|] eqn:Hv; cbn [is_Ok]; [|discriminate].
  intros _. by exists r, v.
Qed.

(** A failed attempt before the last, the caller's signal not being
    aborted: the loop logs, sleeps and goes on. *)
Lemma attempts_retry remaining attempt lastError :
  succeeds (up attempt) = false → attempt < MAX_ATTEMPTS →
  (∀ sig, externalSignal = Some sig → sig attempt = None) →
  ∃ entry lastError',
    let rest := attempts url externalSignal up remaining (attempt + 1) lastError' in
    is_request_or_sleep entry = false
    ∧ attempts url externalSignal up (S remaining) attempt lastError
      = (FetchCall url :: entry :: Sleep (delay_after attempt) :: rest.1, rest.2).
Proof.
  intros Hfail Hlt Hsig. cbn [attempts].
  set (next := attempts url externalSignal up remaining (attempt + 1)).
  assert (∀ e, ∃ entry,
            is_request_or_sleep entry = false
            ∧ catch_block url externalSignal up attempt e next
              = (entry :: Sleep (delay_after attempt) :: (next (Some e)).1,
                 (next (Some e)).2)) as Hcatch.
  { intros e. unfold catch_block.
    destruct (next (Some e)) as [effs res].
    destruct (Z.leb_spec MAX_ATTEMPTS attempt); [lia|].
    destruct externalSignal as [sig|]; [rewrite (Hsig sig eq_refl)|];
      cbn [orb andb]; rewrite ?andb_false_r; eexists; (split; [|reflexivity]);
      reflexivity. }
  unfold succeeds in Hfail.
  destruct (outcome (up attempt)) as [response|error].
  - destruct (ok response) eqn:Hok; cbn [negb].
    + destruct (json_body response) as [v|error]; [done|].
      destruct (Hcatch error) as (entry & Hentry & ->).
      by exists entry, (Some error).
    + destruct (bool_decide _ && _).
      * destruct (next lastError) as [effs res] eqn:Hnext.
        eexists _, lastError. rewrite Hnext. split; [|reflexivity]. done.
      * destruct (text response) as [body|error].
        -- destruct (Hcatch (Error ("Request failed with status "
                                      +:+ pretty (status response) +:+ ": " +:+ body)))
             as (entry & Hentry & ->).
           by eexists entry, _.
        -- destruct (Hcatch error) as (entry & Hentry & ->).
           by exists entry, (Some error).
  - destruct (Hcatch error) as (entry & Hentry & ->).
    by exists entry, (Some error).
Qed.

(** A request that is rejected while the caller's signal is aborted. *)
Lemma attempts_aborted remaining attempt lastError sig r e :
  externalSignal = Some sig → sig attempt = Some r →
  outcome (up attempt) = Rejected e →
  attempts url externalSignal up (S remaining) attempt lastError
  = ([FetchCall url], Throw (abortError r)).
Proof.
  intros -> Hsig Hout. cbn [attempts]. rewrite Hout. unfold catch_block.
  rewrite Hsig. cbn [orb andb]. reflexivity.
Qed.

(** The loop ends at attempt [k] if every attempt before it failed while
    the caller's signal was not aborted. *)
Lemma fetchWithRetries_ends_at k res :
  1 ≤ k ≤ 3 → quiet_before externalSignal up k →
  (∀ remaining lastError,
     attempts url externalSignal up (S remaining) k lastError
     = ([FetchCall url], res)) →
  (fetchWithRetries url externalSignal up).2 = res
  ∧ requests_and_sleeps (fetchWithRetries url externalSignal up).1
    = schedule url (Z.to_nat k) 1.
Proof.
  intros Hk Hquiet Hend. unfold fetchWithRetries.
  change (Z.to_nat MAX_ATTEMPTS) with 3%nat.
  assert (k = 1 ∨ k = 2 ∨ k = 3) as [->|[->| ->]] by lia.
  - by rewrite Hend.
  - destruct (Hquiet 1) as [Hfail Hsig]; [lia|].
    destruct (attempts_retry 2 1 None Hfail) as (entry & lastError & Hentry & ->);
      [done|done|].
    change (1 + 1) with 2. rewrite Hend. cbn [fst snd]. split; [done|].
    rewrite !requests_and_sleeps_cons, Hentry. reflexivity.
  - destruct (Hquiet 1) as [Hfail1 Hsig1]; [lia|].
    destruct (Hquiet 2) as [Hfail2 Hsig2]; [lia|].
    destruct (attempts_retry 2 1 None Hfail1) as (entry1 & lastError1 & Hentry1 & ->);
      [done|done|].
    change (1 + 1) with 2.
    destruct (attempts_retry 1 2 lastError1 Hfail2)
      as (entry2 & lastError2 & Hentry2 & ->); [done|done|].
    change (2 + 1) with 3. rewrite Hend. cbn [fst snd]. split; [done|].
    rewrite !requests_and_sleeps_cons, Hentry1, Hentry2. reflexivity.
Qed.

Lemma never_aborted_quiet k :
  never_aborted externalSignal →
  (∀ j, 1 ≤ j < k → succeeds (up j) = false) →
  quiet_before externalSignal up k.
Proof.
  intros Hsig Hfail j Hj. split; [by apply Hfail|].
  intros sig ->. apply Hsig.
Qed.

(** A returned value is the parsed body of the first attempt that is
    answered 2xx with a body that parses. *)
Lemma fetchWithRetries_Ok_inv v :
  (fetchWithRetries url externalSignal up).2 = Ok v →
  ∃ k r, 1 ≤ k ≤ 3
         ∧ (∀ j, 1 ≤ j < k → succeeds (up j) = false)
         ∧ outcome (up k) = Responded r ∧ ok r = true ∧ json_body r = Ok v
         ∧ requests_and_sleeps (fetchWithRetries url externalSignal up).1
           = schedule url (Z.to_nat k) 1.
Proof.
  unfold fetchWithRetries. change (Z.to_nat MAX_ATTEMPTS) with 3%nat.
  assert (∀ remaining attempt lastError,
            succeeds (up attempt) = true →
            (attempts url externalSignal up (S remaining) attempt lastError).2 = Ok v →
            ∃ r, outcome (up attempt) = Responded r ∧ ok r = true
                 ∧ json_body r = Ok v
                 ∧ attempts url externalSignal up (S remaining) attempt lastError
                   = ([FetchCall url], Ok v)) as Hnow.
  { intros remaining attempt lastError (r & v' & Hout & Hok & Hjson)%succeeds_inv.
    rewrite (attempts_success remaining attempt lastError r v') by done.
    intros [= ->]. by exists r. }
  destruct (attempts_step url externalSignal up 2 1 None)
    as [(Hs1 & _)|[(_ & _ & r & Hr)|[(_ & ? & _)
       |(Hf1 & _ & entry1 & lastError1 & Hentry1 & H1 & H1')]]].
  - intros Hv. destruct (Hnow _ _ _ Hs1 Hv) as (r & ? & ? & ? & ->).
    exists 1, r. repeat split; try done; lia.
  - cbv zeta in Hr. rewrite Hr. done.
  - unfold MAX_ATTEMPTS in *. lia.
  - cbv zeta in H1, H1'. rewrite H1, H1'. change (1 + 1) with 2 in *.
    destruct (attempts_step url externalSignal up 1 2 lastError1)
      as [(Hs2 & _)|[(_ & _ & r & Hr)|[(_ & ? & _)
         |(Hf2 & _ & entry2 & lastError2 & Hentry2 & H2 & H2')]]].
    + intros Hv. destruct (Hnow _ _ _ Hs2 Hv) as (r & ? & ? & ? & ->).
      exists 2, r. split; [lia|]. split.
      { intros j Hj. by replace j with 1 by lia. }
      repeat split; try done.
      rewrite !requests_and_sleeps_cons, Hentry1. reflexivity.
    + cbv zeta in Hr. rewrite Hr. done.
    + unfold MAX_ATTEMPTS in *. lia.
    + cbv zeta in H2, H2'. rewrite H2, H2'. change (2 + 1) with 3 in *.
      destruct (attempts_step url externalSignal up 0 3 lastError2)
        as [(Hs3 & _)|[(_ & _ & r & Hr)|[(_ & _ & _ & e & _ & Hr)
           |(_ & ? & _)]]].
      * intros Hv. destruct (Hnow _ _ _ Hs3 Hv) as (r & ? & ? & ? & ->).
        exists 3, r. split; [lia|]. split.
        { intros j Hj. assert (j = 1 ∨ j = 2) as [->| ->] by lia; done. }
        repeat split; try done.
        rewrite !requests_and_sleeps_cons, Hentry1, Hentry2. reflexivity.
      * cbv zeta in Hr. rewrite Hr. done.
      * cbv zeta in Hr. rewrite Hr. done.
      * unfold MAX_ATTEMPTS in *. lia.
Qed.

(** The fetcher logs at level [info] only. *)
Lemma fetchWithRetries_no_log_error :
  Forall (λ e, is_log_error e = false) (fetchWithRetries url externalSignal up).1.
Proof.
  unfold fetchWithRetries. generalize (Z.to_nat MAX_ATTEMPTS) 1 (@None exn).
  intros remaining. induction remaining as [|remaining IH]; intros attempt lastError;
    [constructor|].
  cbn [attempts].
  set (next := attempts url externalSignal up remaining (attempt + 1)) in *.
  assert (∀ e, Forall (λ e, is_log_error e = false)
                 (catch_block url externalSignal up attempt e next).1) as Hcatch.
  { intros e. unfold catch_block.
    pose proof (IH (attempt + 1) (Some e)) as IHe. fold next in IHe.
    destruct (next (Some e)) as [effs res].
    destruct (_ && _); [destruct (match externalSignal with Some _ => _ | None => _ end)|];
      destruct (MAX_ATTEMPTS <=? attempt); cbn [fst]; repeat constructor; done. }
  destruct (outcome (up attempt)) as [response|error].
  - destruct (negb (ok response)).
    + destruct (bool_decide _ && _).
      * pose proof (IH (attempt + 1) lastError) as IHe. fold next in IHe.
        destruct (next lastError) as [effs res]. cbn [fst]. repeat constructor; done.
      * destruct (text response) as [body|error].
        -- specialize (Hcatch (Error ("Request failed with status "
                                 +:+ pretty (status response) +:+ ": " +:+ body))).
           destruct (catch_block _ _ _ _ _ _). cbn [fst] in *. by constructor.
        -- specialize (Hcatch error).
           destruct (catch_block _ _ _ _ _ _). cbn [fst] in *. by constructor.
    + destruct (json_body response) as [v|error]; [repeat constructor|].
      specialize (Hcatch error).
      destruct (catch_block _ _ _ _ _ _). cbn [fst] in *. by constructor.
  - specialize (Hcatch error).
    destruct (catch_block _ _ _ _ _ _). cbn [fst] in *. by constructor.
Qed.

(** Every call sends at least one request. *)
Lemma fetchWithRetries_sends :
  ∃ rest, (fetchWithRetries url externalSignal up).1 = FetchCall url :: rest.
Proof.
  unfold fetchWithRetries. change (Z.to_nat MAX_ATTEMPTS) with 3%nat.
  cbn [attempts].
  destruct (match outcome (up 1) with Responded _ => _ | Rejected _ => _ end)
    as [effs res].
  by exists effs.
Qed.
End Loop.

(** X1. When the caller's signal never fires, [fetchWithRetries] returns
    a value exactly when one of the three attempts is answered 2xx with a
    body that parses as JSON, all attempts before it having failed; the
    value is that body, and the requests sent are those up to that
    attempt, with the back-off sleeps between them.  A 2xx answer whose
    body does not parse counts as a failed attempt. *)
Theorem fetchWithRetries_first_success
    (url : string) (externalSignal : option AbortSignal) (up : upstream) (v : json) :
  never_aborted externalSignal →
  (fetchWithRetries url externalSignal up).2 = Ok v
  ↔ ∃ k r, 1 ≤ k ≤ 3
           ∧ (∀ j, 1 ≤ j < k → succeeds (up j) = false)
           ∧ outcome (up k) = Responded r ∧ ok r = true ∧ json_body r = Ok v
           ∧ requests_and_sleeps (fetchWithRetries url externalSignal up).1
             = schedule url (Z.to_nat k) 1.
Proof.
  intros Hsig. split; [apply fetchWithRetries_Ok_inv|].
  intros (k & r & Hk & Hfail & Hout & Hok & Hjson & _).
  apply (fetchWithRetries_ends_at url externalSignal up k); [done| |].
  - by apply never_aborted_quiet.
  - intros remaining lastError. by eapply attempts_success.
Qed.

Lemma fetchWithRetries_first_success_witness :
  (fetchWithRetries "u" None (Sample.sends_at_last JNull)).2 = Ok JNull
  ↔ ∃ k r, 1 ≤ k ≤ 3
           ∧ (∀ j, 1 ≤ j < k → succeeds (Sample.sends_at_last JNull j) = false)
           ∧ outcome (Sample.sends_at_last JNull k) = Responded r
           ∧ ok r = true ∧ json_body r = Ok JNull
           ∧ requests_and_sleeps
               (fetchWithRetries "u" None (Sample.sends_at_last JNull)).1
             = schedule "u" (Z.to_nat k) 1.
Proof.
  apply (fetchWithRetries_first_success "u" None (Sample.sends_at_last JNull) JNull).
  exact I.
Defined.

(** X2. Cancellation ends the retries.  If the [k]-th request is rejected
    while the caller's signal is aborted - the earlier attempts having
    failed without it - [fetchWithRetries] throws at once: no further
    request, no sleep.  What it throws is the signal's reason (the reason
    itself when that is an Error), not the error of the request. *)
Theorem fetchWithRetries_abort
    (url : string) (sig : AbortSignal) (up : upstream) (k : Z) (r : reason) (e : exn) :
  1 ≤ k ≤ 3 →
  (∀ j, 1 ≤ j < k → succeeds (up j) = false ∧ sig j = None) →
  sig k = Some r →
  outcome (up k) = Rejected e →
  (fetchWithRetries url (Some sig) up).2 = Throw (abortError r)
  ∧ requests_and_sleeps (fetchWithRetries url (Some sig) up).1
    = schedule url (Z.to_nat k) 1.
Proof.
  intros Hk Hquiet Hsig Hout.
  apply (fetchWithRetries_ends_at url (Some sig) up k); [done| |].
  - intros j Hj. destruct (Hquiet j Hj) as [? ?]. split; [done|].
    by intros ? [= <-].
  - intros remaining lastError. by eapply attempts_aborted.
Qed.

Lemma fetchWithRetries_abort_witness :
  (fetchWithRetries "u" (Some Fixture.timed_out) Fixture.rejects).2
  = Throw (Error "Operation timed out")
  ∧ requests_and_sleeps (fetchWithRetries "u" (Some Fixture.timed_out) Fixture.rejects).1
    = [FetchCall "u"].
Proof.
  apply (fetchWithRetries_abort "u" Fixture.timed_out Fixture.rejects 1
           (ReasonError (Error "Operation timed out"))
           (Error "This operation was aborted")).
  - lia.
  - intros j Hj. lia.
  - reflexivity.
  - reflexivity.
Defined.

End FetcherFacts.

(** ** Normalizers: what the records they return hold *)

Module NormalizerFacts.
Import Js Fetcher Normalizer Cache Spec Notions.

Section WithRuntime.
Context `{Runtime}.

Lemma toNumberOrNull_finite v n :
  toNumberOrNull v = Ok n → finite_or_null n.
Proof.
  unfold toNumberOrNull. destruct (nullish v); [by intros [= <-] x|].
  destruct (Number_ v) as [num|e]; cbn [mbind result_bind]; [|done].
  destruct (isFinite num) eqn:Hfin; intros [= <-] x; [|done].
  by intros [= <-].
Qed.

Lemma toStringOrNull_nonempty v s :
  toStringOrNull v = Ok s → nonempty_or_null s.
Proof.
  unfold toStringOrNull. destruct (nullish v); [by intros [= <-]|].
  destruct (String_ v) as [str|e]; cbn [mbind result_bind]; [|done].
  destruct (0 <? String.length str)%nat eqn:Hlen; intros [= <-]; [|done].
  intros [= ->]. done.
Qed.

Ltac bind_inv Hn x Hx :=
  match type of Hn with
  | context [@mbind result _ _ _ _ ?m] =>
      destruct m as [x|] eqn:Hx; cbn [mbind result_bind] in Hn; [|discriminate Hn]
  end.

Lemma normalizeAvailability_ok raw a :
  normalizeAvailability raw = Ok (Some a) → availability_ok a.
Proof.
  unfold normalizeAvailability. cbn zeta. intros Hn.
  destruct (negb _); [discriminate Hn|].
  bind_inv Hn freeSpaces Hfree. bind_inv Hn capacity Hcapacity.
  bind_inv Hn lastUpdated Hupdated. bind_inv Hn fid Hid.
  injection Hn as <-.
  repeat split; cbn;
    eauto using toNumberOrNull_finite, toStringOrNull_nonempty.
Qed.

Lemma normalizeFacilityMetadata_ok raw config f :
  normalizeFacilityMetadata raw config = Ok (Some f) →
  facility_ok f
  ∧ (FacilityMetadata.sourceUrl f = "" →
     ServiceConfig.baseUrl config +:+ ServiceConfig.facilitiesPath config = "").
Proof.
  unfold normalizeFacilityMetadata. cbn zeta. intros Hn.
  destruct (negb _ || _ || _ || _); [discriminate Hn|].
  bind_inv Hn lat Hlat. bind_inv Hn lon Hlon.
  destruct (negb (isFinite lat) || negb (isFinite lon)) eqn:Hfin; [discriminate Hn|].
  apply orb_false_iff in Hfin as [Hflat%negb_false_iff Hflon%negb_false_iff].
  bind_inv Hn capacity Hcapacity. bind_inv Hn tariffNote Htariff.
  bind_inv Hn zoneCode Hzone. bind_inv Hn url Hurl.
  bind_inv Hn fid Hid. bind_inv Hn name Hname.
  injection Hn as <-.
  split.
  - repeat split; cbn;
      eauto using toNumberOrNull_finite, toStringOrNull_nonempty.
  - cbn. destruct url as [url|]; cbn; [|done].
    intros ->. by apply toStringOrNull_nonempty in Hurl.
Qed.

Lemma normalizeAvailability_non_object item :
  isObject item = false → normalizeAvailability item = Ok None.
Proof. by destruct item. Qed.

(** The loop of [refreshAvailability] stores the records one after the
    other, unless the normalizer throws on an item. *)
Lemma collectAvailability_cases rawData m :
  match collectAvailability rawData m with
  | Ok m' => m' = store_all (availability_records rawData) m
  | Throw e => ∃ item, item ∈ rawData ∧ normalizeAvailability item = Throw e
  end.
Proof.
  revert m. induction rawData as [|item rawData IH]; intros m; [done|].
  cbn [collectAvailability]. unfold availability_records. cbn [omap list_omap].
  change (list_omap ?f ?l) with (omap f l).
  fold (availability_records rawData).
  destruct (isObject item) eqn:Hobj; cbn [negb].
  - destruct (normalizeAvailability item) as [[a|]|e] eqn:Hitem;
      cbn [mbind result_bind].
    + specialize (IH (<[FacilityAvailability.id a := a]> m)).
      destruct (collectAvailability rawData _); [done|].
      destruct IH as (item' & ? & ?). exists item'. split; [by right|done].
    + specialize (IH m). destruct (collectAvailability rawData _); [done|].
      destruct IH as (item' & ? & ?). exists item'. split; [by right|done].
    + exists item. split; [by left|done].
  - rewrite (normalizeAvailability_non_object item Hobj).
    specialize (IH m). destruct (collectAvailability rawData _); [done|].
    destruct IH as (item' & ? & ?). exists item'. split; [by right|done].
Qed.

Lemma store_all_lookup records m k :
  store_all records m !! k
  = match last (with_id k records) with
    | Some a => Some a
    | None => m !! k
    end.
Proof.
  revert m. induction records as [|a records IH]; intros m; [done|].
  cbn [store_all foldl]. fold (store_all records (<[FacilityAvailability.id a := a]> m)).
  rewrite IH. unfold with_id. rewrite filter_cons.
  destruct (decide (FacilityAvailability.id a = k)) as [<-|Hne].
  - rewrite last_cons. destruct (last (filter _ records)); [done|].
    by rewrite lookup_insert_eq.
  - destruct (last (filter _ records)); [done|]. by rewrite lookup_insert_ne.
Qed.

Lemma availability_records_spec rawData a :
  a ∈ availability_records rawData →
  ∃ item, item ∈ rawData ∧ normalizeAvailability item = Ok (Some a).
Proof.
  unfold availability_records. intros (item & Hin & Hitem)%list_elem_of_omap.
  exists item. split; [done|].
  by destruct (normalizeAvailability item) as [[a'|]|]; simplify_eq.
Qed.

Lemma store_all_snapshot_ok rawData :
  snapshot_ok (store_all (availability_records rawData) ∅).
Proof.
  intros k a. rewrite store_all_lookup, lookup_empty.
  destruct (last _) as [a'|] eqn:Hlast; [|done]. intros [= ->].
  apply last_Some_elem_of in Hlast.
  apply list_elem_of_filter in Hlast as [Hid Hin]. split; [done|].
  apply availability_records_spec in Hin as (item & _ & Hitem).
  by eapply normalizeAvailability_ok.
Qed.

Variable config : ServiceConfig.t.

Lemma refreshAvailability_Ok_inv signal up data :
  (refreshAvailability config signal up).2 = Ok data →
  ∃ url rawData,
    buildUrl (ServiceConfig.baseUrl config) (ServiceConfig.availabilityPath config)
    = Ok url
    ∧ (fetchWithRetries url signal up).2 = Ok (JArr rawData)
    ∧ data = store_all (availability_records rawData) ∅.
Proof.
  unfold refreshAvailability.
  destruct (buildUrl _ _) as [url|e]; [|done].
  destruct (fetchWithRetries url signal up) as [effs fetched] eqn:Hfetch. cbn [snd].
  destruct fetched as [v|e]; [|done].
  destruct v as [| | | |rawData|]; try done.
  pose proof (collectAvailability_cases rawData ∅) as Hc.
  intros Hdata. rewrite Hdata in Hc. exists url, rawData.
  by rewrite Hfetch.
Qed.

Lemma refreshAvailability_no_log_error signal up :
  Forall (λ e, is_log_error e = false) (refreshAvailability config signal up).1.
Proof.
  unfold refreshAvailability.
  destruct (buildUrl _ _) as [url|e]; [|constructor].
  pose proof (FetcherFacts.fetchWithRetries_no_log_error url signal up) as Hf.
  by destruct (fetchWithRetries url signal up).
Qed.

Lemma refreshAvailability_snapshot_ok signal up data :
  (refreshAvailability config signal up).2 = Ok data → snapshot_ok data.
Proof.
  intros (url & rawData & _ & _ & ->)%refreshAvailability_Ok_inv.
  apply store_all_snapshot_ok.
Qed.

Lemma normalizeFacilities_ok rawData facilities :
  normalizeFacilities rawData config = Ok facilities →
  Forall facility_ok facilities.
Proof.
  intros Hn. pose proof (CacheProps.normalizeFacilities_cases config rawData) as Hc.
  rewrite Hn in Hc. destruct Hc as [-> _].
  apply Forall_forall. intros f. unfold kept_facilities.
  intros (item & _ & Hitem)%list_elem_of_omap.
  destruct (normalizeFacilityMetadata item config) as [[f'|]|] eqn:Hf; simplify_eq.
  by eapply normalizeFacilityMetadata_ok.
Qed.
End WithRuntime.

(** X3. The map [refreshAvailability] returns holds, under each id, the
    record of the last item of the response that normalizes to a record
    with that id: of two items naming one facility the later one wins,
    and an item that normalizes to no record leaves no trace.  Every
    record is stored under its own id. *)
Theorem refreshAvailability_last_wins `{Runtime} (config : ServiceConfig.t)
    (signal : option AbortSignal) (up : upstream) (data : AvailabilityMap) :
  (refreshAvailability config signal up).2 = Ok data →
  ∃ url rawData,
    buildUrl (ServiceConfig.baseUrl config) (ServiceConfig.availabilityPath config)
    = Ok url
    ∧ (fetchWithRetries url signal up).2 = Ok (JArr rawData)
    ∧ (∀ k, data !! k = last (with_id k (availability_records rawData)))
    ∧ (∀ k a, data !! k = Some a → FacilityAvailability.id a = k).
Proof.
  intros Hdata. pose proof (refreshAvailability_snapshot_ok config _ _ _ Hdata) as Hok.
  apply refreshAvailability_Ok_inv in Hdata as (url & rawData & Hurl & Hfetch & ->).
  exists url, rawData. split; [done|]. split; [done|]. split.
  - intros k. rewrite store_all_lookup, lookup_empty. by destruct (last _).
  - intros k a Hk. by destruct (Hok k a Hk).
Qed.

Lemma refreshAvailability_last_wins_witness :
  ∃ url rawData,
    buildUrl (H := Sample.runtime) (ServiceConfig.baseUrl Sample.config)
      (ServiceConfig.availabilityPath Sample.config) = Ok url
    ∧ (fetchWithRetries url None (Sample.sends Fixture.twice)).2 = Ok (JArr rawData)
    ∧ (∀ k, ({["p1" := Fixture.p1_free_5]} : AvailabilityMap) !! k
            = last (with_id k (availability_records (H := Sample.runtime) rawData)))
    ∧ (∀ k a, ({["p1" := Fixture.p1_free_5]} : AvailabilityMap) !! k = Some a →
              FacilityAvailability.id a = k).
Proof.
  apply (refreshAvailability_last_wins (H := Sample.runtime) Sample.config None
           (Sample.sends Fixture.twice) {["p1" := Fixture.p1_free_5]}).
  vm_compute. reflexivity.
Defined.

(** X4. A facility record that [normalizeFacilityMetadata] returns has
    finite coordinates; its capacity is a finite number or [null], its
    tariff note and zone code are non-empty strings or [null], and its
    source URL is empty only if the configured endpoint is.  An
    availability record that [normalizeAvailability] returns has finite
    numbers or [null] as free spaces and capacity, and a non-empty string
    or [null] as time of the last update. *)
Theorem normalizers_finite_or_null `{Runtime} (config : ServiceConfig.t) :
  (∀ (raw : json) (f : FacilityMetadata.t),
     normalizeFacilityMetadata raw config = Ok (Some f) →
     isFinite (FacilityMetadata.lat f) = true
     ∧ isFinite (FacilityMetadata.lon f) = true
     ∧ finite_or_null (FacilityMetadata.capacity f)
     ∧ nonempty_or_null (FacilityMetadata.tariffNote f)
     ∧ nonempty_or_null (FacilityMetadata.zoneCode f)
     ∧ (FacilityMetadata.sourceUrl f = "" →
        ServiceConfig.baseUrl config +:+ ServiceConfig.facilitiesPath config = ""))
  ∧ (∀ (raw : json) (a : FacilityAvailability.t),
       normalizeAvailability raw = Ok (Some a) →
       finite_or_null (FacilityAvailability.freeSpaces a)
       ∧ finite_or_null (FacilityAvailability.capacity a)
       ∧ nonempty_or_null (FacilityAvailability.lastUpdated a)).
Proof.
  split.
  - intros raw f [(? & ? & ? & ? & ?) ?]%normalizeFacilityMetadata_ok. done.
  - intros raw a Ha. by apply normalizeAvailability_ok in Ha.
Qed.

End NormalizerFacts.

(** ** The two caches: invariants and compositions *)

Module CacheFacts.
Import Js Fetcher Normalizer Cache Spec Notions CacheProps NormalizerFacts.

Section WithRuntime.
Context `{Runtime}.
Variable config : ServiceConfig.t.

Lemma caches_sound_same st st' :
  facilityCache st' = facilityCache st →
  availabilityCache st' = availabilityCache st →
  caches_sound st → caches_sound st'.
Proof. unfold caches_sound. by intros -> ->. Qed.

Lemma refreshAvailability_resume_ok fetched data :
  refreshAvailability_resume fetched = Ok data → snapshot_ok data.
Proof.
  unfold refreshAvailability_resume. destruct fetched as [v|e]; [|done].
  destruct v as [| | | |rawData|]; try done.
  pose proof (collectAvailability_cases rawData ∅) as Hc.
  intros Hdata. rewrite Hdata in Hc. subst data. apply store_all_snapshot_ok.
Qed.

(** The code that awaited a request sequence stores well-formed records
    only. *)
Lemma caches_sound_resume k fetched t st :
  caches_sound st → caches_sound (resume_task config k fetched t st).1.
Proof.
  intros Hst. pose proof Hst as [Hfac Hav].
  destruct k as [cached signal|now cached signal|now url signal]; cbn [resume_task].
  - pose proof (refreshAvailability_resume_ok fetched) as Hr.
    destruct (refreshAvailability_resume fetched) as [data|e];
      cbn [fst revalidation_settled].
    + split; [done|]. cbn. intros c [= <-]. cbn. by apply Hr.
    + cbn [availabilityCache emit].
      destruct (availabilityCache st) as [c|] eqn:Hc.
      * split; [done|]. cbn. intros c' [= <-]. cbn. by apply Hav.
      * by eapply caches_sound_same; [..|exact Hst].
  - pose proof (refreshAvailability_resume_ok fetched) as Hr.
    destruct (refreshAvailability_resume fetched) as [data|e];
      cbn [fst getAvailability_resume].
    + split; [done|]. cbn. intros c [= <-]. cbn. by apply Hr.
    + destruct cached; cbn [fst]; by eapply caches_sound_same; [..|exact Hst].
  - unfold getFacilities_resume.
    destruct fetched as [v|e]; [|done].
    destruct v as [| | | |rawData|]; try done.
    pose proof (normalizeFacilities_ok config rawData) as Hn.
    destruct (normalizeFacilities rawData config) as [facilities|e]; [|done].
    split; [|done]. cbn. intros c [= <-]. cbn. by apply Hn.
Qed.

Lemma caches_sound_turn p st r :
  turn config p st r → caches_sound st → caches_sound r.1.
Proof.
  intros [|k pr pr' effs Hp _|k pr fetched t Hp] Hst; [done|done|].
  by apply caches_sound_resume.
Qed.

Lemma caches_sound_step ev st :
  caches_sound st → caches_sound (step config ev st).
Proof.
  intros Hst. pose proof Hst as [Hfac Hav].
  destruct ev as [signal now|signal now|p env t|p t]; cbn [step].
  - destruct (getAvailability_cases config signal now st)
      as [->|[(c & Hc & _ & _ & ->)|[_ ->]]]; [done| |done].
    split; [done|]. cbn. intros c' [= <-]. cbn. by apply Hav.
  - by destruct (getFacilities_step_cases config signal now st) as [->|[url ->]].
  - apply (caches_sound_turn p st _ (respond_turn config p env t st) Hst).
  - apply (caches_sound_turn p st _ (proj1 (resume_turn config p t st)) Hst).
Qed.

Lemma caches_sound_run evs st :
  caches_sound st → caches_sound (run config evs st).
Proof.
  revert st. induction evs as [|ev evs IH]; intros st Hst; [done|].
  cbn [run fold_left]. by apply IH, caches_sound_step.
Qed.

Lemma caches_sound_initial : caches_sound initial.
Proof. split; intros c Hc; discriminate Hc. Qed.

Lemma not_log_error_not_fell_back effs :
  Forall (λ e, is_log_error e = false) effs → Forall (λ e, ¬ fell_back e) effs.
Proof.
  intros Heffs. eapply Forall_impl; [exact Heffs|].
  intros e He [fields ->]. discriminate He.
Qed.

Lemma refresh_request_no_fallback : Forall (λ e, ¬ fell_back e) (refresh_request config).
Proof.
  unfold refresh_request. destruct (buildUrl _ _); repeat constructor.
  intros [fields [=]].
Qed.

Lemma no_fallback_suspended k st st' :
  (∀ now cached signal pr, k = (AvailabilityCall now cached signal, pr) →
                           cached = None) →
  pending st' = <[next_promise st := k]> (pending st) →
  Forall (λ e, ¬ fell_back e) (effects st') →
  no_fallback st → no_fallback st'.
Proof.
  intros Hk Hpend Heffs [Hcold _]. split; [|done].
  intros q now cached signal pr. rewrite Hpend.
  destruct (decide (q = next_promise st)) as [->|Hne].
  - rewrite lookup_insert_eq. intros [= Hq]. by eapply Hk.
  - rewrite lookup_insert_ne by done. apply Hcold.
Qed.

Lemma no_fallback_turn p st r : turn config p st r → no_fallback st → no_fallback r.1.
Proof.
  intros [|k pr pr' effs Hp Heffs|k pr fetched t Hp] [Hcold Heff]; [done|..].
  - split.
    + intros q now cached signal pr0. cbn.
      destruct (decide (q = p)) as [->|Hne].
      * rewrite lookup_insert_eq. intros [= -> _]. by eapply Hcold.
      * rewrite lookup_insert_ne by done. apply Hcold.
    + cbn. apply Forall_app. split; [done|].
      by apply not_log_error_not_fell_back.
  - destruct (resume_task_pending config k fetched t (forget p st)) as [Hpend _].
    split.
    + intros q now cached signal pr0. rewrite Hpend. cbn.
      destruct (decide (p = q)) as [->|Hne]; [by rewrite lookup_delete_eq|].
      rewrite lookup_delete_ne by done. apply Hcold.
    + destruct k as [cached signal|now cached signal|now url signal];
        cbn [resume_task].
      * destruct (refreshAvailability_resume fetched) as [data|e];
          cbn [fst revalidation_settled]; [done|].
        assert (Forall (λ e, ¬ fell_back e)
                  (effects st ++ [LogError "Failed to refresh availability"
                                    [("error", FStr (message e))]])) as Hlog.
        { apply Forall_app. split; [done|]. constructor; [|done].
          intros [fields [=]]. }
        cbn [availabilityCache emit forget]. by destruct (availabilityCache st).
      * rewrite (Hcold p now cached signal pr Hp).
        by destruct (refreshAvailability_resume fetched).
      * unfold getFacilities_resume. destruct fetched as [v|e]; [|done].
        destruct v as [| | | |rawData|]; try done.
        destruct (normalizeFacilities rawData config) as [facilities|e]; [|done].
        cbn. apply Forall_app. split; [done|].
        constructor; [|done]. intros [fields [=]].
Qed.

Lemma no_fallback_step ev st : no_fallback st → no_fallback (step config ev st).
Proof.
  intros Hst. pose proof Hst as [Hcold Heff].
  assert (Forall (λ e, ¬ fell_back e) (effects st ++ refresh_request config))
    as Hreq.
  { apply Forall_app. split; [done|apply refresh_request_no_fallback]. }
  destruct ev as [signal now|signal now|p env t|p t]; cbn [step].
  - destruct (getAvailability_cases config signal now st)
      as [->|[(c & Hc & _ & _ & ->)|[_ ->]]]; [done|..];
      (eapply (no_fallback_suspended _ st); [|reflexivity|exact Hreq|exact Hst]);
      intros; by simplify_eq.
  - destruct (getFacilities_step_cases config signal now st) as [->|[url ->]];
      [done|].
    eapply (no_fallback_suspended _ st); [|reflexivity| |exact Hst].
    + intros; by simplify_eq.
    + cbn. apply Forall_app. split; [done|].
      constructor; [|done]. intros [fields [=]].
  - apply (no_fallback_turn p st _ (respond_turn config p env t st) Hst).
  - apply (no_fallback_turn p st _ (proj1 (resume_turn config p t st)) Hst).
Qed.

Lemma no_fallback_run evs st : no_fallback st → no_fallback (run config evs st).
Proof.
  revert st. induction evs as [|ev evs IH]; intros st Hst; [done|].
  cbn [run fold_left]. by apply IH, no_fallback_step.
Qed.

Lemma getFacilities_resume_Ok now fetched st st' facilities :
  getFacilities_resume config now fetched st = (st', Ok facilities) →
  st' = emit [LogInfo "Loaded facilities metadata"
                [("count", FNum (Z.of_nat (length facilities)))]]
          (set_facilities
             (Some (CacheEntry.mk facilities
                      (now + ServiceConfig.facilitiesTtlMs config))) st).
Proof.
  unfold getFacilities_resume. destruct fetched as [v|e]; [|done].
  destruct v as [| | | |rawData|]; try done.
  destruct (normalizeFacilities rawData config); [|done].
  by intros [= <- <-].
Qed.

(** With an entry in the slot the caller is answered at once, [stale]
    exactly when the entry has expired; the state changes only when that
    starts a background refresh. *)
Lemma getAvailability_cached (signal : option AbortSignal) (now : Z) (st : state)
    (c : AvailabilityCacheEntry.t) :
  availabilityCache st = Some c →
  ∃ st',
    getAvailability config signal now st
    = (st', Returned (Ok (AvailabilityResult.mk (AvailabilityCacheEntry.value c)
                            (negb (now <? AvailabilityCacheEntry.expiresAt c)))))
    ∧ (now < AvailabilityCacheEntry.expiresAt c
       ∨ is_Some (AvailabilityCacheEntry.revalidatePromise c) → st' = st)
    ∧ (AvailabilityCacheEntry.expiresAt c ≤ now →
       AvailabilityCacheEntry.revalidatePromise c = None →
       st' = revalidating config signal c st).
Proof.
  intros Hc.
  destruct (Z.ltb_spec now (AvailabilityCacheEntry.expiresAt c)) as [Hlt|Hge];
    cbn [negb].
  { rewrite (getAvailability_live config signal now st c Hc Hlt).
    eexists. split; [done|]. split; [done|]. lia. }
  destruct (AvailabilityCacheEntry.revalidatePromise c) as [p|] eqn:Hp.
  - rewrite (getAvailability_refreshing config signal now st c p Hc Hge Hp).
    eexists. split; [done|]. split; [done|]. done.
  - rewrite (getAvailability_expired config signal now st c Hc Hge Hp).
    eexists. split; [done|]. split; [|done].
    intros [?|[? ?]]; [lia|done].
Qed.
End WithRuntime.

(** X5. Whatever the upstream sends and however calls, responses and
    sleeps interleave, what the two caches hold is well formed: every
    facility in the facility cache has finite coordinates, a finite or
    [null] capacity and non-empty or [null] tariff note and zone code;
    every availability snapshot holds each record under that record's
    own id, with finite or [null] free spaces and capacity. *)
Theorem caches_hold_sound_records `{Runtime} (config : ServiceConfig.t)
    (evs : list event) :
  let st := run config evs initial in
  (∀ c, facilityCache st = Some c → Forall facility_ok (CacheEntry.value c))
  ∧ (∀ c, availabilityCache st = Some c →
          ∀ k a, AvailabilityCacheEntry.value c !! k = Some a →
                 FacilityAvailability.id a = k ∧ availability_ok a).
Proof. apply caches_sound_run, caches_sound_initial. Qed.

(** X6. The [catch] block at the end of [getAvailability] never serves a
    stale value: a caller reaches the [try] block only when it found the
    slot empty, so along every run no pending caller holds a cached entry
    and ['Falling back to stale availability cache'] is never logged. *)
Theorem getAvailability_fallback_is_dead `{Runtime} (config : ServiceConfig.t)
    (evs : list event) :
  let st := run config evs initial in
  (∀ p now cached signal pr,
     pending st !! p = Some (AvailabilityCall now cached signal, pr) →
     cached = None)
  ∧ ∀ fields,
      LogError "Falling back to stale availability cache" fields ∉ effects st.
Proof.
  cbn zeta.
  assert (no_fallback (run config evs initial)) as [Hcold Heff].
  { apply no_fallback_run. split; [|constructor].
    intros p now cached signal pr Hp. cbn in Hp. by rewrite lookup_empty in Hp. }
  split; [done|]. intros fields Hin.
  rewrite Forall_forall in Heff. apply (Heff _ Hin). by exists fields.
Qed.

(** X7. A list that [getFacilities] has loaded is served from the cache,
    without any request and without change of state, to every call made
    before the time of the loading call plus [facilitiesTtlMs]; from that
    time on a call sends a request again.  The time to live runs from the
    call that started the load, not from the end of the load. *)
Theorem getFacilities_served_until_expiry `{Runtime} (config : ServiceConfig.t)
    (p : promise) (now : Z) (url : string) (signal : option AbortSignal)
    (pr : progress) (up : upstream) (t : Z) (st st' : state)
    (facilities : list FacilityMetadata.t) :
  pending st !! p = Some (FacilitiesCall now url signal, pr) →
  complete config p up t st = (st', ToFacilitiesCaller (Ok facilities)) →
  facilityCache st'
  = Some (CacheEntry.mk facilities (now + ServiceConfig.facilitiesTtlMs config))
  ∧ (∀ signal' now',
       now' < now + ServiceConfig.facilitiesTtlMs config →
       getFacilities config signal' now' st' = (st', Returned (Ok facilities)))
  ∧ (∀ signal' now' url',
       now + ServiceConfig.facilitiesTtlMs config ≤ now' →
       buildUrl (ServiceConfig.baseUrl config) (ServiceConfig.facilitiesPath config)
       = Ok url' →
       ∃ st'' p',
         getFacilities config signal' now' st' = (st'', Awaiting p')
         ∧ pending st'' !! p'
           = Some (FacilitiesCall now' url' signal', Requesting url' 1 None)
         ∧ effects st'' = effects st' ++ [FetchCall url']).
Proof.
  intros Hp Hdone. rewrite (complete_spec config p up t st _ pr Hp) in Hdone.
  cbn [resume_task] in Hdone.
  destruct (getFacilities_resume _ _ _ _) as [st1 r] eqn:Hresume.
  injection Hdone as -> ->.
  apply getFacilities_resume_Ok in Hresume as ->.
  cbn [facilityCache emit set_facilities].
  split; [done|]. split.
  - intros signal' now' Hlive.
    by apply (getFacilities_live config signal' now' _
                (CacheEntry.mk facilities
                   (now + ServiceConfig.facilitiesTtlMs config))).
  - intros signal' now' url' Hexp Hurl.
    rewrite getFacilities_stale, Hurl.
    + eexists _, _. split; [done|]. cbn [fetching_facilities pending effects].
      split; [by rewrite lookup_insert_eq|done].
    + cbn. intros c [= <-]. done.
Qed.

Lemma getFacilities_served_until_expiry_witness :
  let st' :=
    (complete (H := Sample.runtime) Sample.config 0%nat
       (Sample.sends (JArr [Sample.slussen])) 50 Fixture.loading).1 in
  facilityCache st'
  = Some (CacheEntry.mk [Fixture.slussen]
            (0 + ServiceConfig.facilitiesTtlMs Sample.config))
  ∧ (∀ signal' now',
       now' < 0 + ServiceConfig.facilitiesTtlMs Sample.config →
       getFacilities (H := Sample.runtime) Sample.config signal' now' st'
       = (st', Returned (Ok [Fixture.slussen])))
  ∧ (∀ signal' now' url',
       0 + ServiceConfig.facilitiesTtlMs Sample.config ≤ now' →
       buildUrl (H := Sample.runtime) (ServiceConfig.baseUrl Sample.config)
         (ServiceConfig.facilitiesPath Sample.config) = Ok url' →
       ∃ st'' p',
         getFacilities (H := Sample.runtime) Sample.config signal' now' st'
         = (st'', Awaiting p')
         ∧ pending st'' !! p'
           = Some (FacilitiesCall now' url' signal', Requesting url' 1 None)
         ∧ effects st'' = effects st' ++ [FetchCall url']).
Proof.
  apply (getFacilities_served_until_expiry (H := Sample.runtime) Sample.config 0%nat 0
           "https://api.stockholmparkering.se/facilities" None
           (Requesting "https://api.stockholmparkering.se/facilities" 1 None)
           (Sample.sends (JArr [Sample.slussen])) 50 Fixture.loading).
  - reflexivity.
  - vm_compute. reflexivity.
Defined.

(** X8. The facility cache has no stale fallback.  With an expired entry
    in the slot [getFacilities] sends a request and waits for the
    fetcher, and when the fetch fails the caller gets the fetcher's
    error, although the old list is still in the slot; the slot is left
    as it was. *)
Theorem getFacilities_no_stale_fallback `{Runtime} (config : ServiceConfig.t)
    (signal : option AbortSignal) (now : Z) (st : state)
    (c : CacheEntry.t (list FacilityMetadata.t)) (url : string) :
  facilityCache st = Some c →
  CacheEntry.expiresAt c ≤ now →
  buildUrl (ServiceConfig.baseUrl config) (ServiceConfig.facilitiesPath config)
  = Ok url →
  ∃ st1 p,
    getFacilities config signal now st = (st1, Awaiting p)
    ∧ effects st1 = effects st ++ [FetchCall url]
    ∧ ∀ (up : upstream) (t : Z) (e : exn),
        (fetchWithRetries url signal up).2 = Throw e →
        ∃ st2,
          complete config p up t st1 = (st2, ToFacilitiesCaller (Throw e))
          ∧ facilityCache st2 = Some c
          ∧ availabilityCache st2 = availabilityCache st.
Proof.
  intros Hc Hexp Hurl. rewrite getFacilities_stale, Hurl.
  2:{ intros c' Hc'. by simplify_eq. }
  eexists _, _. split; [done|]. split; [done|]. intros up t e Hfail.
  rewrite (complete_spec config _ up t _
             (FacilitiesCall now url signal) (Requesting url 1 None));
    [|cbn; by rewrite lookup_insert_eq].
  cbn [signal_of]. rewrite remainder_started. cbn [fst snd].
  rewrite Hfail. cbn [resume_task getFacilities_resume]. eexists. split; [done|].
  done.
Qed.

Lemma getFacilities_no_stale_fallback_witness :
  ∃ st1 p,
    getFacilities (H := Sample.runtime) Sample.config None 200
      Fixture.expired_facilities = (st1, Awaiting p)
    ∧ effects st1
      = effects Fixture.expired_facilities
          ++ [FetchCall "https://api.stockholmparkering.se/facilities"]
    ∧ ∀ (up : upstream) (t : Z) (e : exn),
        (fetchWithRetries "https://api.stockholmparkering.se/facilities" None up).2
        = Throw e →
        ∃ st2,
          complete (H := Sample.runtime) Sample.config p up t st1
          = (st2, ToFacilitiesCaller (Throw e))
          ∧ facilityCache st2 = Some (CacheEntry.mk [Fixture.slussen] 100)
          ∧ availabilityCache st2 = availabilityCache Fixture.expired_facilities.
Proof.
  apply (getFacilities_no_stale_fallback (H := Sample.runtime) Sample.config None 200
           Fixture.expired_facilities (CacheEntry.mk [Fixture.slussen] 100)
           "https://api.stockholmparkering.se/facilities").
  - reflexivity.
  - cbn. lia.
  - reflexivity.
Defined.

(** X9. Callers of [getFacilities] are not coalesced.  However many
    calls are made while no live entry is in the slot, each of them sends
    a request of its own at once and waits for its own fetch: after [n]
    such calls [n] requests have been sent and [n] callers are waiting,
    the slot being as it was. *)
Theorem getFacilities_not_coalesced `{Runtime} (config : ServiceConfig.t)
    (calls : list (option AbortSignal * Z)) (st : state) (url : string) :
  (∀ c signal now, facilityCache st = Some c → (signal, now) ∈ calls →
                   CacheEntry.expiresAt c ≤ now) →
  buildUrl (ServiceConfig.baseUrl config) (ServiceConfig.facilitiesPath config)
  = Ok url →
  let st' := run config (map (λ call, CallFacilities call.1 call.2) calls) st in
  effects st' = effects st ++ replicate (length calls) (FetchCall url)
  ∧ facilityCache st' = facilityCache st
  ∧ next_promise st' = (next_promise st + length calls)%nat
  ∧ ∀ i signal now,
      calls !! i = Some (signal, now) →
      pending st' !! (next_promise st + i)%nat
      = Some (FacilitiesCall now url signal, Requesting url 1 None).
Proof.
  intros Hexp Hurl. cbn zeta. revert Hexp.
  induction calls as [|[signal now] calls IH] using rev_ind; intros Hexp.
  { cbn. rewrite app_nil_r, Nat.add_0_r. by repeat split. }
  rewrite map_app. unfold run in *. rewrite fold_left_app. cbn [map fold_left step].
  destruct IH as (Heffs & Hfac & Hnext & Hpend).
  { intros c s n Hc Hin. apply (Hexp c s n Hc). apply elem_of_app. by left. }
  set (st1 := fold_left _ (map _ calls) st) in *.
  rewrite (getFacilities_stale config signal now st1), Hurl.
  2:{ rewrite Hfac. intros c Hc. apply (Hexp c signal now Hc).
      apply elem_of_app. right. by left. }
  cbn [fst fetching_facilities effects facilityCache next_promise pending].
  rewrite Heffs, Hnext, length_app. cbn [length].
  split.
  { rewrite <- app_assoc. f_equal.
    replace (length calls + 1)%nat with (S (length calls)) by lia.
    by rewrite replicate_S_end. }
  split; [done|]. split; [lia|].
  intros i s n Hi. apply lookup_app_Some in Hi as [Hi|[Hlen Hi]].
  - assert (i < length calls)%nat by by eapply lookup_lt_Some.
    rewrite lookup_insert_ne by lia. by apply Hpend.
  - destruct (i - length calls)%nat as [|j] eqn:Hj; [|done].
    cbn in Hi. injection Hi as <- <-.
    replace (next_promise st + i)%nat with (next_promise st + length calls)%nat
      by lia.
    by rewrite lookup_insert_eq.
Qed.

Lemma getFacilities_not_coalesced_witness :
  let url := "https://api.stockholmparkering.se/facilities" in
  let calls := [(None, 0); (None, 10); (None, 20)] in
  let st' :=
    run (H := Sample.runtime) Sample.config
      (map (λ call, CallFacilities call.1 call.2) calls) initial in
  effects st' = effects initial ++ replicate (length calls) (FetchCall url)
  ∧ facilityCache st' = facilityCache initial
  ∧ next_promise st' = (next_promise initial + length calls)%nat
  ∧ ∀ i signal now,
      calls !! i = Some (signal, now) →
      pending st' !! (next_promise initial + i)%nat
      = Some (FacilitiesCall now url signal, Requesting url 1 None).
Proof.
  apply (getFacilities_not_coalesced (H := Sample.runtime) Sample.config
           [(None, 0); (None, 10); (None, 20)] initial
           "https://api.stockholmparkering.se/facilities").
  - intros c signal now Hc. discriminate Hc.
  - reflexivity.
Defined.

(** X10. A snapshot fetched by a caller that found the slot empty
    expires [availabilityTtlMs] after that call began, however long the
    fetch took (a background refresh counts from its completion).  From
    that time on a call is answered with the snapshot flagged stale and
    starts a background refresh; when the fetch took longer than the time
    to live this holds for the very next call. *)
Theorem getAvailability_cold_entry_expiry `{Runtime} (config : ServiceConfig.t)
    (p : promise) (now : Z) (signal : option AbortSignal) (pr : progress)
    (up : upstream) (t : Z) (st : state) (data : AvailabilityMap) :
  pending st !! p = Some (AvailabilityCall now None signal, pr) →
  refreshed signal up pr = Ok data →
  let entry :=
    AvailabilityCacheEntry.mk data (now + ServiceConfig.availabilityTtlMs config) None in
  ∃ st',
    complete config p up t st
    = (st', ToAvailabilityCaller (Ok (AvailabilityResult.mk data false)))
    ∧ availabilityCache st' = Some entry
    ∧ ∀ (signal' : option AbortSignal) (t' : Z),
        now + ServiceConfig.availabilityTtlMs config ≤ t' →
        ∃ st'' q,
          getAvailability config signal' t' st'
          = (st'', Returned (Ok (AvailabilityResult.mk data true)))
          ∧ pending st'' !! q
            = Some (Revalidation entry signal', refresh_started config)
          ∧ effects st'' = effects st' ++ refresh_request config.
Proof.
  intros Hp Hdata. cbn zeta. rewrite (complete_spec config p up t st _ pr Hp).
  cbn [resume_task signal_of]. fold (refreshed signal up pr). rewrite Hdata.
  cbn [getAvailability_resume].
  eexists. split; [done|]. cbn [availabilityCache set_availability].
  split; [done|]. intros signal' t' Hexp.
  match goal with
  | |- context [getAvailability config signal' t' ?s] => set (st' := s)
  end.
  rewrite (getAvailability_expired config signal' t' st'
             (AvailabilityCacheEntry.mk data
                (now + ServiceConfig.availabilityTtlMs config) None));
    [|done..].
  eexists _, _. split; [done|]. cbn [revalidating pending effects].
  split; [by rewrite lookup_insert_eq|done].
Qed.

Lemma getAvailability_cold_entry_expiry_witness :
  let data := Sample.snapshot "p1" 12 in
  let entry :=
    AvailabilityCacheEntry.mk data
      (0 + ServiceConfig.availabilityTtlMs Sample.short_ttl) None in
  ∃ st',
    complete (H := Sample.runtime) Sample.short_ttl 0%nat
      (Sample.sends_at_last (Sample.availability "p1" 12)) 6600 Fixture.cold
    = (st', ToAvailabilityCaller (Ok (AvailabilityResult.mk data false)))
    ∧ availabilityCache st' = Some entry
    ∧ ∀ (signal' : option AbortSignal) (t' : Z),
        0 + ServiceConfig.availabilityTtlMs Sample.short_ttl ≤ t' →
        ∃ st'' q,
          getAvailability (H := Sample.runtime) Sample.short_ttl signal' t' st'
          = (st'', Returned (Ok (AvailabilityResult.mk data true)))
          ∧ pending st'' !! q
            = Some (Revalidation entry signal',
                    refresh_started (H := Sample.runtime) Sample.short_ttl)
          ∧ effects st''
            = effects st' ++ refresh_request (H := Sample.runtime) Sample.short_ttl.
Proof.
  apply (getAvailability_cold_entry_expiry (H := Sample.runtime) Sample.short_ttl 0%nat 0
           None (refresh_started (H := Sample.runtime) Sample.short_ttl)
           (Sample.sends_at_last (Sample.availability "p1" 12)) 6600
           Fixture.cold (Sample.snapshot "p1" 12)).
  - reflexivity.
  - vm_compute. reflexivity.
Defined.

End CacheFacts.

(** ** Ranking: ties keep their order *)

Module RankingFacts.
Import FacilityRecommendation Tool Spec Notions Ranking.

(** X11. [sortRecommendations] is stable: the recommendations that rank
    equal to a given one (same distance, same free spaces with [null]
    counted as [-1]) stand in the returned array in the order they had in
    the argument. *)
Theorem sortRecommendations_stable (h : store) (results : ref)
    (l : list FacilityRecommendation.t) :
  h !! results = Some l →
  ∃ (h' : store) (sorted : ref) (out : list FacilityRecommendation.t),
    sortRecommendations results h = (h', sorted)
    ∧ h' !! sorted = Some out
    ∧ ∀ x, tied x out = tied x l.
Proof.
  intros Hl. destruct (sortRecommendations_store h results) as [-> _].
  eexists _, _, _. split; [done|]. rewrite lookup_insert_eq, Hl.
  split; [done|]. intros x. cbn [default].
  apply (sorted_order_stable _ compareRecommendations_consistent).
Qed.

Lemma sortRecommendations_stable_witness :
  let l := [Sample.recommendation "far" 300 None;
            Sample.recommendation "first" 100 (Some 2);
            Sample.recommendation "second" 100 (Some 2)] in
  ∃ (h' : store) (sorted : ref) (out : list FacilityRecommendation.t),
    sortRecommendations 0%nat {[0%nat := l]} = (h', sorted)
    ∧ h' !! sorted = Some out
    ∧ ∀ x, tied x out = tied x l.
Proof.
  apply (sortRecommendations_stable
           {[0%nat := [Sample.recommendation "far" 300 None;
                       Sample.recommendation "first" 100 (Some 2);
                       Sample.recommendation "second" 100 (Some 2)]]} 0%nat).
  reflexivity.
Defined.

End RankingFacts.

(** ** The tool method *)

Module NumFacts.
Import Js.

Lemma Qnum_sgn_le (q : Q) : Z.sgn (Qnum q) ≤ 0 ↔ (q <= 0)%Q.
Proof. unfold Qle. cbn. lia. Qed.

Ltac number_cases :=
  repeat match goal with
         | n : number |- _ => destruct n as [|[]|?]
         end;
  try done; cbn [Num.le Num.sub Num.sign Num.strict_eq Bool.eqb negb] in *;
  rewrite ?Qle_bool_iff, ?Qeq_bool_iff, ?Qnum_sgn_le in *;
  try done; try lia; try lra.

Lemma sign_sub_le a b :
  a ≠ NaN → b ≠ NaN → Num.sign (Num.sub a b) ≤ 0 ↔ Num.le a b = true.
Proof. intros Ha Hb. number_cases; split; intros; lra || lia || done. Qed.

Lemma num_le_trans a b c :
  Num.le a b = true → Num.le b c = true → Num.le a c = true.
Proof. intros Hab Hbc. number_cases. Qed.

Lemma strict_eq_le a b :
  Num.strict_eq a b = true ↔ Num.le a b = true ∧ Num.le b a = true.
Proof. number_cases; split; try intros [? ?]; try done; try split; lra. Qed.

Lemma strict_eq_sym a b : Num.strict_eq a b = Num.strict_eq b a.
Proof. apply eq_true_iff_eq. rewrite !strict_eq_le. tauto. Qed.

Lemma sign_sub_antisym a b :
  Num.sign (Num.sub a b) = - Num.sign (Num.sub b a).
Proof. number_cases. cbn. rewrite <- Z.sgn_opp. f_equal. lia. Qed.

(** *** Rounding to a double *)

Lemma nearest_even_ge x d y : 0 < d → y * d ≤ x → y ≤ Num.nearest_even x d.
Proof.
  intros Hd Hx. unfold Num.nearest_even.
  assert (y ≤ x / d) by (apply Z.div_le_lower_bound; lia).
  destruct (_ ?= _); [destruct (Z.even _)|..]; lia.
Qed.

Lemma nearest_even_le x d y : 0 < d → x ≤ y * d → Num.nearest_even x d ≤ y.
Proof.
  intros Hd Hx. unfold Num.nearest_even.
  destruct (Z.compare_spec (2 * (x mod d)) d) as [Heq|Hlt|Hgt];
    [destruct (Z.even _)|..]; Z.div_mod_to_equations; nia.
Qed.

Lemma nearest_even_above x d y :
  0 < d → y * d ≤ x → d < 2 * (x - y * d) → y + 1 ≤ Num.nearest_even x d.
Proof.
  intros Hd Hx Hhalf. unfold Num.nearest_even.
  destruct (Z.compare_spec (2 * (x mod d)) d) as [Heq|Hlt|Hgt];
    [destruct (Z.even _)|..]; Z.div_mod_to_equations; nia.
Qed.

Lemma binary_exponent_le n d : Num.binary_exponent n d ≤ Z.log2 n - Z.log2 d.
Proof. unfold Num.binary_exponent. cbn zeta. repeat case_match; lia. Qed.

Lemma round_positive_sign n d :
  0 ≤ n → 0 < d →
  match Num.round_positive n d with
  | Finite y => (0 <= y)%Q
  | Infinity s => s = false
  | NaN => False
  end.
Proof.
  intros Hn Hd. unfold Num.round_positive. cbn zeta.
  set (e := Z.max _ _). destruct (Qle_bool _ _); [done|].
  destruct (Z.leb_spec 0 e) as [He|He].
  - assert (0 ≤ Num.nearest_even n (d * 2 ^ e))
      by (apply nearest_even_ge; [|lia]; apply Z.mul_pos_pos; [lia|];
          by apply Z.pow_pos_nonneg).
    unfold Qle. cbn. assert (0 ≤ 2 ^ e) by (apply Z.pow_nonneg; lia). nia.
  - assert (0 ≤ Num.nearest_even (n * 2 ^ (- e)) d).
    { apply nearest_even_ge; [done|]. assert (0 ≤ 2 ^ (- e)) by (apply Z.pow_nonneg; lia). nia. }
    unfold Qle. cbn. lia.
Qed.

(** The quotient of a whole number below [2^53] by 80 is rounded to a
    double with the same ceiling. *)
Lemma round_positive_ceiling n :
  0 < n < 2 ^ 53 →
  ∃ y, Num.round_positive n 80 = Finite y ∧ 80 * (Qceiling y - 1) < n ≤ 80 * Qceiling y.
Proof.
  intros Hn. unfold Num.round_positive. cbn zeta.
  set (e := Z.max _ _).
  assert (-1074 ≤ e ≤ -6) as He.
  { subst e. pose proof (binary_exponent_le n 80) as Hb.
    assert (Z.log2 n < 53) by (apply Z.log2_lt_pow2; lia).
    change (Z.log2 80) with 6 in Hb. lia. }
  destruct (Z.leb_spec 0 e) as [?|_]; [lia|].
  set (s := 2 ^ (- e)).
  assert (64 ≤ s) as Hs.
  { subst s. change 64 with (2 ^ 6). apply Z.pow_le_mono_r; lia. }
  set (N := - (- n / 80)).
  assert (80 * (N - 1) < n ≤ 80 * N) as HN by (subst N; Z.div_mod_to_equations; lia).
  set (m := Num.nearest_even (n * s) 80).
  assert (m ≤ N * s) as Hup by (apply nearest_even_le; [lia|nia]).
  assert ((N - 1) * s + 1 ≤ m) as Hlow by (apply nearest_even_above; [lia|nia|nia]).
  assert (Qceiling (m # Z.to_pos s) = N) as Hceil.
  { unfold Qceiling, Qfloor. cbn. rewrite Z2Pos.id by lia.
    Z.div_mod_to_equations. nia. }
  destruct (Qle_bool _ _) eqn:Hle.
  { apply Qle_bool_iff in Hle. unfold Qle in Hle. cbn [Qnum Qden inject_Z] in Hle.
    rewrite Z2Pos.id in Hle by lia.
    assert (2 ^ 54 ≤ 2 ^ 1024) by (apply Z.pow_le_mono_r; lia).
    assert (N < 2 ^ 54) by lia. nia. }
  eexists. split; [done|]. by rewrite Hceil.
Qed.

End NumFacts.

Module ToolFacts.
Import Js Fetcher Cache Spec Notions Ranking CacheProps NumFacts ParkingTool.

Lemma compare_unfold a b :
  compare a b
  = if Num.strict_eq (Enriched.distanceMeters a) (Enriched.distanceMeters b)
    then Num.sub (free b) (free a)
    else Num.sub (Enriched.distanceMeters a) (Enriched.distanceMeters b).
Proof. unfold compare, free. by destruct (Num.strict_eq _ _). Qed.

Lemma compare_antisym a b : Num.sign (compare a b) = - Num.sign (compare b a).
Proof.
  rewrite !compare_unfold.
  rewrite (strict_eq_sym (Enriched.distanceMeters b)).
  destruct (Num.strict_eq _ _); apply sign_sub_antisym.
Qed.

Lemma before_total a b : before a b ∨ before b a.
Proof. unfold before. rewrite (compare_antisym b a). lia. Qed.

Lemma free_not_NaN r : rankable r → free r ≠ NaN.
Proof.
  intros [_ Hfree]. unfold free.
  destruct (Enriched.freeSpaces r) as [n|] eqn:Hn; [|done].
  specialize (Hfree n eq_refl). by destruct n.
Qed.

(** On records without [NaN] the comparator says what the ranking is. *)
Lemma before_spec a b :
  rankable a → rankable b → before a b ↔ ranks_first a b.
Proof.
  intros Ha Hb. unfold before, ranks_first. rewrite compare_unfold.
  destruct (Num.strict_eq _ _).
  - apply sign_sub_le; by apply free_not_NaN.
  - apply sign_sub_le; [apply Ha|apply Hb].
Qed.

Lemma before_trans a b c :
  rankable a → rankable b → rankable c →
  before a b → before b c → before a c.
Proof.
  intros Ha Hb Hc. rewrite !before_spec by done. unfold ranks_first.
  destruct (Num.strict_eq (Enriched.distanceMeters a) (Enriched.distanceMeters b))
    eqn:Eab;
    destruct (Num.strict_eq (Enriched.distanceMeters b) (Enriched.distanceMeters c))
      eqn:Ebc;
    destruct (Num.strict_eq (Enriched.distanceMeters a) (Enriched.distanceMeters c))
      eqn:Eac;
    rewrite ?strict_eq_le in *;
    repeat match goal with
           | H : _ ∧ _ |- _ => destruct H
           end;
    intros Hab Hbc;
    first
      [ solve [eauto using num_le_trans]
      | exfalso;
        match goal with
        | E : Num.strict_eq ?x ?y = false |- _ =>
            apply not_true_iff_false in E; apply E; apply strict_eq_le;
            solve [split; eauto using num_le_trans]
        end ].
Qed.

Lemma Sorted_StronglySorted_on {A} (R : relation A) (P : A → Prop) l :
  (∀ x y z, P x → P y → P z → R x y → R y z → R x z) →
  Forall P l → Sorted R l → StronglySorted R l.
Proof.
  intros Htrans HP. induction 1 as [|x l Hl IH Hx]; [constructor|].
  apply Forall_cons in HP as [Px HP]. specialize (IH HP).
  constructor; [done|].
  destruct Hx as [|y l Hxy]; [constructor|].
  apply Forall_cons in HP as [Py HP].
  constructor; [done|].
  apply StronglySorted_inv in IH as [_ Hy].
  rewrite Forall_forall in Hy, HP. apply Forall_forall. intros z Hz.
  apply (Htrans x y z); [done|done|by apply HP|done|by apply Hy].
Qed.

Lemma sortRecommendations_contents l : sortRecommendations l ≡ₚ l.
Proof. apply sorted_order_perm. Qed.

Lemma sortRecommendations_Sorted l : Sorted before (sortRecommendations l).
Proof.
  apply (sorted_order_Sorted (λ a b, Num.sign (compare a b))).
  intros a b. apply before_total.
Qed.

Lemma sortRecommendations_StronglySorted l :
  Forall rankable l → StronglySorted before (sortRecommendations l).
Proof.
  intros Hl. apply (Sorted_StronglySorted_on before rankable).
  - apply before_trans.
  - by rewrite sortRecommendations_contents.
  - apply sortRecommendations_Sorted.
Qed.

Lemma enforceMaxResults_take {A} (results : list A) (limit : Z) :
  0 ≤ limit → enforceMaxResults results limit = take (Z.to_nat limit) results.
Proof.
  intros Hlimit. unfold enforceMaxResults, slice_to.
  destruct (Z.leb_spec (Z.of_nat (length results)) limit).
  - rewrite take_ge; [done|lia].
  - destruct (Z.ltb_spec limit 0); [lia|]. f_equal. lia.
Qed.

Lemma enforceMaxResults_negative {A} (results : list A) (limit : Z) :
  limit < 0 →
  enforceMaxResults results limit
  = take (length results - Z.to_nat (- limit)) results.
Proof.
  intros Hlimit. unfold enforceMaxResults, slice_to.
  destruct (Z.leb_spec (Z.of_nat (length results)) limit); [lia|].
  destruct (Z.ltb_spec limit 0); [|lia]. f_equal. lia.
Qed.

Lemma enforceMaxResults_prefix {A} (results : list A) limit :
  ∃ n, enforceMaxResults results limit = take n results.
Proof.
  destruct (Z.le_gt_cases 0 limit).
  - eexists. by apply enforceMaxResults_take.
  - eexists. apply enforceMaxResults_negative. lia.
Qed.

(** The sort of the tool method and the sort of the ranking model above
    agree on recommendations with integer distance and free spaces. *)
Lemma sorted_order_map {A B} (f : A → B) (cmp : A → A → Z) (cmp' : B → B → Z) l :
  (∀ a b, (cmp' (f a) (f b) <=? 0) = (cmp a b <=? 0)) →
  Tool.sorted_order cmp' (map f l) = map f (Tool.sorted_order cmp l).
Proof.
  intros Hcmp. induction l as [|x l IH]; [done|].
  cbn [map Tool.sorted_order]. change (list_fmap _ _ f l) with (map f l).
  rewrite IH. generalize (Tool.sorted_order cmp l). intros s.
  induction s as [|y s IHs]; [done|].
  cbn [map Tool.insert_sorted]. rewrite Hcmp.
  destruct (cmp x y <=? 0); [done|]. cbn [map]. by rewrite <- IHs.
Qed.

Lemma compare_embed a b :
  Num.sign (compare (embed a) (embed b)) = Z.sgn (Tool.compareRecommendations a b).
Proof.
  unfold compare, Tool.compareRecommendations, embed.
  cbn [Enriched.distanceMeters Enriched.freeSpaces].
  assert (∀ x y, Num.sign (Num.sub (Num.of_Z x) (Num.of_Z y)) = Z.sgn (x - y)) as Hsub.
  { intros x y. cbn. f_equal. lia. }
  assert (∀ x y, Num.strict_eq (Num.of_Z x) (Num.of_Z y) = (x =? y)) as Heq.
  { intros x y. apply eq_true_iff_eq. cbn. rewrite Qeq_bool_iff, Z.eqb_eq.
    unfold Qeq. cbn. lia. }
  rewrite Heq.
  destruct (_ =? _); cbn [negb]; [|apply Hsub].
  destruct (FacilityRecommendation.freeSpaces a),
           (FacilityRecommendation.freeSpaces b);
    cbn [fmap option_fmap option_map default]; apply Hsub.
Qed.

Lemma sortRecommendations_agrees (h : Tool.store) (results : Tool.ref)
    (l : list FacilityRecommendation.t) :
  h !! results = Some l →
  ∃ (h' : Tool.store) (sorted : Tool.ref) (out : list FacilityRecommendation.t),
    Tool.sortRecommendations results h = (h', sorted)
    ∧ h' !! sorted = Some out
    ∧ sortRecommendations (map embed l) = map embed out.
Proof.
  intros Hl. destruct (sortRecommendations_store h results) as [-> _].
  eexists _, _, _. split; [done|]. rewrite lookup_insert_eq, Hl.
  split; [done|]. cbn [default]. apply sorted_order_map.
  intros a b. rewrite compare_embed.
  destruct (Z.leb_spec (Tool.compareRecommendations a b) 0);
    destruct (Z.leb_spec (Z.sgn (Tool.compareRecommendations a b)) 0); lia.
Qed.

Section Method.
Variable haversineDistanceMeters : number → number → number → number → number.
Variable validateInput : json → json + RecommendFacilityArgs.t.
Variable validateOutput : list Enriched.t → option json.

Lemma recommendFacility_resume_Ok args facilities availabilityResult logs out :
  recommendFacility_resume haversineDistanceMeters validateOutput args facilities
    availabilityResult = (logs, Ok out) →
  out = enforceMaxResults
          (sortRecommendations
             (candidates haversineDistanceMeters args facilities availabilityResult))
          (RequiredArgs.maxResults (normalizeArgs args))
  ∧ validateOutput out = None
  ∧ logs = [Log_info "Generated facility recommendations"
              [("count", JNum (Num.of_Z (Z.of_nat (length out))));
               ("staleAvailability",
                JBool (AvailabilityResult.stale availabilityResult))]].
Proof.
  unfold recommendFacility_resume. cbn zeta.
  fold (candidates haversineDistanceMeters args facilities availabilityResult).
  destruct (validateOutput _) eqn:Hv; [done|].
  intros [= <- <-]. done.
Qed.

Lemma candidates_spec args facilities availabilityResult r :
  r ∈ candidates haversineDistanceMeters args facilities availabilityResult ↔
  within (RequiredArgs.radiusMeters (normalizeArgs args)) r
  ∧ ∃ facility,
      facility ∈ facilities
      ∧ r = enrich haversineDistanceMeters
              (RequiredArgs.destinationLat (normalizeArgs args))
              (RequiredArgs.destinationLon (normalizeArgs args))
              availabilityResult facility.
Proof.
  unfold candidates, within. cbn zeta.
  rewrite list_elem_of_filter, list_elem_of_fmap.
  split; intros [? (facility & ? & ?)]; (split; [done|]); by exists facility.
Qed.

Lemma candidates_rankable args facilities availabilityResult :
  (∀ k a, AvailabilityResult.data availabilityResult !! k = Some a →
          finite_or_null (FacilityAvailability.freeSpaces a)) →
  Forall rankable
    (candidates haversineDistanceMeters args facilities availabilityResult).
Proof.
  intros Hdata. apply Forall_forall.
  intros r [Hwithin (facility & _ & ->)]%candidates_spec.
  split.
  - intros Hnan. unfold within in Hwithin. by rewrite Hnan in Hwithin.
  - cbn. destruct (AvailabilityResult.data availabilityResult !! _) as [a|] eqn:Ha;
      [|done].
    cbn. by eapply Hdata.
Qed.
End Method.

(** X12. What [recommendFacility] returns, once it has the facilities and
    the availability: every recommendation is a facility of the list,
    enriched, whose distance is within the radius (1500 by default); the
    distance is measured from the destination when one is given and from
    the user otherwise, separately for latitude and longitude, so a
    destination latitude without a longitude is paired with the user's
    longitude.  With a limit (5 by default) that is not negative, no more
    recommendations are returned than the limit, and their number is what
    the log entry reports. *)
Theorem recommendFacility_resume_selection
    (haversineDistanceMeters : number → number → number → number → number)
    (validateOutput : list Enriched.t → option json)
    (args : RecommendFacilityArgs.t) (facilities : list FacilityMetadata.t)
    (availabilityResult : AvailabilityResult.t)
    (logs : list log_call) (out : list Enriched.t) :
  recommendFacility_resume haversineDistanceMeters validateOutput args facilities
    availabilityResult = (logs, Ok out) →
  let targetLat :=
    default (RecommendFacilityArgs.userLat args)
      (RecommendFacilityArgs.destinationLat args) in
  let targetLon :=
    default (RecommendFacilityArgs.userLon args)
      (RecommendFacilityArgs.destinationLon args) in
  let radius := default 1500 (RecommendFacilityArgs.radiusMeters args) in
  let limit := default 5 (RecommendFacilityArgs.maxResults args) in
  (∀ r, r ∈ out →
        Num.le (Enriched.distanceMeters r) (Num.of_Z radius) = true
        ∧ ∃ facility,
            facility ∈ facilities
            ∧ r = enrich haversineDistanceMeters targetLat targetLon
                    availabilityResult facility)
  ∧ (0 ≤ limit → (length out ≤ Z.to_nat limit)%nat)
  ∧ logs = [Log_info "Generated facility recommendations"
              [("count", JNum (Num.of_Z (Z.of_nat (length out))));
               ("staleAvailability",
                JBool (AvailabilityResult.stale availabilityResult))]].
Proof.
  intros (Hout & _ & Hlogs)%recommendFacility_resume_Ok. cbn zeta.
  split; [|split; [|done]].
  - intros r Hr. rewrite Hout in Hr.
    destruct (enforceMaxResults_prefix
                (sortRecommendations
                   (candidates haversineDistanceMeters args facilities
                      availabilityResult))
                (RequiredArgs.maxResults (normalizeArgs args))) as [n Hn].
    rewrite Hn in Hr. apply elem_of_take in Hr as (i & Hr & _).
    apply list_elem_of_lookup_2 in Hr. rewrite sortRecommendations_contents in Hr.
    by apply candidates_spec in Hr.
  - intros Hlimit. rewrite Hout, enforceMaxResults_take by done.
    rewrite length_take. apply Nat.le_min_l.
Qed.

Lemma recommendFacility_resume_selection_witness :
  let out := [Fixture.enriched "b" 100 (Some (Finite 4));
              Fixture.enriched "a" 300 None] in
  (∀ r, r ∈ out →
        Num.le (Enriched.distanceMeters r) (Num.of_Z 1500) = true
        ∧ ∃ facility,
            facility ∈ [Fixture.facility "a" 300; Fixture.facility "b" 100;
                        Fixture.facility "c" 9000]
            ∧ r = enrich Fixture.distance (Finite 59) (Finite 18)
                    Fixture.availabilityResult facility)
  ∧ (0 ≤ 2 → (length out ≤ Z.to_nat 2)%nat)
  ∧ [Log_info "Generated facility recommendations"
       [("count", JNum (Num.of_Z 2)); ("staleAvailability", JBool true)]]
    = [Log_info "Generated facility recommendations"
         [("count", JNum (Num.of_Z (Z.of_nat (length out))));
          ("staleAvailability", JBool true)]].
Proof.
  apply (recommendFacility_resume_selection Fixture.distance Fixture.accept_output
           Fixture.args
           [Fixture.facility "a" 300; Fixture.facility "b" 100;
            Fixture.facility "c" 9000]
           Fixture.availabilityResult
           [Log_info "Generated facility recommendations"
              [("count", JNum (Num.of_Z 2)); ("staleAvailability", JBool true)]]
           [Fixture.enriched "b" 100 (Some (Finite 4));
            Fixture.enriched "a" 300 None]).
  vm_compute. reflexivity.
Defined.

(** X13. The recommendations [recommendFacility] returns are the best of
    those within the radius: they stand nearest first, at equal distance
    the one with more free spaces first ([null] counted as [-1]); with a
    limit that is not negative there are as many as the limit allows; and
    every facility within the radius that is left out ranks no better
    than any that is returned.  The availability records are taken to
    hold finite numbers or [null], as the cache guarantees. *)
Theorem recommendFacility_resume_nearest
    (haversineDistanceMeters : number → number → number → number → number)
    (validateOutput : list Enriched.t → option json)
    (args : RecommendFacilityArgs.t) (facilities : list FacilityMetadata.t)
    (availabilityResult : AvailabilityResult.t)
    (logs : list log_call) (out : list Enriched.t) :
  recommendFacility_resume haversineDistanceMeters validateOutput args facilities
    availabilityResult = (logs, Ok out) →
  (∀ k a, AvailabilityResult.data availabilityResult !! k = Some a →
          finite_or_null (FacilityAvailability.freeSpaces a)) →
  let within_radius :=
    candidates haversineDistanceMeters args facilities availabilityResult in
  let limit := default 5 (RecommendFacilityArgs.maxResults args) in
  StronglySorted ranks_first out
  ∧ (0 ≤ limit → length out = (length within_radius `min` Z.to_nat limit)%nat)
  ∧ ∃ dropped,
      within_radius ≡ₚ out ++ dropped
      ∧ ∀ a b, a ∈ out → b ∈ dropped → ranks_first a b.
Proof.
  intros (Hout & _ & _)%recommendFacility_resume_Ok Hdata. cbn zeta.
  pose proof (candidates_rankable haversineDistanceMeters args facilities
                availabilityResult Hdata) as Hrank.
  set (within_radius :=
         candidates haversineDistanceMeters args facilities availabilityResult) in *.
  pose proof (sortRecommendations_StronglySorted within_radius Hrank) as Hsorted.
  assert (Forall rankable (sortRecommendations within_radius)) as Hrank'
    by by rewrite sortRecommendations_contents.
  assert (StronglySorted ranks_first (sortRecommendations within_radius)) as Hfirst.
  { clear Hout. induction Hsorted as [|x l Hl IH Hx]; [constructor|].
    apply Forall_cons in Hrank' as [Px Pl]. constructor; [by apply IH|].
    rewrite Forall_forall in Hx, Pl. apply Forall_forall. intros y Hy.
    apply before_spec; auto. }
  destruct (enforceMaxResults_prefix (sortRecommendations within_radius)
              (RequiredArgs.maxResults (normalizeArgs args))) as [n Hn].
  rewrite Hn in Hout.
  rewrite <- (take_drop n (sortRecommendations within_radius)) in Hfirst.
  rewrite <- Hout in Hfirst.
  split; [by apply StronglySorted_app_1_l in Hfirst|].
  split.
  - intros Hlimit. rewrite Hout, <- Hn, enforceMaxResults_take by done.
    rewrite length_take, sortRecommendations_contents. apply Nat.min_comm.
  - exists (drop n (sortRecommendations within_radius)). split.
    + by rewrite Hout, take_drop, sortRecommendations_contents.
    + intros a b Ha Hb. by eapply StronglySorted_app_1_elem_of.
Qed.

Lemma recommendFacility_resume_nearest_witness :
  let out := [Fixture.enriched "b" 100 (Some (Finite 4));
              Fixture.enriched "a" 300 None] in
  let within_radius :=
    candidates Fixture.distance Fixture.args
      [Fixture.facility "a" 300; Fixture.facility "b" 100; Fixture.facility "c" 9000]
      Fixture.availabilityResult in
  StronglySorted ranks_first out
  ∧ (0 ≤ 2 → length out = (length within_radius `min` Z.to_nat 2)%nat)
  ∧ ∃ dropped,
      within_radius ≡ₚ out ++ dropped
      ∧ ∀ a b, a ∈ out → b ∈ dropped → ranks_first a b.
Proof.
  apply (recommendFacility_resume_nearest Fixture.distance Fixture.accept_output
           Fixture.args
           [Fixture.facility "a" 300; Fixture.facility "b" 100;
            Fixture.facility "c" 9000]
           Fixture.availabilityResult
           [Log_info "Generated facility recommendations"
              [("count", JNum (Num.of_Z 2)); ("staleAvailability", JBool true)]]
           [Fixture.enriched "b" 100 (Some (Finite 4));
            Fixture.enriched "a" 300 None]).
  - vm_compute. reflexivity.
  - intros k a Hk. cbn in Hk. apply lookup_singleton_Some in Hk as [_ <-].
    intros x [= <-]. reflexivity.
Defined.

(** X14. With a live facility list and any availability snapshot in the
    caches, [recommendFacility] answers from the caches without waiting
    for a response: from the cached list and the cached snapshot, flagged
    stale exactly when the snapshot has expired.  The facility cache is
    left as it was.  With a live snapshot, or a refresh in flight, the
    whole state is left as it was and no request is sent; with an expired
    snapshot and no refresh in flight a background refresh has been
    started and its first request sent before the answer. *)
Theorem recommendFacility_warm `{Runtime}
    (haversineDistanceMeters : number → number → number → number → number)
    (validateInput : json → json + RecommendFacilityArgs.t)
    (validateOutput : list Enriched.t → option json)
    (config : ServiceConfig.t) (rawArgs : json) (args : RecommendFacilityArgs.t)
    (firedFacilities firedAvailability : Z → bool) (now now' : Z) (st : state)
    (facilities : CacheEntry.t (list FacilityMetadata.t))
    (availability : AvailabilityCacheEntry.t) :
  validateInput rawArgs = inr args →
  facilityCache st = Some facilities →
  now < CacheEntry.expiresAt facilities →
  availabilityCache st = Some availability →
  let stale := negb (now' <? AvailabilityCacheEntry.expiresAt availability) in
  let signal := Some (overallSignal firedAvailability) in
  ∃ st',
    recommendFacility haversineDistanceMeters validateInput validateOutput config
      rawArgs firedFacilities firedAvailability now now' st
    = (st',
       Some (recommendFacility_resume haversineDistanceMeters validateOutput args
               (CacheEntry.value facilities)
               (AvailabilityResult.mk (AvailabilityCacheEntry.value availability)
                  stale)))
    ∧ facilityCache st' = facilityCache st
    ∧ (now' < AvailabilityCacheEntry.expiresAt availability
       ∨ is_Some (AvailabilityCacheEntry.revalidatePromise availability) →
       st' = st)
    ∧ (AvailabilityCacheEntry.expiresAt availability ≤ now' →
       AvailabilityCacheEntry.revalidatePromise availability = None →
       effects st' = effects st ++ refresh_request config
       ∧ pending st'
         = <[next_promise st :=
               (Revalidation availability signal, refresh_started config)]>
             (pending st)
       ∧ availabilityCache st' = Some (marked availability (next_promise st))).
Proof.
  intros Hargs Hf Hlive Ha. cbn zeta.
  unfold recommendFacility, recommendFacility_calls. rewrite Hargs.
  rewrite (getFacilities_live config _ now st facilities Hf Hlive).
  destruct (CacheFacts.getAvailability_cached config
              (Some (overallSignal firedAvailability)) now' st availability Ha)
    as (st' & -> & Hsame & Hstarted).
  exists st'. split; [done|]. split.
  - destruct (Z.ltb_spec now' (AvailabilityCacheEntry.expiresAt availability))
      as [Hlt|Hge]; [by rewrite Hsame; [|left]|].
    destruct (AvailabilityCacheEntry.revalidatePromise availability) eqn:Hp;
      [by rewrite Hsame; [|right]|].
    by rewrite Hstarted.
  - split; [done|]. intros Hge Hp. by rewrite Hstarted.
Qed.

Lemma recommendFacility_warm_witness :
  let availability :=
    AvailabilityCacheEntry.mk
      {["b" := FacilityAvailability.mk "b" (Some (Finite 4)) None None]} 100 None in
  let facilities :=
    CacheEntry.mk [Fixture.facility "a" 300; Fixture.facility "b" 100;
                   Fixture.facility "c" 9000] 1000 in
  let stale := negb (200 <? AvailabilityCacheEntry.expiresAt availability) in
  let signal := Some (overallSignal (λ _, false)) in
  ∃ st',
    recommendFacility (H := Sample.runtime) Fixture.distance Fixture.accept_input
      Fixture.accept_output Sample.config JNull (λ _, false) (λ _, false)
      0 200 Fixture.warm
    = (st',
       Some (recommendFacility_resume Fixture.distance Fixture.accept_output
               Fixture.args (CacheEntry.value facilities)
               (AvailabilityResult.mk (AvailabilityCacheEntry.value availability)
                  stale)))
    ∧ facilityCache st' = facilityCache Fixture.warm
    ∧ (200 < AvailabilityCacheEntry.expiresAt availability
       ∨ is_Some (AvailabilityCacheEntry.revalidatePromise availability) →
       st' = Fixture.warm)
    ∧ (AvailabilityCacheEntry.expiresAt availability ≤ 200 →
       AvailabilityCacheEntry.revalidatePromise availability = None →
       effects st'
       = effects Fixture.warm ++ refresh_request (H := Sample.runtime) Sample.config
       ∧ pending st'
         = <[next_promise Fixture.warm :=
               (Revalidation availability signal,
                refresh_started (H := Sample.runtime) Sample.config)]>
             (pending Fixture.warm)
       ∧ availabilityCache st'
         = Some (marked availability (next_promise Fixture.warm))).
Proof.
  apply (recommendFacility_warm (H := Sample.runtime) Fixture.distance
           Fixture.accept_input Fixture.accept_output Sample.config JNull Fixture.args
           (λ _, false) (λ _, false) 0 200 Fixture.warm
           (CacheEntry.mk [Fixture.facility "a" 300; Fixture.facility "b" 100;
                           Fixture.facility "c" 9000] 1000)
           (AvailabilityCacheEntry.mk
              {["b" := FacilityAvailability.mk "b" (Some (Finite 4)) None None]}
              100 None)).
  - reflexivity.
  - reflexivity.
  - cbn. lia.
  - reflexivity.
Defined.

(** X15. For a distance of a whole number of metres below [2^53], as
    [haversineDistanceMeters] rounds it, [estimateWalkMinutes] is the
    least whole number of minutes in which the distance is covered at 80
    metres a minute, and [0] for a distance that is not positive.  The
    quotient is a double, so for larger distances the least such number
    can be missed. *)
Theorem estimateWalkMinutes_rounds_up (distanceMeters : Z) :
  distanceMeters < 2 ^ 53 →
  ∃ minutes : Z,
    Geo.estimateWalkMinutes (Num.of_Z distanceMeters) = Num.of_Z minutes
    ∧ 0 ≤ minutes
    ∧ (distanceMeters ≤ 0 → minutes = 0)
    ∧ (0 < distanceMeters → 80 * (minutes - 1) < distanceMeters ≤ 80 * minutes).
Proof.
  intros Hd. unfold Geo.estimateWalkMinutes, Num.of_Z, Num.div, Num.round.
  cbn [Qnum Qden Qdiv Qmult Qinv inject_Z Geo.WALKING_SPEED_METERS_PER_MINUTE].
  rewrite Z.mul_1_r. change (Z.pos (1 * 80)) with 80.
  destruct distanceMeters as [|n|n].
  - exists 0. done.
  - destruct (round_positive_ceiling (Z.pos n)) as (y & -> & Hy); [lia|].
    exists (Qceiling y). split; [f_equal; f_equal; lia|]. lia.
  - exists 0.
    pose proof (round_positive_sign (Z.pos n) 80) as Hsign.
    destruct (Num.round_positive _ _) as [|s|y]; [by destruct Hsign..| |].
    + split; [done|lia].
    + assert (Qceiling (- y) ≤ 0).
      { change 0 with (Qceiling 0). apply Qceiling_resp_le.
        assert (0 <= y)%Q by (apply Hsign; lia). lra. }
      split; [f_equal; f_equal; lia|lia].
Qed.

Lemma estimateWalkMinutes_rounds_up_witness :
  ∃ minutes : Z,
    Geo.estimateWalkMinutes (Num.of_Z 300) = Num.of_Z minutes
    ∧ 0 ≤ minutes
    ∧ (300 ≤ 0 → minutes = 0)
    ∧ (0 < 300 → 80 * (minutes - 1) < 300 ≤ 80 * minutes).
Proof. apply (estimateWalkMinutes_rounds_up 300). reflexivity. Defined.

(** Beyond [2^53] the rounded quotient can fall short: 80 times the
    minutes returned is less than the distance. *)
Example estimateWalkMinutes_far :
  Geo.estimateWalkMinutes (Num.of_Z (2 ^ 60 + 256)) = Num.of_Z 14411518807585590
  ∧ 80 * 14411518807585590 < 2 ^ 60 + 256.
Proof. split; [vm_compute; reflexivity|lia]. Qed.

End ToolFacts.

(** ** The server and the configuration *)

Module ServerFacts.
Import Js Notions Server.

Section WithRuntime.
Variable utf8_decode : list Byte.byte → string.
Variable JSON_parse : string → string + json.

(** The reader after the stream has delivered [received]. *)
Lemma receive (received : list (list Byte.byte)) :
  let rd := fold_left (λ rd ev, listen utf8_decode JSON_parse ev rd)
              (map Data received) start in
  let size := Z.of_nat (length (concat received)) in
  total rd = size
  ∧ if LIMIT <? size then settled rd = Some too_large
    else chunks rd = received ∧ settled rd = None.
Proof.
  induction received as [|chunk received IH] using rev_ind; [done|].
  rewrite map_app, fold_left_app. cbn [map fold_left listen].
  set (rd := fold_left _ (map Data received) _) in *. cbn zeta in IH.
  destruct IH as [Htotal IH].
  rewrite concat_app, length_app, Nat2Z.inj_add. cbn [concat].
  rewrite app_nil_r.
  set (size := Z.of_nat (length (concat received))) in *.
  unfold on_data. rewrite Htotal.
  destruct (Z.ltb_spec LIMIT (size + Z.of_nat (length chunk))) as [Hbig|Hfit].
  - split.
    + unfold destroy, settle. cbn [settled]. by destruct (settled _).
    + unfold destroy, settle. cbn [settled].
      destruct (Z.ltb_spec LIMIT size); [by rewrite IH|].
      destruct IH as [_ ->]. done.
  - cbn [total chunks settled]. split; [done|].
    destruct (Z.ltb_spec LIMIT size); [lia|].
    destruct IH as [-> ->]. done.
Qed.

Lemma parseRequestBody_receiving (received : list (list Byte.byte)) :
  parseRequestBody utf8_decode JSON_parse (map Data received)
  = if LIMIT <? Z.of_nat (length (concat received)) then Some too_large else None.
Proof.
  unfold parseRequestBody. destruct (receive received) as [_ Hrd].
  destruct (LIMIT <? _); [done|]. by destruct Hrd.
Qed.

Lemma parseRequestBody_ended (received : list (list Byte.byte)) :
  parseRequestBody utf8_decode JSON_parse (map Data received ++ [End_])
  = Some (if LIMIT <? Z.of_nat (length (concat received)) then too_large
          else parsed utf8_decode JSON_parse (concat received)).
Proof.
  unfold parseRequestBody. rewrite fold_left_app. cbn [fold_left listen].
  destruct (receive received) as [_ Hrd].
  set (rd := fold_left _ (map Data received) _) in *.
  unfold on_end, parsed. cbn zeta.
  destruct (LIMIT <? _).
  - unfold settle. destruct (JSON_parse _); by rewrite Hrd.
  - destruct Hrd as [-> Hnone]. unfold settle.
    destruct (JSON_parse _); by rewrite Hnone.
Qed.
End WithRuntime.

(** X16. [parseRequestBody] counts the bytes it receives.  While they
    are at most 65536 the promise stays pending until the stream ends,
    and is then settled with what [JSON.parse] makes of the body, an
    empty body read as [{}]; a body that does not parse rejects it with
    the SyntaxError.  As soon as more than 65536 bytes have arrived the
    promise is rejected with ['Payload too large'], and the end of the
    stream changes nothing. *)
Theorem parseRequestBody_limit (utf8_decode : list Byte.byte → string)
    (JSON_parse : string → string + json) (received : list (list Byte.byte)) :
  let body := concat received in
  let pending := parseRequestBody utf8_decode JSON_parse (map Data received) in
  let ended :=
    parseRequestBody utf8_decode JSON_parse (map Data received ++ [End_]) in
  (Z.of_nat (length body) ≤ 65536 →
   pending = None
   ∧ ended
     = Some match JSON_parse (if (String.length (utf8_decode body) =? 0)%nat
                              then "{}" else utf8_decode body) with
            | inr value => inr value
            | inl message => inl (Thrown.ErrorObject "SyntaxError" message None)
            end)
  ∧ (65536 < Z.of_nat (length body) →
     pending = Some (inl (Thrown.ErrorObject "Error" "Payload too large" None))
     ∧ ended = pending).
Proof.
  cbn zeta. rewrite parseRequestBody_receiving, parseRequestBody_ended.
  change LIMIT with 65536.
  split; intros Hsize.
  - destruct (Z.ltb_spec 65536 (Z.of_nat (length (concat received)))); [lia|].
    done.
  - destruct (Z.ltb_spec 65536 (Z.of_nat (length (concat received)))); [|lia].
    done.
Qed.

(** X17. The status the [catch] block of the server answers with: 400
    exactly for an Error whose message is ['Invalid input'], 413 exactly
    for one whose message is ['Payload too large'], 504 exactly for an
    Error named [AbortError] with another message, and 500 for everything
    else; only the 500 answer is logged.  An error is told by its message
    before its name. *)
Theorem respond_status (JSON_stringify : payload → string) (error : Thrown.t) :
  let logs := (respond JSON_stringify error).1 in
  let status := statusCode (respond JSON_stringify error).2 in
  (status = 400 ↔ ∃ name details, error = Thrown.ErrorObject name "Invalid input" details)
  ∧ (status = 413 ↔
     ∃ name details, error = Thrown.ErrorObject name "Payload too large" details)
  ∧ (status = 504 ↔
     ∃ message details,
       error = Thrown.ErrorObject "AbortError" message details
       ∧ message ≠ "Invalid input" ∧ message ≠ "Payload too large")
  ∧ (status = 500 ↔ status ≠ 400 ∧ status ≠ 413 ∧ status ≠ 504)
  ∧ (logs ≠ [] ↔ status = 500).
Proof.
  cbn zeta. unfold respond.
  destruct error as [name message details|str]; cbn zeta;
    [destruct (String.eqb_spec message "Invalid input") as [->|Hinvalid];
     [|destruct (String.eqb_spec message "Payload too large") as [->|Hlarge];
       [|destruct (String.eqb_spec name "AbortError") as [->|Habort]]]|];
    cbn [fst snd statusCode sendJson];
    repeat split; intros;
    repeat match goal with
           | H : ∃ _, _ |- _ => destruct H
           | H : _ ∧ _ |- _ => destruct H
           end;
    simplify_eq; try done; try lia; eauto 6.
Qed.

Section Handler.
Variable utf8_decode : list Byte.byte → string.
Variable JSON_parse : string → string + json.

Lemma settled_stable (events : list stream_event) (rd : reader) outcome :
  settled rd = Some outcome →
  settled (fold_left (λ rd ev, listen utf8_decode JSON_parse ev rd) events rd)
  = Some outcome.
Proof.
  revert rd. induction events as [|ev events IH]; intros rd Hrd; [done|].
  cbn [fold_left]. apply IH.
  destruct ev as [chunk|error|]; cbn [listen].
  - unfold on_data. destruct (_ <? _); [|done].
    unfold destroy, settle. cbn [settled]. by rewrite Hrd.
  - unfold on_error, settle. by rewrite Hrd.
  - unfold on_end, settle. cbn zeta. destruct (JSON_parse _); by rewrite Hrd.
Qed.

Lemma parseRequestBody_app events events' outcome :
  parseRequestBody utf8_decode JSON_parse events = Some outcome →
  parseRequestBody utf8_decode JSON_parse (events ++ events') = Some outcome.
Proof.
  unfold parseRequestBody. rewrite fold_left_app. apply settled_stable.
Qed.

(** The code awaiting the promise sees what the promise is settled
    with. *)
Lemma until_settled_settled (events : list stream_event) (rd : reader) :
  settled (until_settled utf8_decode JSON_parse events rd)
  = settled (fold_left (λ rd ev, listen utf8_decode JSON_parse ev rd) events rd).
Proof.
  revert rd. induction events as [|ev events IH]; intros rd; [done|].
  cbn [until_settled fold_left].
  destruct (settled (listen utf8_decode JSON_parse ev rd)) as [outcome|] eqn:Hrd;
    [|apply IH].
  symmetry. rewrite Hrd. by apply settled_stable.
Qed.

(** Chunks are taken in while the count stays within the limit. *)
Lemma until_settled_receiving (received : list (list Byte.byte))
    (rest : list stream_event) (rd : reader) :
  settled rd = None →
  total rd + Z.of_nat (length (concat received)) ≤ LIMIT →
  until_settled utf8_decode JSON_parse (map Data received ++ rest) rd
  = until_settled utf8_decode JSON_parse rest
      {| chunks := chunks rd ++ received;
         total := total rd + Z.of_nat (length (concat received));
         settled := None; destroyed := destroyed rd |}.
Proof.
  revert rd. induction received as [|chunk received IH]; intros rd Hrd Hsize.
  { cbn [map concat length app]. rewrite Z.add_0_r, app_nil_r.
    destruct rd as [c t s d]. cbn in Hrd. by subst s. }
  cbn [concat] in *. rewrite length_app, Nat2Z.inj_add in *.
  cbn [map app until_settled listen]. unfold on_data.
  destruct (Z.ltb_spec LIMIT (total rd + Z.of_nat (length chunk))) as [Hbig|Hfit];
    [lia|].
  cbn [settled]. rewrite Hrd, IH; cbn [total chunks destroyed settled];
    [|done|lia].
  by rewrite <- app_assoc, Z.add_assoc.
Qed.

(** The chunk that brings the count over the limit rejects the promise
    and destroys the request; nothing emitted later is looked at. *)
Lemma until_settled_too_large (received : list (list Byte.byte))
    (rest : list stream_event) (rd : reader) :
  settled rd = None →
  total rd ≤ LIMIT →
  LIMIT < total rd + Z.of_nat (length (concat received)) →
  let rd' := until_settled utf8_decode JSON_parse (map Data received ++ rest) rd in
  settled rd' = Some too_large ∧ destroyed rd' = true.
Proof.
  revert rd. induction received as [|chunk received IH]; intros rd Hrd Hfit Hsize;
    cbn zeta.
  { cbn in Hsize. lia. }
  cbn [concat] in *. rewrite length_app, Nat2Z.inj_add in *.
  cbn [map app until_settled listen]. unfold on_data.
  destruct (Z.ltb_spec LIMIT (total rd + Z.of_nat (length chunk))) as [Hbig|Hfit'].
  - unfold destroy, settle. cbn [settled]. by rewrite Hrd.
  - cbn [settled]. rewrite Hrd. apply IH; cbn [settled total]; [done|lia|lia].
Qed.
End Handler.

(** X18. A request that is not a POST to [/recommendFacility] is
    answered at once, whatever its body and without a call of the tool:
    with 200 when it is a GET whose URL starts with [/healthz], with 404
    otherwise; nothing is logged. *)
Theorem handler_other_routes (JSON_stringify : payload → string)
    (req : IncomingMessage) :
  ¬ (method req = Some "POST" ∧ url req = Some "/recommendFacility") →
  ∃ res : Response,
    (∀ utf8_decode JSON_parse recommendFacility events,
       handler utf8_decode JSON_parse JSON_stringify recommendFacility req events
       = {| logged := []; written := Some res; requestDestroyed := false |})
    ∧ (res = sendJson JSON_stringify 200 StatusOk
       ∨ res = sendJson JSON_stringify 404 (Failure "Not found" None))
    ∧ (statusCode res = 200 ↔
       method req = Some "GET"
       ∧ ∃ u, url req = Some u ∧ String.prefix "/healthz" u = true).
Proof.
  intros Hroute. unfold handler. cbn zeta.
  destruct req as [[m|] [u|]]; cbn [method url] in *;
    try destruct (String.eqb_spec m "GET") as [->|Hget];
    try destruct (String.prefix "/healthz" u) eqn:Hprefix;
    cbn [andb];
    try destruct (String.eqb_spec m "POST") as [->|Hpost];
    try destruct (String.eqb_spec u "/recommendFacility") as [->|Hurl];
    cbn [andb]; try (by destruct Hroute);
    eexists; (split; [intros; reflexivity|]);
    (split; [auto|]); cbn [statusCode sendJson];
    split; intros;
    repeat match goal with
           | H : ∃ _, _ |- _ => destruct H
           | H : _ ∧ _ |- _ => destruct H
           end;
    simplify_eq; try done; try lia; try congruence; eauto.
Qed.

Lemma handler_other_routes_witness :
  let req := {| method := Some "GET"; url := Some "/healthz?verbose" |} in
  ∃ res : Response,
    (∀ utf8_decode JSON_parse recommendFacility events,
       handler utf8_decode JSON_parse Fixture.stringify recommendFacility req events
       = {| logged := []; written := Some res; requestDestroyed := false |})
    ∧ (res = sendJson Fixture.stringify 200 StatusOk
       ∨ res = sendJson Fixture.stringify 404 (Failure "Not found" None))
    ∧ (statusCode res = 200 ↔
       method req = Some "GET"
       ∧ ∃ u, url req = Some u ∧ String.prefix "/healthz" u = true).
Proof.
  apply (handler_other_routes Fixture.stringify
           {| method := Some "GET"; url := Some "/healthz?verbose" |}).
  intros [Hmethod _]. discriminate Hmethod.
Defined.

(** X19. On a POST to [/recommendFacility] the tool is not called when
    the body cannot be read.  Once more than 65536 bytes have arrived the
    request is destroyed, and the handler then answers 413, whatever the
    stream emits afterwards: the response is written after
    [req.destroy()], to a connection that has been torn down.  A body
    within the limit that has ended and does not parse as JSON is
    answered with 500 and logged as an unhandled error, not with 400; the
    request is not destroyed. *)
Theorem handler_rejects_body (utf8_decode : list Byte.byte → string)
    (JSON_parse : string → string + json) (JSON_stringify : payload → string)
    (recommendFacility : json → Thrown.t + list Enriched.t)
    (req : IncomingMessage) (received : list (list Byte.byte))
    (rest : list stream_event) :
  method req = Some "POST" →
  url req = Some "/recommendFacility" →
  (65536 < Z.of_nat (length (concat received)) →
   handler utf8_decode JSON_parse JSON_stringify recommendFacility req
     (map Data received ++ rest)
   = {| logged := [];
        written :=
          Some (sendJson JSON_stringify 413 (Failure "Payload too large" None));
        requestDestroyed := true |})
  ∧ (∀ message,
       Z.of_nat (length (concat received)) ≤ 65536 →
       JSON_parse (if (String.length (utf8_decode (concat received)) =? 0)%nat
                   then "{}" else utf8_decode (concat received))
       = inl message →
       message ≠ "Invalid input" → message ≠ "Payload too large" →
       handler utf8_decode JSON_parse JSON_stringify recommendFacility req
         (map Data received ++ End_ :: rest)
       = {| logged := [Log_error "Unhandled server error" [("error", JStr message)]];
            written :=
              Some (sendJson JSON_stringify 500
                      (Failure "Internal server error" None));
            requestDestroyed := false |}).
Proof.
  intros Hm Hu. unfold handler. cbn zeta. rewrite Hm, Hu. cbn [andb].
  change (String.eqb "POST" "GET") with false.
  change (String.eqb "POST" "POST") with true.
  change (String.eqb "/recommendFacility" "/recommendFacility") with true.
  cbn [andb]. split.
  - intros Hsize.
    destruct (until_settled_too_large utf8_decode JSON_parse received rest start)
      as [-> ->]; [done|done|cbn; change LIMIT with 65536; lia|].
    reflexivity.
  - intros message Hsize Hparse Hinvalid Hlarge.
    rewrite until_settled_receiving by (cbn; change LIMIT with 65536; done || lia).
    cbn [until_settled listen chunks app total destroyed start].
    unfold on_end. cbn [chunks app]. cbn zeta. rewrite Hparse.
    unfold settle. cbn [settled destroyed].
    unfold respond. cbn zeta.
    destruct (String.eqb_spec message "Invalid input"); [done|].
    destruct (String.eqb_spec message "Payload too large"); [done|].
    reflexivity.
Qed.

Lemma handler_rejects_body_witness :
  let req := {| method := Some "POST"; url := Some "/recommendFacility" |} in
  let received := [Fixture.bytes "{"; Fixture.bytes "oops"] in
  (65536 < Z.of_nat (length (concat received)) →
   handler Fixture.decode Fixture.parse Fixture.stringify Fixture.tool req
     (map Data received ++ [])
   = {| logged := [];
        written :=
          Some (sendJson Fixture.stringify 413 (Failure "Payload too large" None));
        requestDestroyed := true |})
  ∧ (∀ message,
       Z.of_nat (length (concat received)) ≤ 65536 →
       Fixture.parse
         (if (String.length (Fixture.decode (concat received)) =? 0)%nat
          then "{}" else Fixture.decode (concat received))
       = inl message →
       message ≠ "Invalid input" → message ≠ "Payload too large" →
       handler Fixture.decode Fixture.parse Fixture.stringify Fixture.tool req
         (map Data received ++ End_ :: [])
       = {| logged := [Log_error "Unhandled server error" [("error", JStr message)]];
            written :=
              Some (sendJson Fixture.stringify 500
                      (Failure "Internal server error" None));
            requestDestroyed := false |}).
Proof.
  apply (handler_rejects_body Fixture.decode Fixture.parse Fixture.stringify
           Fixture.tool {| method := Some "POST"; url := Some "/recommendFacility" |}
           [Fixture.bytes "{"; Fixture.bytes "oops"] []);
    reflexivity.
Defined.

(** A body of 65537 bytes in two chunks: the second chunk destroys the
    request, and the 413 answer is written after that. *)
Example handler_destroys_oversized :
  handler Fixture.decode Fixture.parse Fixture.stringify Fixture.tool
    {| method := Some "POST"; url := Some "/recommendFacility" |}
    [Data (replicate (Z.to_nat 65536) Byte.x20); Data [Byte.x20]; End_]
  = {| logged := [];
       written :=
         Some (sendJson Fixture.stringify 413 (Failure "Payload too large" None));
       requestDestroyed := true |}.
Proof. vm_compute. reflexivity. Qed.

End ServerFacts.

Module ConfigFacts.
Import Js Config Normalizer NormalizerFacts.

Lemma trimmed_or_nonempty trim value fallback :
  fallback ≠ "" → trimmed_or trim value fallback ≠ "".
Proof.
  intros Hf. unfold trimmed_or. destruct value as [v|]; [|done].
  cbn zeta. destruct (Nat.eqb_spec (String.length (trim v)) 0) as [|Hlen]; [done|].
  intros Hs. by rewrite Hs in Hlen.
Qed.

(** X20. Whatever the environment holds, [loadConfig] yields a base URL
    and two paths that are not empty (a variable that is unset or blank
    after trimming gives the default), and the two times to live and the
    overall timeout are the built-in constants, which no variable
    changes.  Hence every facility normalized under a loaded
    configuration has a source URL that is not empty. *)
Theorem loadConfig_endpoints (parseInt10 : string → option Z) (trim : string → string)
    (env : gmap string string) :
  let config := loadConfig parseInt10 trim env in
  ServiceConfig.baseUrl config ≠ ""
  ∧ ServiceConfig.facilitiesPath config ≠ ""
  ∧ ServiceConfig.availabilityPath config ≠ ""
  ∧ ServiceConfig.availabilityTtlMs config = 60000
  ∧ ServiceConfig.facilitiesTtlMs config = 86400000
  ∧ ServiceConfig.overallTimeoutMs config = 8000
  ∧ ∀ (runtime : Runtime) (raw : json) (facility : FacilityMetadata.t),
      normalizeFacilityMetadata raw config = Ok (Some facility) →
      FacilityMetadata.sourceUrl facility ≠ "".
Proof.
  cbn zeta.
  assert (ServiceConfig.baseUrl (loadConfig parseInt10 trim env) ≠ "") as Hbase.
  { by apply trimmed_or_nonempty. }
  split; [done|]. split; [by apply trimmed_or_nonempty|].
  split; [by apply trimmed_or_nonempty|]. do 3 (split; [reflexivity|]).
  intros runtime raw facility [_ Hurl]%normalizeFacilityMetadata_ok Hempty.
  specialize (Hurl Hempty).
  destruct (ServiceConfig.baseUrl _); [done|discriminate Hurl].
Qed.
End ConfigFacts.
